(** * Marabou basis factorization: a shallow embedding of
      [src/BasisFactorization.cpp] and the properties of its operations.

    The engine keeps the Simplex basis as [B = B0 * E1 * ... * En], with
    [B0] factored as [inv(Ln Pn ... L1 P1) * U].  Every C++ method is a
    function on an explicit engine state; a thrown [ReluplexError] is
    returned next to the state the engine is left in at the throw.

    The code computes on [double].  The embedding is written once over an
    interface of the arithmetic it uses ([Double]); its instance for the
    code is IEEE-754 binary64 (Rocq's primitive floats).  The properties
    are proved for every instance of the interface, so for binary64, with
    its rounding, infinities, NaN and signed zeros; the concrete scenarios
    are evaluated on binary64.  A second instance, exact rationals ([Qc]),
    is the idealisation of [double] the spec's algebra refers to: it is
    used to cross-check scenarios and to show what rounding takes away,
    never to state a property of the code.

    Indices are natural numbers.  The code computes them in 32-bit
    [unsigned]; the two agree for dimensions below 2^16, the only ones for
    which the constructor's buffers hold m * m entries. *)

From Stdlib Require Import List Arith Bool Lia NArith.
From Stdlib Require Import Floats.
From Stdlib Require Import QArith Qcanon Qcabs Lqa.
Import ListNotations.

Set Implicit Arguments.
Local Open Scope nat_scope.

(** ** Arithmetic on [double] and [FloatUtils] *)

(** The operations of C++ [double] the file uses, together with the three
    [FloatUtils] helpers it calls.  [FloatUtils.h] is not part of the
    sources at hand, so its helpers are fields of the interface. *)
Class Double (D : Type) : Type := {
  dzero : D;                       (* 0.0 *)
  done : D;                        (* 1.0 *)
  dadd : D -> D -> D;
  dsub : D -> D -> D;
  dmul : D -> D -> D;
  ddiv : D -> D -> D;
  dneg : D -> D;                   (* unary minus *)
  FloatUtils_abs : D -> D;
  FloatUtils_isZero : D -> bool;
  FloatUtils_gt : D -> D -> bool
}.

Declare Scope dbl_scope.
Delimit Scope dbl_scope with D.
Infix "+" := dadd : dbl_scope.
Infix "-" := dsub : dbl_scope.
Infix "*" := dmul : dbl_scope.
Infix "/" := ddiv : dbl_scope.
Notation "- x" := (dneg x) : dbl_scope.

(** Modelled from the spec: [FloatUtils.h] and the tolerance constant of
    [GlobalConfiguration.h] are missing.  Following the numeric policy,
    a value is numerically zero when [|x| < eps], and [gt] is the strict
    comparison under the same tolerance: the difference is positive and
    not numerically zero.  This is the IEEE-754 binary64 instance. *)
Definition binary64 (eps : float) : Double float := {|
  dzero := 0%float;
  done := 1%float;
  dadd := PrimFloat.add;
  dsub := PrimFloat.sub;
  dmul := PrimFloat.mul;
  ddiv := PrimFloat.div;
  dneg := PrimFloat.opp;
  FloatUtils_abs := PrimFloat.abs;
  FloatUtils_isZero := fun x => PrimFloat.ltb (PrimFloat.abs x) eps;
  FloatUtils_gt := fun x y =>
    negb (PrimFloat.ltb (PrimFloat.abs (PrimFloat.sub x y)) eps)
    && PrimFloat.ltb 0%float (PrimFloat.sub x y)
|}.

Definition Qcltb (x y : Qc) : bool :=
  match (x ?= y)%Qc with Lt => true | _ => false end.

(** Modelled from the spec: the same helpers in exact rational arithmetic,
    an idealisation of [double] without rounding.  The code does not run on
    it; it serves as a reference to compare binary64 results with. *)
Definition exact (eps : Qc) : Double Qc := {|
  dzero := 0%Qc;
  done := 1%Qc;
  dadd := Qcplus;
  dsub := Qcminus;
  dmul := Qcmult;
  ddiv := Qcdiv;
  dneg := Qcopp;
  FloatUtils_abs := Qcabs;
  FloatUtils_isZero := fun x => Qcltb (Qcabs x) eps;
  FloatUtils_gt := fun x y =>
    negb (Qcltb (Qcabs (x - y)%Qc) eps) && Qcltb 0%Qc (x - y)%Qc
|}.

(** ** Arrays and loops *)

Section Arrays.
Context {A : Type}.

(** [a[i] = v]; a write outside the buffer (undefined in C++) is dropped. *)
Fixpoint store (a : list A) (i : nat) (v : A) : list A :=
  match a, i with
  | [], _ => []
  | _ :: t, 0 => v :: t
  | x :: t, S i' => x :: store t i' v
  end.

(** [for (unsigned i = lo; i < hi; ++i) body] *)
Definition forUp {S : Type} (lo hi : nat) (body : nat -> S -> S) (s : S) : S :=
  fold_left (fun s i => body i s) (seq lo (hi - lo)) s.

(** [for (int i = hi - 1; i >= lo; --i) body] *)
Definition forDown {S : Type} (hi lo : nat) (body : nat -> S -> S) (s : S) : S :=
  fold_left (fun s i => body i s) (rev (seq lo (hi - lo))) s.
End Arrays.

(** [unsigned] is 32 bits wide: a product or a sum of two [unsigned]
    values is taken modulo 2^32. *)
Definition unsigned32 (n : N) : nat := N.to_nat (n mod 2 ^ 32)%N.
Definition umul (a b : nat) : nat := unsigned32 (N.of_nat a * N.of_nat b).
Definition uadd (a b : nat) : nat := unsigned32 (N.of_nat a + N.of_nat b).

(** ** Data model *)

Inductive ReluplexError : Type :=
| ALLOCATION_FAILED
| NO_AVAILABLE_CANDIDATES
| CANT_INVERT_BASIS_BECAUSE_OF_ETAS.

(** How a call ends: it returns, or it throws. *)
Inductive Outcome : Type :=
| Returned
| Thrown (e : ReluplexError).

Section DataModel.
Variable D : Type.

(** Modelled from the spec: [EtaMatrix.h] is missing.  E(k, v): the
    identity with column [_columnIndex] replaced by [_column]. *)
Record EtaMatrix : Type := mkEta {
  eta_m : nat;
  _columnIndex : nat;
  _column : list D
}.

(** Modelled from the spec: [LPElement.h] is missing.  An element holds
    either a permutation pair or a lower-triangular eta, never both; the
    code tests [_pair] and otherwise uses [_eta]. *)
Inductive LPElement : Type :=
| LPPair (first second : nat)
| LPEta (eta : EtaMatrix).

Record BasisFactorization : Type := mkBF {
  _B0 : list D;
  _m : nat;
  _U : list D;
  _factorizationEnabled : bool;
  _tempY : list D;
  _LCol : list D;
  _etas : list EtaMatrix;      (* newest at the tail *)
  _LP : list LPElement         (* newest at the head *)
}.

Definition with_B0 (st : BasisFactorization) (v : list D) :=
  mkBF v (_m st) (_U st) (_factorizationEnabled st) (_tempY st) (_LCol st) (_etas st) (_LP st).
Definition with_U (st : BasisFactorization) (v : list D) :=
  mkBF (_B0 st) (_m st) v (_factorizationEnabled st) (_tempY st) (_LCol st) (_etas st) (_LP st).
Definition with_enabled (st : BasisFactorization) (v : bool) :=
  mkBF (_B0 st) (_m st) (_U st) v (_tempY st) (_LCol st) (_etas st) (_LP st).
Definition with_tempY (st : BasisFactorization) (v : list D) :=
  mkBF (_B0 st) (_m st) (_U st) (_factorizationEnabled st) v (_LCol st) (_etas st) (_LP st).
Definition with_LCol (st : BasisFactorization) (v : list D) :=
  mkBF (_B0 st) (_m st) (_U st) (_factorizationEnabled st) (_tempY st) v (_etas st) (_LP st).
Definition with_etas (st : BasisFactorization) (v : list EtaMatrix) :=
  mkBF (_B0 st) (_m st) (_U st) (_factorizationEnabled st) (_tempY st) (_LCol st) v (_LP st).
Definition with_LP (st : BasisFactorization) (v : list LPElement) :=
  mkBF (_B0 st) (_m st) (_U st) (_factorizationEnabled st) (_tempY st) (_LCol st) (_etas st) v.
End DataModel.

Arguments LPPair {D} first second.
Arguments LPEta {D} eta.

(** ** The engine *)

Section Engine.
Context {D : Type} {DD : Double D}.

(** [GlobalConfiguration::REFACTORIZATION_THRESHOLD]; the header is
    missing, so the constant is a parameter of the engine. *)
Variable REFACTORIZATION_THRESHOLD : nat.

Local Abbreviation BF := (BasisFactorization D).
Local Abbreviation Eta := (EtaMatrix D).

(** [a[i]]; a read outside the buffer (undefined in C++) gives 0.0. *)
Definition get (a : list D) (i : nat) : D := nth i a dzero.

(** [memcpy( dst, src, sizeof(double) * n )] *)
Definition memcpy (dst src : list D) (n : nat) : list D :=
  forUp 0 n (fun i d => store d i (get src i)) dst.

(** [std::fill_n( a, n, v )] *)
Definition fill_n (a : list D) (n : nat) (v : D) : list D :=
  forUp 0 n (fun i d => store d i v) a.

(** [if ( FloatUtils::isZero( a[i] ) ) a[i] = 0.0;] *)
Definition snapAt (a : list D) (i : nat) : list D :=
  if FloatUtils_isZero (get a i) then store a i dzero else a.

(** [if ( FloatUtils::isZero( sum ) ) sum = 0.0;] *)
Definition snap (x : D) : D :=
  if FloatUtils_isZero x then dzero else x.

(** [new EtaMatrix( m, columnIndex, column )] copies [m] entries. *)
Definition EtaMatrix_new (m columnIndex : nat) (column : list D) : Eta :=
  mkEta m columnIndex (map (get column) (seq 0 m)).

(** The constructor.  [_B0] is set to the identity; [_U], [_tempY] and
    [_LCol] come from [new double[...]] and are not initialised: their
    contents are whatever the allocator returned ([heapU], [heapT],
    [heapL]). *)
Definition identityMatrix (m : nat) : list D :=
  forUp 0 m (fun row B => store B (row * m + row) done)
    (repeat dzero (m * m)).

Definition BasisFactorization_new (m : nat) (heapU heapT heapL : nat -> D) : BF :=
  mkBF (identityMatrix m) m (map heapU (seq 0 (m * m))) true
       (map heapT (seq 0 m)) (map heapL (seq 0 m)) [] [].

(** [new double[n]] as the constructor uses it: no buffer (a null
    pointer), or a buffer of [n] doubles whose contents are whatever the
    allocator returned. *)
Definition newArray (n : nat) (heap : option (nat -> D)) : option (list D) :=
  match heap with
  | None => None
  | Some contents => Some (map contents (seq 0 n))
  end.

(** The constructor as written, lines 23-51: the four allocations in
    order, each followed by its null check, with the sizes and the
    diagonal indices computed in [unsigned].  [BasisFactorization_new] is
    the engine it returns when every allocation succeeds and [m * m] does
    not wrap. *)
Definition BasisFactorization_constructor (m : nat)
    (heapB0 heapU heapT heapL : option (nat -> D)) : ReluplexError + BF :=
  match newArray (umul m m) heapB0 with
  | None => inl ALLOCATION_FAILED
  | Some B0 =>
      let B0 := fill_n B0 (umul m m) dzero in
      let B0 := forUp 0 m (fun row B0 => store B0 (uadd (umul row m) row) done) B0 in
      match newArray (umul m m) heapU with
      | None => inl ALLOCATION_FAILED
      | Some U =>
          match newArray m heapT with
          | None => inl ALLOCATION_FAILED
          | Some tempY =>
              match newArray m heapL with
              | None => inl ALLOCATION_FAILED
              | Some LCol => inr (mkBF B0 m U true tempY LCol [] [])
              end
          end
      end
  end.

(** [LMultiplyRight], lines 130-140. *)
Definition LMultiplyRight (m : nat) (L : Eta) (X : list D) : list D :=
  let sum := forUp 0 m (fun i sum => (sum + get (_column L) i * get X i)%D) dzero in
  let sum := snap sum in
  store X (_columnIndex L) sum.

(** [LMultiplyLeft], lines 142-156. *)
Definition LMultiplyLeft (m : nat) (L : Eta) (X : list D) : list D :=
  let col := _columnIndex L in
  let xCol := get X col in
  forUp 0 m (fun i X =>
    let X := if i =? col
             then store X i (get X i * get (_column L) col)%D
             else store X i (get X i + xCol * get (_column L) i)%D in
    snapAt X i) X.

(** [rowSwap], lines 347-356. *)
Definition rowSwap (m rowOne rowTwo : nat) (matrix : list D) : list D :=
  forUp 0 m (fun i matrix =>
    let temp := get matrix (rowOne * m + i) in
    let matrix := store matrix (rowOne * m + i) (get matrix (rowTwo * m + i)) in
    store matrix (rowTwo * m + i) temp) matrix.

(** [clearLPU], lines 358-366. *)
Definition clearLPU (st : BF) : BF :=
  let st := with_LP st [] in
  with_U st (fill_n (_U st) (_m st * _m st) dzero).

(** [LFactorizationMultiply], lines 422-440, on the array [_U]. *)
Definition LFactorizationMultiply_U (m : nat) (L : Eta) (U : list D) : list D :=
  let colIndex := _columnIndex L in
  let U := forUp (colIndex + 1) m (fun row U =>
             let U := store U (row * m + colIndex) dzero in
             forUp (colIndex + 1) m (fun col U =>
               store U (row * m + col)
                 (get U (row * m + col) + get (_column L) row * get U (colIndex * m + col))%D) U) U in
  let U := forUp (colIndex + 1) m (fun i U =>
             store U (colIndex * m + i)
               (get U (colIndex * m + i) * get (_column L) colIndex)%D) U in
  store U (colIndex * m + colIndex) done.

Definition LFactorizationMultiply (L : Eta) (st : BF) : BF :=
  with_U st (LFactorizationMultiply_U (_m st) L (_U st)).

(** Pivot search of [factorizeMatrix], lines 380-391: the pair
    [(largestElement, bestRowIndex)] after the scan of column [i]. *)
Definition findPivot (m : nat) (U : list D) (i : nat) : D * nat :=
  forUp (i + 1) m (fun j (acc : D * nat) =>
    let contender := FloatUtils_abs (get U (j * m + i)) in
    if FloatUtils_gt contender (fst acc) then (contender, j) else acc)
    (FloatUtils_abs (get U (i * m + i)), i).

(** The column of L at stage [i], built in [_LCol], lines 407-411. *)
Definition buildLCol (m i : nat) (U LCol : list D) : list D :=
  let LCol := fill_n LCol m dzero in
  let div := get U (i * m + i) in
  let LCol := store LCol i (done / div)%D in
  forUp (i + 1) m (fun j LCol => store LCol j (- get U (i + j * m) / div)%D) LCol.

(** One iteration of the loop of [factorizeMatrix], lines 376-418. *)
Definition factorizeStage (i : nat) (st : BF) : Outcome * BF :=
  let m := _m st in
  let '(largestElement, bestRowIndex) := findPivot m (_U st) i in
  if FloatUtils_isZero largestElement
  then (Thrown NO_AVAILABLE_CANDIDATES, st)
  else
    let st := if bestRowIndex =? i then st
              else let st := with_U st (rowSwap m i bestRowIndex (_U st)) in
                   with_LP st (LPPair i bestRowIndex :: _LP st) in
    let st := with_LCol st (buildLCol m i (_U st) (_LCol st)) in
    let L := EtaMatrix_new m i (_LCol st) in
    let st := with_LP st (LPEta L :: _LP st) in
    (Returned, LFactorizationMultiply L st).

(** The loop [for ( i = 0; i < _m; ++i )] of [factorizeMatrix]; a throw
    leaves the loop with the state reached so far. *)
Fixpoint factorizeLoop (n i : nat) (st : BF) : Outcome * BF :=
  match n with
  | 0 => (Returned, st)
  | S n' =>
      match factorizeStage i st with
      | (Returned, st') => factorizeLoop n' (S i) st'
      | thrown => thrown
      end
  end.

(** [factorizeMatrix], lines 368-420.  [matrix] stands for the m * m
    doubles the [memcpy] of line 372 reads, that is, what the argument
    points to once [clearLPU] has run. *)
Definition factorizeMatrix (st : BF) (matrix : list D) : Outcome * BF :=
  let st := clearLPU st in
  let st := with_U st (memcpy (_U st) matrix (_m st * _m st)) in
  factorizeLoop (_m st) 0 st.

(** The argument of [factorizeMatrix] is a pointer: to the engine's own
    [_U], to its [_B0] (what every caller in the file passes), or to a
    buffer of the caller. *)
Inductive MatrixPtr : Type :=
| PtrU
| PtrB0
| PtrCaller (contents : list D).

Definition deref (st : BF) (p : MatrixPtr) : list D :=
  match p with
  | PtrU => _U st
  | PtrB0 => _B0 st
  | PtrCaller contents => contents
  end.

(** The call [factorizeMatrix( p )]: the pointer is read after [clearLPU]
    has zeroed [_U], so a pointer to [_U] yields zeros. *)
Definition factorizeMatrixAt (st : BF) (p : MatrixPtr) : Outcome * BF :=
  factorizeMatrix st (deref (clearLPU st) p).

(** [setB0], lines 158-162. *)
Definition setB0 (st : BF) (B0 : list D) : Outcome * BF :=
  let st := with_B0 st (memcpy (_B0 st) B0 (_m st * _m st)) in
  factorizeMatrix st (_B0 st).

(** Body of the loop of [condenseEtas], lines 172-186: the in-place
    product of [_B0] with one eta. *)
Definition condenseEta (m : nat) (B0 : list D) (eta : Eta) : list D :=
  let col := _columnIndex eta in
  forUp 0 m (fun i B0 =>
    let sum := forUp 0 m (fun j sum =>
                 (sum + get B0 (i * m + j) * get (_column eta) j)%D) dzero in
    let sum := snap sum in
    store B0 (i * m + col) sum) B0.

(** [condenseEtas], lines 164-193. *)
Definition condenseEtas (st : BF) : BF :=
  let st := with_B0 st (fold_left (condenseEta (_m st)) (_etas st) (_B0 st)) in
  let st := with_etas st [] in
  clearLPU st.

(** [pushEtaMatrix], lines 117-128. *)
Definition pushEtaMatrix (st : BF) (columnIndex : nat) (column : list D) : Outcome * BF :=
  let matrix := EtaMatrix_new (_m st) columnIndex column in
  let st := with_etas st (_etas st ++ [matrix]) in
  if (REFACTORIZATION_THRESHOLD <? length (_etas st)) && _factorizationEnabled st
  then let st := condenseEtas st in
       factorizeMatrix st (_B0 st)
  else (Returned, st).

(** [temp = a[i]; a[i] = a[j]; a[j] = temp;] *)
Definition swapEntries (a : list D) (i j : nat) : list D :=
  let temp := get a i in
  let a := store a i (get a j) in
  store a j temp.

(** First loop of [forwardTransformation], lines 212-222: the LP list is
    visited from its back to its front. *)
Definition forwardLP (m : nat) (LP : list (LPElement D)) (tempY : list D) : list D :=
  fold_left (fun tempY element =>
    match element with
    | LPPair first second => swapEntries tempY first second
    | LPEta L => LMultiplyLeft m L tempY
    end) (rev LP) tempY.

(** Elimination of U in [forwardTransformation], lines 228-238. *)
Definition forwardU (m : nat) (U tempY x : list D) : list D :=
  let x := store x (m - 1) (get tempY (m - 1)) in
  forDown (m - 1) 0 (fun i x =>
    let sum := forDown m (i + 1) (fun j sum =>
                 (sum + get U (i * m + j) * get x j)%D) dzero in
    let x := store x i (get tempY i - sum)%D in
    snapAt x i) x.

(** Body of the eta loop of [forwardTransformation], lines 246-267, on the
    pair of buffers [(x, _tempY)]. *)
Definition forwardEta (m : nat) (xt : list D * list D) (eta : Eta) : list D * list D :=
  let '(x, tempY) := xt in
  let k := _columnIndex eta in
  let x := store x k (get tempY k / get (_column eta) k)%D in
  let x := snapAt x k in
  let x := forUp (k + 1) m (fun i x =>
             let x := store x i (get tempY i - get x k * get (_column eta) i)%D in
             snapAt x i) x in
  let x := forDown k 0 (fun i x =>
             let x := store x i (get tempY i - get x k * get (_column eta) i)%D in
             snapAt x i) x in
  (x, memcpy tempY x m).

(** The three stages of [forwardTransformation], lines 212-268, on the
    pair of buffers [(x, _tempY)], once [y] has been copied into [_tempY]. *)
Definition forwardStages (m : nat) (U : list D) (LP : list (LPElement D))
    (etas : list Eta) (xt : list D * list D) : list D * list D :=
  let '(x, tempY) := xt in
  let tempY := forwardLP m LP tempY in
  let '(x, tempY) :=
    match LP with
    | [] => (x, tempY)
    | _ :: _ => let x := forwardU m U tempY x in (x, memcpy tempY x m)
    end in
  fold_left (forwardEta m) etas (x, tempY).

(** [forwardTransformation], lines 195-269.  The method is [const] but
    writes the scratch buffer [_tempY] through its pointer; it returns the
    engine and the contents of the caller's buffer [x]. *)
Definition forwardTransformation (st : BF) (y x : list D) : BF * list D :=
  let m := _m st in
  match _etas st, _LP st with
  | [], [] => (st, memcpy x y m)
  | _, _ =>
      let tempY := memcpy (_tempY st) y m in
      let '(x, tempY) := forwardStages m (_U st) (_LP st) (_etas st) (x, tempY) in
      (with_tempY st tempY, x)
  end.

(** Body of the eta loop of [backwardTransformation], lines 288-305. *)
Definition backwardEta (m : nat) (xt : list D * list D) (eta : Eta) : list D * list D :=
  let '(x, tempY) := xt in
  let x := memcpy x tempY m in
  let columnIndex := _columnIndex eta in
  let x := store x columnIndex (get tempY columnIndex) in
  let x := forUp 0 m (fun i x =>
             if i =? columnIndex then x
             else store x columnIndex
                    (get x columnIndex - get x i * get (_column eta) i)%D) x in
  let x := store x columnIndex (get x columnIndex / get (_column eta) columnIndex)%D in
  let x := snapAt x columnIndex in
  (x, memcpy tempY x m).

(** Elimination of U in [backwardTransformation], lines 317-327. *)
Definition backwardU (m : nat) (U tempY x : list D) : list D :=
  let x := store x 0 (get tempY 0) in
  forUp 1 m (fun i x =>
    let sum := forUp 0 i (fun j sum =>
                 (sum + get U (i + j * m) * get x j)%D) dzero in
    let x := store x i (get tempY i - sum)%D in
    snapAt x i) x.

(** Last loop of [backwardTransformation], lines 334-344: the LP list is
    visited in storage order. *)
Definition backwardLP (m : nat) (LP : list (LPElement D)) (x : list D) : list D :=
  fold_left (fun x d =>
    match d with
    | LPPair first second => swapEntries x first second
    | LPEta L => LMultiplyRight m L x
    end) LP x.

(** [backwardTransformation], lines 271-345. *)
Definition backwardTransformation (st : BF) (y x : list D) : BF * list D :=
  let m := _m st in
  match _etas st, _LP st with
  | [], [] => (st, memcpy x y m)
  | _, _ =>
      let tempY := memcpy (_tempY st) y m in
      let '(x, tempY) := fold_left (backwardEta m) (rev (_etas st)) (x, tempY) in
      let x := match _LP st with
               | [] => x
               | _ :: _ => backwardU m (_U st) tempY x
               end in
      let x := backwardLP m (_LP st) x in
      (with_tempY st tempY, x)
  end.

(** One LP element applied to a matrix as a left-multiplication, the body
    of the loop of [invertB0], lines 523-545: a row swap, or the row
    operations of a lower-triangular eta. *)
Definition applyLPElement (m : nat) (element : LPElement D) (result : list D) : list D :=
  match element with
  | LPPair first second => rowSwap m first second result
  | LPEta eta =>
      let colIndex := _columnIndex eta in
      let result := forUp (colIndex + 1) m (fun row result =>
                      forUp 0 m (fun col result =>
                        store result (row * m + col)
                          (get result (row * m + col)
                           + get (_column eta) row * get result (colIndex * m + col))%D)
                        result) result in
      forUp 0 m (fun i result =>
        store result (colIndex * m + i)
          (get result (colIndex * m + i) * get (_column eta) colIndex)%D) result
  end.

(** The LP list applied to a matrix, lines 521-546: the list is visited
    from its back, so the matrix is left-multiplied by the product of the
    list read front to back. *)
Definition applyLP (m : nat) (LP : list (LPElement D)) (result : list D) : list D :=
  fold_left (fun result element => applyLPElement m element result) (rev LP) result.

(** Back-substitution with U in [invertB0], lines 549-560. *)
Definition invertU (m : nat) (U result : list D) : list D :=
  forDown m 1 (fun col result =>
    forDown col 0 (fun row result =>
      let uElement := get U (row * m + col) in
      if FloatUtils_isZero uElement then result
      else forUp 0 m (fun k result =>
             store result (row * m + k)
               (get result (row * m + k) + (- uElement) * get result (col * m + k))%D)
             result) result) result.

(** [invertB0], lines 496-561.  [ASSERT] and [DEBUG] are compiled out.
    The third component is the caller's buffer [result]. *)
Definition invertB0 (st : BF) (result : list D) : Outcome * BF * list D :=
  let m := _m st in
  match _etas st with
  | _ :: _ => (Thrown CANT_INVERT_BASIS_BECAUSE_OF_ETAS, st, result)
  | [] =>
      let result := forUp 0 m (fun i result =>
                      forUp 0 m (fun j result =>
                        store result (i * m + j) (if i =? j then done else dzero))
                        result) result in
      match _LP st with
      | [] => (Returned, st, result)
      | _ :: _ =>
          let result := applyLP m (_LP st) result in
          (Returned, st, invertU m (_U st) result)
      end
  end.

(** [storeFactorization], lines 467-478, on the pair (this, other). *)
Definition storeFactorization (st other : BF) : Outcome * BF * BF :=
  let st := condenseEtas st in
  match factorizeMatrix st (_B0 st) with
  | (Returned, st) =>
      let '(r, other) := setB0 other (_B0 st) in (r, st, other)
  | (thrown, st) => (thrown, st, other)
  end.

(** [restoreFactorization], lines 480-494. *)
Definition restoreFactorization (st other : BF) : Outcome * BF :=
  let st := with_etas st [] in
  let st := clearLPU st in
  setB0 st (_B0 other).

(** [factorizationEnabled] and [toggleFactorization], lines 457-465. *)
Definition factorizationEnabled (st : BF) : bool := _factorizationEnabled st.
Definition toggleFactorization (st : BF) (value : bool) : BF := with_enabled st value.
End Engine.

(** ** Specification-level notions *)

Section SpecNotions.
Context {D : Type} {DD : Double D}.

(** Row-major access: [M[r][c] = buffer[r * m + c]]. *)
Definition entry (m : nat) (M : list D) (r c : nat) : D := get M (r * m + c).

(** The m x m matrix with entries [f r c], row-major. *)
Definition tabulate (m : nat) (f : nat -> nat -> D) : list D :=
  flat_map (fun r => map (f r) (seq 0 m)) (seq 0 m).

(** Upper-triangular with unit diagonal: exactly 0.0 below the diagonal
    and exactly 1.0 on it. *)
Definition unitUpper (m : nat) (U : list D) : Prop :=
  (forall r c, c < r -> r < m -> entry m U r c = dzero) /\
  (forall r, r < m -> entry m U r r = done).

(** The invariant of the class: the buffers have the sizes the constructor
    gave them, and every eta and permutation addresses rows below [_m]. *)
Definition etaInRange (m : nat) (e : EtaMatrix D) : bool :=
  (_columnIndex e <? m) && (length (_column e) =? m).

Definition lpInRange (m : nat) (e : LPElement D) : bool :=
  match e with
  | LPPair first second => (first <? m) && (second <? m)
  | LPEta L => etaInRange m L
  end.

Definition wellFormed (st : BasisFactorization D) : bool :=
  (0 <? _m st)
  && (length (_B0 st) =? _m st * _m st)
  && (length (_U st) =? _m st * _m st)
  && (length (_tempY st) =? _m st)
  && (length (_LCol st) =? _m st)
  && forallb (etaInRange (_m st)) (_etas st)
  && forallb (lpInRange (_m st)) (_LP st).

(** The observable (mathematical) state: B0, U, the LP list and the eta
    stack.  The scratch buffers are not part of it. *)
Definition sameObservable (st st' : BasisFactorization D) : Prop :=
  _B0 st' = _B0 st /\ _U st' = _U st /\ _LP st' = _LP st /\ _etas st' = _etas st.

(** The fields [factorizeMatrix] never writes. *)
Definition keeps (st st' : BasisFactorization D) : Prop :=
  _m st' = _m st /\ _B0 st' = _B0 st /\ _etas st' = _etas st
  /\ _factorizationEnabled st' = _factorizationEnabled st /\ _tempY st' = _tempY st.

(** Two buffers of size [m] that agree on the rows [lo .. m-1]. *)
Definition agreeFrom (m lo : nat) (a b : list D) : Prop :=
  length a = m /\ length b = m /\ forall j, lo <= j < m -> get a j = get b j.

(** The columns before [i] are already those of a unit upper-triangular
    matrix: exactly 0.0 below the diagonal and exactly 1.0 on it. *)
Definition clearedBefore (m i : nat) (U : list D) : Prop :=
  forall r c, c < i -> r < m ->
    (c < r -> entry m U r c = dzero) /\ (c = r -> entry m U r c = done).

(** Following the spec's words (4.2): multiplying B0 on the right by
    E(k, v) replaces column k of B0 by B0 * v, the dot product of each row
    of B0 with v, every written scalar zero-snapped; the other columns
    stay. *)
Definition rowDot (m : nat) (B : list D) (i : nat) (v : list D) : D :=
  fold_left (fun sum j => (sum + entry m B i j * get v j)%D) (seq 0 m) dzero.

Definition timesEta (m : nat) (B : list D) (eta : EtaMatrix D) : list D :=
  tabulate m (fun i c =>
    if c =? _columnIndex eta then snap (rowDot m B i (_column eta))
    else entry m B i c).

(** The implicit basis [B0 * E1 * ... * En] of an engine state. *)
Definition implicitBasis (st : BasisFactorization D) : list D :=
  fold_left (timesEta (_m st)) (_etas st) (_B0 st).



(** The state [factorizeMatrix] works on when it enters its loop. *)
Definition factorizeInit (st : BasisFactorization D) (matrix : list D) : BasisFactorization D :=
  let st := clearLPU st in
  with_U st (memcpy (_U st) matrix (_m st * _m st)).

(** The engine a failing factorization leaves behind, given the state
    [init] its loop started from: the state reached by the [k] stages that
    completed, at a stage [k] whose largest candidate is numerically
    zero. *)
Definition stoppedAtStage (init st' : BasisFactorization D) : Prop :=
  exists k, k < _m init
    /\ factorizeLoop k 0 init = (Returned, st')
    /\ FloatUtils_isZero (fst (findPivot (_m init) (_U st') k)) = true.


(** [FloatUtils::gt] compares the values [vs] consistently: no value
    exceeds itself, and a value that does not exceed [b] does not exceed
    anything that exceeds [b]. *)
Definition gtConsistent (vs : list D) : bool :=
  forallb (fun a =>
    negb (FloatUtils_gt a a)
    && forallb (fun b =>
         forallb (fun c =>
           implb (FloatUtils_gt a b && negb (FloatUtils_gt c b))
                 (negb (FloatUtils_gt c a))) vs) vs) vs.

(** Two m x m matrices that agree on the columns from [i] on and, in the
    columns before [i], above the diagonal. *)
Definition agreeAbove (m i : nat) (P U : list D) : Prop :=
  forall r c, r < m -> c < m -> i <= c \/ r < c -> entry m P r c = entry m U r c.

(** The diagonal entries before [i] are each [d * (1 / d)], for a pivot [d]
    that is not numerically zero. *)
Definition scaledDiagonal (m i : nat) (P : list D) : Prop :=
  forall r, r < i -> r < m ->
    exists d, FloatUtils_isZero (FloatUtils_abs d) = false
              /\ entry m P r r = (d * (done / d))%D.
End SpecNotions.

(** ** Operation sequences *)

Section Operations.
Context {D : Type} {DD : Double D}.
Variable REFACTORIZATION_THRESHOLD : nat.

(** The calls a driver can make on an engine.  [OpStore] and [OpRestore]
    carry the other engine. *)
Inductive Op : Type :=
| OpPushEta (columnIndex : nat) (column : list D)
| OpSetB0 (B0 : list D)
| OpCondense
| OpForward (y x : list D)
| OpBackward (y x : list D)
| OpInvertB0 (result : list D)
| OpStore (other : BasisFactorization D)
| OpRestore (other : BasisFactorization D)
| OpToggle (value : bool).

(** The engine after a call, whether the call returned or threw. *)
Definition runOp (st : BasisFactorization D) (op : Op) : BasisFactorization D :=
  match op with
  | OpPushEta k v => snd (pushEtaMatrix REFACTORIZATION_THRESHOLD st k v)
  | OpSetB0 M => snd (setB0 st M)
  | OpCondense => condenseEtas st
  | OpForward y x => fst (forwardTransformation st y x)
  | OpBackward y x => fst (backwardTransformation st y x)
  | OpInvertB0 result => snd (fst (invertB0 st result))
  | OpStore other => snd (fst (storeFactorization st other))
  | OpRestore other => snd (restoreFactorization st other)
  | OpToggle value => toggleFactorization st value
  end.

Definition runOps (st : BasisFactorization D) (ops : list Op) : BasisFactorization D :=
  fold_left runOp ops st.

(** The eta stack is within the threshold, or factorization is disabled. *)
Definition withinThreshold (st : BasisFactorization D) : bool :=
  negb (_factorizationEnabled st) || (length (_etas st) <=? REFACTORIZATION_THRESHOLD).

(** Along a sequence of calls, factorization is switched on only while the
    eta stack holds at most REFACTORIZATION_THRESHOLD etas. *)
Fixpoint enablesWithinThreshold (st : BasisFactorization D) (ops : list Op) : bool :=
  match ops with
  | [] => true
  | op :: ops' =>
      match op with
      | OpToggle true => length (_etas st) <=? REFACTORIZATION_THRESHOLD
      | _ => true
      end
      && enablesWithinThreshold (runOp st op) ops'
  end.
End Operations.

(** ** Scenario fixtures *)

(** The tolerance of the scenarios, 1e-9, as the nearest binary64. *)
Definition eps64 : float := 0x1.12e0be826d695p-30%float.
Definition epsQ : Qc := Q2Qc (1 # 1000000000).

Definition f64 : Double float := binary64 eps64.
Definition xQ : Double Qc := exact epsQ.

(** Entrywise agreement of two vectors within the tolerance. *)
Definition within64 (x expected : list float) : bool :=
  (length x =? length expected)
  && forallb (fun p => PrimFloat.ltb (PrimFloat.abs (PrimFloat.sub (fst p) (snd p))) eps64)
       (combine x expected).

(** The matrix of scenario S3 and its right-hand side. *)
Definition S3_matrix64 : list float := [2; 4; -2;  4; 9; -3;  -2; -3; 7]%float.
Definition S3_rhs64 : list float := [2; 8; 10]%float.

Definition QcZ (z : Z) : Qc := Q2Qc (inject_Z z).
Definition S3_matrixQ : list Qc := map QcZ [2; 4; -2;  4; 9; -3;  -2; -3; 7]%Z.
Definition S3_rhsQ : list Qc := map QcZ [2; 8; 10]%Z.

(** A fresh engine of dimension [m] whose uninitialised buffers hold 0.0. *)
Definition fresh64 (m : nat) : BasisFactorization float :=
  BasisFactorization_new (DD := f64) m (fun _ => 0%float) (fun _ => 0%float) (fun _ => 0%float).
Definition freshQ (m : nat) : BasisFactorization Qc :=
  BasisFactorization_new (DD := xQ) m (fun _ => 0%Qc) (fun _ => 0%Qc) (fun _ => 0%Qc).

(** A 2 x 2 matrix whose first column is all zeros (scenario S5). *)
Definition S5_matrix64 : list float := [0; 1;  0; 1]%float.

(** The eta of scenario S2. *)
Definition S2_column64 : list float := [1; 2; 0]%float.
Definition S2_rhs64 : list float := [1; 4; 5]%float.

(** An engine of dimension 2 with factorization disabled. *)
Definition disabled64 : BasisFactorization float := toggleFactorization (fresh64 2) false.

(** An engine of dimension 2 holding one eta. *)
Definition oneEta64 : BasisFactorization float :=
  snd (pushEtaMatrix (DD := f64) 20 (fresh64 2) 0 [2; 0]%float).

(** An engine of dimension 2 holding two etas. *)
Definition twoEtas64 : BasisFactorization float :=
  snd (pushEtaMatrix (DD := f64) 20 oneEta64 1 [1; 3]%float).

(** The engine of scenario S3 after [setB0], with one eta pushed on top. *)
Definition S3_engine64 : BasisFactorization float :=
  snd (pushEtaMatrix (DD := f64) 20
         (snd (setB0 (DD := f64) (fresh64 3) S3_matrix64)) 1 S2_column64).



(** ** Further operations and notions *)

Section MoreOperations.
Context {D : Type} {DD : Double D}.

(** [matrixMultiply], lines 442-455; [result] is a buffer of its own. *)
Definition matrixMultiply (dimension : nat) (left right result : list D) : list D :=
  forUp 0 dimension (fun leftRow result =>
    forUp 0 dimension (fun rightCol result =>
      let sum := forUp 0 dimension (fun i sum =>
                   (sum + get left (leftRow * dimension + i)
                          * get right (i * dimension + rightCol))%D) dzero in
      store result (leftRow * dimension + rightCol) sum) result) result.

(** The accessors, lines 97-115. *)
Definition getU (st : BasisFactorization D) : list D := _U st.
Definition getLP (st : BasisFactorization D) : list (LPElement D) := _LP st.
Definition getB0 (st : BasisFactorization D) : list D := _B0 st.
Definition getEtas (st : BasisFactorization D) : list (EtaMatrix D) := _etas st.

(** The stages of [backwardTransformation], lines 286-344, on the pair of
    buffers [(x, _tempY)], once [y] has been copied into [_tempY]. *)
Definition backwardStages (m : nat) (U : list D) (LP : list (LPElement D))
    (etas : list (EtaMatrix D)) (xt : list D * list D) : list D * list D :=
  let '(x, tempY) := fold_left (backwardEta m) (rev etas) xt in
  let x := match LP with
           | [] => x
           | _ :: _ => backwardU m U tempY x
           end in
  (backwardLP m LP x, tempY).

(** E(k, v) written out: the identity with column k replaced by v. *)
Definition denseEta (m : nat) (eta : EtaMatrix D) : list D :=
  tabulate m (fun r c =>
    if c =? _columnIndex eta then get (_column eta) r
    else if r =? c then done else dzero).

(** The m x m identity. *)
Definition identity (m : nat) : list D :=
  tabulate m (fun r c => if r =? c then done else dzero).

(** The sum the code accumulates for one entry of a product. *)
Definition dotRowCol (m : nat) (A B : list D) (r c : nat) : D :=
  fold_left (fun sum i => (sum + entry m A r i * entry m B i c)%D) (seq 0 m) dzero.

(** The column indices of the etas of an LP list, front to back. *)
Definition lpEtaIndices (LP : list (LPElement D)) : list nat :=
  flat_map (fun e => match e with
                     | LPPair _ _ => nil
                     | LPEta L => cons (_columnIndex L) nil
                     end) LP.

(** What the factorization stores: a pair (i, j) with i < j < m, or an eta
    whose column has m entries and is zero above its own index. *)
Definition lpElementShape (m : nat) (e : LPElement D) : Prop :=
  match e with
  | LPPair first second => first < second < m
  | LPEta L => _columnIndex L < m /\ length (_column L) = m
               /\ forall j, j < _columnIndex L -> get (_column L) j = dzero
  end.
(** What the loop of [factorizeMatrix] has stored after its first [i]
    stages. *)
Definition lpAfter (m i : nat) (st : BasisFactorization D) : Prop :=
  _m st = m /\ length (_U st) = m * m /\ length (_LCol st) = m
  /\ lpEtaIndices (_LP st) = rev (seq 0 i)
  /\ Forall (lpElementShape m) (_LP st)
  /\ length (_LP st) <= 2 * i.

End MoreOperations.

(** A call whose arguments respect the caller's obligations on indices:
    an eta is pushed at a column below the dimension. *)
Definition opInRange {D : Type} (m : nat) (op : Op (D := D)) : bool :=
  match op with
  | OpPushEta k _ => k <? m
  | _ => true
  end.

(** * Properties *)

Unset Implicit Arguments.

(** ** Loops *)

Section LoopFacts.
Context {S : Type}.
Implicit Types (body : nat -> S -> S) (s : S).

Lemma forUp_empty lo hi body s : hi <= lo -> forUp lo hi body s = s.
Proof.
  intros H. unfold forUp. replace (hi - lo) with 0 by lia. reflexivity.
Qed.

Lemma forUp_last lo hi body s :
  lo <= hi -> forUp lo (hi + 1) body s = body hi (forUp lo hi body s).
Proof.
  intros H. unfold forUp.
  replace (hi + 1 - lo) with ((hi - lo) + 1) by lia.
  rewrite seq_app, fold_left_app. simpl.
  replace (lo + (hi - lo)) with hi by lia. reflexivity.
Qed.

Lemma forDown_empty hi lo body s : hi <= lo -> forDown hi lo body s = s.
Proof.
  intros H. unfold forDown. replace (hi - lo) with 0 by lia. reflexivity.
Qed.

Lemma forDown_first hi lo body s :
  lo <= hi -> forDown (hi + 1) lo body s = forDown hi lo body (body hi s).
Proof.
  intros H. unfold forDown.
  replace (hi + 1 - lo) with ((hi - lo) + 1) by lia.
  rewrite seq_app, rev_app_distr. simpl.
  replace (lo + (hi - lo)) with hi by lia. reflexivity.
Qed.

(** The invariant rule of an ascending loop. *)
Lemma forUp_ind (P : nat -> S -> Prop) lo hi body s :
  lo <= hi ->
  P lo s ->
  (forall i t, lo <= i < hi -> P i t -> P (i + 1) (body i t)) ->
  P hi (forUp lo hi body s).
Proof.
  intros Hle H0 Hstep.
  induction hi as [|hi IH].
  - replace lo with 0 in * by lia. exact H0.
  - destruct (Nat.eq_dec lo (Datatypes.S hi)) as [->|Hne].
    + rewrite forUp_empty by lia. exact H0.
    + replace (Datatypes.S hi) with (hi + 1) by lia.
      rewrite forUp_last by lia. apply Hstep; [lia|].
      apply IH; [lia|]. intros i t Hi. apply Hstep. lia.
Qed.

(** The invariant rule of a descending loop: [P i] holds when the rows
    [i .. hi-1] have been visited. *)
Lemma forDown_ind (P : nat -> S -> Prop) hi lo body s :
  lo <= hi ->
  P hi s ->
  (forall i t, lo <= i < hi -> P (i + 1) t -> P i (body i t)) ->
  P lo (forDown hi lo body s).
Proof.
  intros Hle H0 Hstep. revert s H0.
  induction hi as [|hi IH]; intros s H0.
  - replace lo with 0 in * by lia. exact H0.
  - destruct (Nat.eq_dec lo (Datatypes.S hi)) as [->|Hne].
    + rewrite forDown_empty by lia. exact H0.
    + replace (Datatypes.S hi) with (hi + 1) in * by lia.
      rewrite forDown_first by lia.
      apply IH; [lia| |].
      * intros i t Hi. apply Hstep. lia.
      * apply Hstep; [lia|exact H0].
Qed.

(** A property every iteration keeps holds after the loop. *)
Lemma forUp_preserve (P : S -> Prop) lo hi body s :
  P s -> (forall i t, lo <= i < hi -> P t -> P (body i t)) -> P (forUp lo hi body s).
Proof.
  intros H0 Hstep. destruct (Nat.le_gt_cases lo hi) as [Hle|Hgt].
  - apply (forUp_ind (fun _ => P)); assumption.
  - rewrite forUp_empty by lia. exact H0.
Qed.

Lemma forDown_preserve (P : S -> Prop) hi lo body s :
  P s -> (forall i t, lo <= i < hi -> P t -> P (body i t)) -> P (forDown hi lo body s).
Proof.
  intros H0 Hstep. destruct (Nat.le_gt_cases lo hi) as [Hle|Hgt].
  - apply (forDown_ind (fun _ => P)); assumption.
  - rewrite forDown_empty by lia. exact H0.
Qed.

(** Two runs of the same ascending loop, related step by step. *)
Lemma forUp_rel (R : nat -> S -> S -> Prop) lo hi body s s' :
  lo <= hi ->
  R lo s s' ->
  (forall i t t', lo <= i < hi -> R i t t' -> R (i + 1) (body i t) (body i t')) ->
  R hi (forUp lo hi body s) (forUp lo hi body s').
Proof.
  intros Hle H0 Hstep.
  induction hi as [|hi IH].
  - replace lo with 0 in * by lia. exact H0.
  - destruct (Nat.eq_dec lo (Datatypes.S hi)) as [->|Hne].
    + rewrite !forUp_empty by lia. exact H0.
    + replace (Datatypes.S hi) with (hi + 1) by lia.
      rewrite !forUp_last by lia. apply Hstep; [lia|].
      apply IH; [lia|]. intros i t t' Hi. apply Hstep. lia.
Qed.

(** Two runs of the same descending loop, related step by step. *)
Lemma forDown_rel (R : nat -> S -> S -> Prop) hi lo body s s' :
  lo <= hi ->
  R hi s s' ->
  (forall i t t', lo <= i < hi -> R (i + 1) t t' -> R i (body i t) (body i t')) ->
  R lo (forDown hi lo body s) (forDown hi lo body s').
Proof.
  intros Hle H0 Hstep. revert s s' H0.
  induction hi as [|hi IH]; intros s s' H0.
  - replace lo with 0 in * by lia. exact H0.
  - destruct (Nat.eq_dec lo (Datatypes.S hi)) as [->|Hne].
    + rewrite !forDown_empty by lia. exact H0.
    + replace (Datatypes.S hi) with (hi + 1) in * by lia.
      rewrite !forDown_first by lia.
      apply IH; [lia| |].
      * intros i t t' Hi. apply Hstep. lia.
      * apply Hstep; [lia|exact H0].
Qed.

(** A loop only depends on its body inside its range. *)
Lemma forUp_ext lo hi body body' s :
  (forall i t, lo <= i < hi -> body i t = body' i t) ->
  forUp lo hi body s = forUp lo hi body' s.
Proof.
  intros H. unfold forUp.
  assert (Hin : forall i, In i (seq lo (hi - lo)) -> lo <= i < hi)
    by (intros i Hi; apply in_seq in Hi; lia).
  revert s Hin. generalize (seq lo (hi - lo)) as l.
  induction l as [|a l IH]; intros s Hin; simpl; [reflexivity|].
  rewrite H by (apply Hin; left; reflexivity).
  apply IH. intros i Hi. apply Hin. right. exact Hi.
Qed.

Lemma forDown_ext hi lo body body' s :
  (forall i t, lo <= i < hi -> body i t = body' i t) ->
  forDown hi lo body s = forDown hi lo body' s.
Proof.
  intros H. unfold forDown.
  assert (Hin : forall i, In i (rev (seq lo (hi - lo))) -> lo <= i < hi)
    by (intros i Hi; apply in_rev, in_seq in Hi; lia).
  revert s Hin. generalize (rev (seq lo (hi - lo))) as l.
  induction l as [|a l IH]; intros s Hin; simpl; [reflexivity|].
  rewrite H by (apply Hin; left; reflexivity).
  apply IH. intros i Hi. apply Hin. right. exact Hi.
Qed.
End LoopFacts.

(** ** Arrays *)

Ltac bcases :=
  repeat match goal with
  | |- context [?a =? ?b] => destruct (Nat.eqb_spec a b)
  | |- context [?a <? ?b] => destruct (Nat.ltb_spec a b)
  | |- context [?a <=? ?b] => destruct (Nat.leb_spec a b)
  | H : context [?a =? ?b] |- _ => destruct (Nat.eqb_spec a b)
  | H : context [?a <? ?b] |- _ => destruct (Nat.ltb_spec a b)
  end; simpl in *; subst; try lia; try congruence.

Section ArrayFacts.
Context {D : Type} {DD : Double D}.
Implicit Types (a b : list D) (v : D).

Lemma store_length (A : Type) (l : list A) i (x : A) : length (store l i x) = length l.
Proof.
  revert i. induction l as [|y l IH]; intros [|i]; simpl; auto.
Qed.

Lemma get_store a i v j :
  get (store a i v) j = if (i =? j) && (i <? length a) then v else get a j.
Proof.
  unfold get. revert i j. induction a as [|y a IH]; intros [|i] [|j]; simpl; auto;
    try (rewrite andb_false_r; reflexivity); try (rewrite IH; reflexivity).
Qed.

Lemma get_store_same a i v : i < length a -> get (store a i v) i = v.
Proof. intros H. rewrite get_store. bcases. Qed.

Lemma get_store_other a i v j : i <> j -> get (store a i v) j = get a j.
Proof. intros H. rewrite get_store. bcases. Qed.

Lemma get_beyond a i : length a <= i -> get a i = dzero.
Proof. intros H. unfold get. apply nth_overflow. exact H. Qed.

Lemma array_ext a b :
  length a = length b -> (forall i, i < length a -> get a i = get b i) -> a = b.
Proof.
  intros Hl H. apply nth_ext with (d := dzero) (d' := dzero); assumption.
Qed.

Lemma get_map_seq (f : nat -> D) n i : i < n -> get (map f (seq 0 n)) i = f i.
Proof.
  intros H. unfold get.
  rewrite nth_indep with (d' := f 0) by (rewrite length_map, length_seq; exact H).
  rewrite map_nth, seq_nth by exact H. reflexivity.
Qed.

(** Row-major indexing is injective on in-range columns. *)
Lemma index_inj m r c r' c' :
  c < m -> c' < m -> r * m + c = r' * m + c' -> r = r' /\ c = c'.
Proof.
  intros Hc Hc' H.
  assert (r = r').
  { destruct (Nat.lt_trichotomy r r') as [Hlt|[Heq|Hgt]]; [exfalso|exact Heq|exfalso]; nia. }
  subst. lia.
Qed.

Lemma index_bound m r c : r < m -> c < m -> r * m + c < m * m.
Proof. intros. nia. Qed.

Lemma index_split m k : k < m * m -> exists r c, r < m /\ c < m /\ k = r * m + c.
Proof.
  intros H. assert (Hm : m <> 0) by lia.
  exists (k / m), (k mod m). repeat split.
  - apply Nat.Div0.div_lt_upper_bound. lia.
  - apply Nat.mod_upper_bound. exact Hm.
  - rewrite (Nat.div_mod_eq k m) at 1. lia.
Qed.

Lemma entry_store m a r c v r' c' :
  length a = m * m -> r < m -> c < m -> c' < m ->
  entry m (store a (r * m + c) v) r' c'
  = if (r =? r') && (c =? c') then v else entry m a r' c'.
Proof.
  intros Hl Hr Hc Hc'. unfold entry. rewrite get_store.
  pose proof (index_bound m r c Hr Hc).
  destruct (Nat.eqb_spec (r * m + c) (r' * m + c')) as [E|E].
  - apply index_inj in E; [|assumption..]. destruct E; subst. bcases.
  - bcases.
Qed.

(** Matrices of the same size with the same entries are equal. *)
Lemma matrix_ext m a b :
  length a = m * m -> length b = m * m ->
  (forall r c, r < m -> c < m -> entry m a r c = entry m b r c) -> a = b.
Proof.
  intros Ha Hb H. apply array_ext; [congruence|].
  intros k Hk. rewrite Ha in Hk.
  destruct (index_split m k Hk) as (r & c & Hr & Hc & ->). apply H; assumption.
Qed.

Lemma tabulate_length m (f : nat -> nat -> D) : length (tabulate m f) = m * m.
Proof.
  unfold tabulate.
  assert (G : forall rows, length (flat_map (fun r => map (f r) (seq 0 m)) rows)
                           = length rows * m).
  { induction rows as [|r rows IH]; simpl; [reflexivity|].
    rewrite length_app, length_map, length_seq, IH. reflexivity. }
  rewrite G, length_seq. reflexivity.
Qed.

Lemma entry_tabulate m (f : nat -> nat -> D) r c :
  r < m -> c < m -> entry m (tabulate m f) r c = f r c.
Proof.
  intros Hr Hc. unfold entry, tabulate, get.
  assert (G : forall n lo, r < lo + n -> lo <= r ->
            nth ((r - lo) * m + c)
              (flat_map (fun r0 => map (f r0) (seq 0 m)) (seq lo n)) dzero = f r c).
  { induction n as [|n IH]; intros lo H1 H2; [lia|]. simpl.
    destruct (Nat.eq_dec r lo) as [->|Hne].
    - replace (lo - lo) with 0 by lia. simpl.
      rewrite app_nth1 by (rewrite length_map, length_seq; exact Hc).
      apply get_map_seq. exact Hc.
    - rewrite app_nth2 by (rewrite length_map, length_seq; nia).
      rewrite length_map, length_seq.
      replace ((r - lo) * m + c - m) with ((r - Datatypes.S lo) * m + c) by nia.
      apply IH; lia. }
  specialize (G m 0). rewrite Nat.sub_0_r in G. apply G; lia.
Qed.

Lemma memcpy_length dst src n : length (memcpy dst src n) = length dst.
Proof.
  unfold memcpy.
  apply (forUp_ind (fun _ d => length d = length dst)); [lia|reflexivity|].
  intros i t _ Ht. rewrite store_length. exact Ht.
Qed.

Lemma get_memcpy dst src n i :
  get (memcpy dst src n) i
  = if (i <? n) && (i <? length dst) then get src i else get dst i.
Proof.
  unfold memcpy.
  apply (forUp_ind (fun k d => length d = length dst /\
           get d i = if (i <? k) && (i <? length dst) then get src i else get dst i));
    [lia|split; reflexivity|].
  intros k t _ [Hl Ht]. split; [rewrite store_length; exact Hl|].
  rewrite get_store, Ht, Hl. bcases.
Qed.

(** Copying a whole buffer forgets what the destination held. *)
Lemma memcpy_full dst src n :
  length dst = n -> memcpy dst src n = map (get src) (seq 0 n).
Proof.
  intros Hl. apply array_ext.
  - rewrite memcpy_length, length_map, length_seq. exact Hl.
  - intros i Hi. rewrite memcpy_length in Hi.
    rewrite get_memcpy, get_map_seq by lia. bcases.
Qed.

Lemma memcpy_same src n : length src = n -> memcpy src src n = src.
Proof.
  intros Hl. apply array_ext; [apply memcpy_length|].
  intros i _. rewrite get_memcpy. bcases.
Qed.

Lemma memcpy_exact dst src n :
  length dst = n -> length src = n -> memcpy dst src n = src.
Proof.
  intros Hd Hs. apply array_ext; [rewrite memcpy_length; congruence|].
  intros i Hi. rewrite get_memcpy. rewrite memcpy_length in Hi. bcases.
Qed.

Lemma fill_n_length a n v : length (fill_n a n v) = length a.
Proof.
  unfold fill_n.
  apply (forUp_ind (fun _ d => length d = length a)); [lia|reflexivity|].
  intros i t _ Ht. rewrite store_length. exact Ht.
Qed.

Lemma get_fill_n a n v i :
  get (fill_n a n v) i = if (i <? n) && (i <? length a) then v else get a i.
Proof.
  unfold fill_n.
  apply (forUp_ind (fun k d => length d = length a /\
           get d i = if (i <? k) && (i <? length a) then v else get a i));
    [lia|split; reflexivity|].
  intros k t _ [Hl Ht]. split; [rewrite store_length; exact Hl|].
  rewrite get_store, Ht, Hl. bcases.
Qed.

Lemma snapAt_length a i : length (snapAt a i) = length a.
Proof.
  unfold snapAt. destruct (FloatUtils_isZero (get a i)); [apply store_length|reflexivity].
Qed.

Lemma get_snapAt_other a i j : i <> j -> get (snapAt a i) j = get a j.
Proof.
  intros H. unfold snapAt.
  destruct (FloatUtils_isZero (get a i)); [apply get_store_other; exact H|reflexivity].
Qed.

Lemma get_snapAt_same a i : i < length a -> get (snapAt a i) i = snap (get a i).
Proof.
  intros H. unfold snapAt, snap.
  destruct (FloatUtils_isZero (get a i)); [apply get_store_same; exact H|reflexivity].
Qed.
End ArrayFacts.

(** ** Scenarios on binary64 *)

Section Scenarios.

(** Scenario S1: on a fresh engine both transformations copy [y]. *)
Example S1_identity_short_circuit :
  snd (forwardTransformation (DD := f64) (fresh64 3) [1; 2; 3]%float [0; 0; 0]%float)
    = [1; 2; 3]%float
  /\ snd (backwardTransformation (DD := f64) (fresh64 3) [1; 2; 3]%float [0; 0; 0]%float)
    = [1; 2; 3]%float.
Proof. vm_compute. split; reflexivity. Qed.

(** Scenario S4: a matrix that needs pivoting factorizes, with the single
    permutation pair (0, 1) in the LP list. *)
Example S4_pivoting_required :
  let r := setB0 (DD := f64) (fresh64 3) [0; 1; 0;  1; 0; 0;  0; 0; 1]%float in
  fst r = Returned
  /\ filter (fun e => match e with LPPair _ _ => true | LPEta _ => false end) (_LP (snd r))
     = (LPPair 0 1 :: nil).
Proof. vm_compute. split; reflexivity. Qed.

(** Scenario S5: a matrix with a zero first column has no pivot. *)
Example S5_no_pivot :
  fst (setB0 (DD := f64) (fresh64 2) S5_matrix64) = Thrown NO_AVAILABLE_CANDIDATES.
Proof. reflexivity. Qed.

(** C5 (scenario S2).  On a fresh engine of dimension 3, whatever the
    refactorization threshold and whatever the uninitialised buffers and
    the output buffer hold, after [pushEtaMatrix(1, [1, 2, 0])] the
    implicit basis is [[1,1,0],[0,2,0],[0,0,1]], the forward
    transformation of [1, 4, 5] is exactly [-1, 2, 5] and the backward
    transformation is exactly [1, 1.5, 5]. *)
Theorem C5_single_column_update :
  forall (T : nat) (hU hT hL : nat -> float) (x0 x1 x2 : float),
    let fresh := BasisFactorization_new (DD := f64) 3 hU hT hL in
    let r := pushEtaMatrix (DD := f64) T fresh 1 S2_column64 in
    fst r = Returned /\
    implicitBasis (DD := f64) (snd r) = [1; 1; 0;  0; 2; 0;  0; 0; 1]%float /\
    snd (forwardTransformation (DD := f64) (snd r) S2_rhs64 [x0; x1; x2])
      = [-1; 2; 5]%float /\
    snd (backwardTransformation (DD := f64) (snd r) S2_rhs64 [x0; x1; x2])
      = [1; 1.5; 5]%float.
Proof.
  intros T hU hT hL x0 x1 x2. destruct T as [|T].
  - vm_compute. repeat split.
  - vm_compute. repeat split.
Qed.
(** C3 (scenario S3), as the code runs it.  On a fresh engine of dimension
    3, [setB0] with [[2,4,-2],[4,9,-3],[-2,-3,7]] returns; the LP list
    applied to that matrix reproduces the stored U, whose diagonal is
    exactly 1; and the forward transformation of [2, 8, 10] is within the
    tolerance of [-1, 2, 2], the solution of B0 x = [2, 8, 10].  In exact
    arithmetic the result is [-1, 2, 2] itself. *)
Theorem C3_known_matrix :
  forall (hU hT hL : nat -> float) (x0 x1 x2 : float),
    let fresh := BasisFactorization_new (DD := f64) 3 hU hT hL in
    let r := setB0 (DD := f64) fresh S3_matrix64 in
    fst r = Returned /\
    applyLP (DD := f64) 3 (_LP (snd r)) S3_matrix64 = _U (snd r) /\
    map (fun i => entry (DD := f64) 3 (_U (snd r)) i i) [0; 1; 2] = [1; 1; 1]%float /\
    within64 (snd (forwardTransformation (DD := f64) (snd r) S3_rhs64 [x0; x1; x2]))
             [-1; 2; 2]%float = true /\
    map this (snd (forwardTransformation (DD := xQ)
                     (snd (setB0 (DD := xQ) (freshQ 3) S3_matrixQ)) S3_rhsQ (repeat 0%Qc 3)))
      = [-1 # 1; 2 # 1; 2 # 1]%Q.
Proof.
  intros hU hT hL x0 x1 x2. vm_compute. repeat split.
Qed.

(** C3, as stated: the forward transformation of [2, 8, 10] is not within
    the tolerance of [-1, 3, 2]. *)
Lemma C3_counterexample :
  let r := setB0 (DD := f64) (fresh64 3) S3_matrix64 in
  fst r = Returned /\
  within64 (snd (forwardTransformation (DD := f64) (snd r) S3_rhs64 [0; 0; 0]%float))
           [-1; 3; 2]%float = false /\
  map this (snd (forwardTransformation (DD := xQ)
                   (snd (setB0 (DD := xQ) (freshQ 3) S3_matrixQ)) S3_rhsQ (repeat 0%Qc 3)))
    <> [-1 # 1; 3 # 1; 2 # 1]%Q.
Proof.
  vm_compute. repeat split. discriminate.
Qed.
End Scenarios.

(** ** What the operations leave alone *)

Section Frames.
Context {D : Type} {DD : Double D}.
Implicit Types (st : BasisFactorization D).

Lemma keeps_refl st : keeps st st.
Proof. repeat split. Qed.

Lemma keeps_trans st1 st2 st3 : keeps st1 st2 -> keeps st2 st3 -> keeps st1 st3.
Proof.
  unfold keeps. intros (A1 & A2 & A3 & A4 & A5) (B1 & B2 & B3 & B4 & B5).
  repeat split; congruence.
Qed.

Lemma factorizeStage_outcome i st r st' :
  factorizeStage i st = (r, st') ->
  (r = Thrown NO_AVAILABLE_CANDIDATES /\ st' = st
   /\ FloatUtils_isZero (fst (findPivot (_m st) (_U st) i)) = true)
  \/ (r = Returned /\ FloatUtils_isZero (fst (findPivot (_m st) (_U st) i)) = false).
Proof.
  unfold factorizeStage.
  destruct (findPivot (_m st) (_U st) i) as [largest best]. simpl.
  destruct (FloatUtils_isZero largest); intros [= <- <-]; [left|right]; auto.
Qed.

Lemma factorizeStage_keeps i st r st' :
  factorizeStage i st = (r, st') -> keeps st st'.
Proof.
  unfold factorizeStage.
  destruct (findPivot (_m st) (_U st) i) as [largest best].
  destruct (FloatUtils_isZero largest); intros [= <- <-]; [apply keeps_refl|].
  destruct (best =? i); repeat split.
Qed.

Lemma factorizeLoop_keeps n : forall i st r st',
  factorizeLoop n i st = (r, st') -> keeps st st'.
Proof.
  induction n as [|n IH]; intros i st r st'; simpl.
  - intros [= <- <-]. apply keeps_refl.
  - destruct (factorizeStage i st) as [[|e] st1] eqn:E.
    + intros H. eapply keeps_trans; [eapply factorizeStage_keeps; eassumption|].
      eapply IH; eassumption.
    + intros [= <- <-]. eapply factorizeStage_keeps; eassumption.
Qed.

(** The only error [factorizeMatrix] raises is NoPivot. *)
Lemma factorizeLoop_error n : forall i st e st',
  factorizeLoop n i st = (Thrown e, st') -> e = NO_AVAILABLE_CANDIDATES.
Proof.
  induction n as [|n IH]; intros i st e st'; simpl; [discriminate|].
  destruct (factorizeStage i st) as [[|e1] st1] eqn:E.
  - apply IH.
  - intros [= <- <-].
    destruct (factorizeStage_outcome _ _ _ _ E) as [(H & _)|(H & _)]; congruence.
Qed.

Lemma factorizeMatrix_keeps st matrix r st' :
  factorizeMatrix st matrix = (r, st') -> keeps st st'.
Proof.
  unfold factorizeMatrix. intros H. apply factorizeLoop_keeps in H.
  destruct H as (H1 & H2 & H3 & H4 & H5). repeat split; assumption.
Qed.

Lemma factorizeMatrix_error st matrix e st' :
  factorizeMatrix st matrix = (Thrown e, st') -> e = NO_AVAILABLE_CANDIDATES.
Proof. unfold factorizeMatrix. apply factorizeLoop_error. Qed.

Lemma forwardTransformation_frame st y x :
  let st' := fst (forwardTransformation st y x) in
  _m st' = _m st /\ _B0 st' = _B0 st /\ _U st' = _U st /\ _LP st' = _LP st
  /\ _etas st' = _etas st /\ _factorizationEnabled st' = _factorizationEnabled st
  /\ _LCol st' = _LCol st.
Proof.
  unfold forwardTransformation.
  destruct (_etas st) eqn:E1; destruct (_LP st) eqn:E2; simpl;
    repeat match goal with
    | |- context [let '(_, _) := ?p in _] => destruct p
    end; simpl; rewrite ?E1, ?E2; repeat split.
Qed.

Lemma backwardTransformation_frame st y x :
  let st' := fst (backwardTransformation st y x) in
  _m st' = _m st /\ _B0 st' = _B0 st /\ _U st' = _U st /\ _LP st' = _LP st
  /\ _etas st' = _etas st /\ _factorizationEnabled st' = _factorizationEnabled st
  /\ _LCol st' = _LCol st.
Proof.
  unfold backwardTransformation.
  destruct (_etas st) eqn:E1; destruct (_LP st) eqn:E2; simpl;
    repeat match goal with
    | |- context [let '(_, _) := ?p in _] => destruct p
    end; simpl; rewrite ?E1, ?E2; repeat split.
Qed.

Lemma invertB0_state st result : snd (fst (invertB0 st result)) = st.
Proof.
  unfold invertB0. destruct (_etas st); [destruct (_LP st)|]; reflexivity.
Qed.
End Frames.

(** ** The eta stack and the refactorization trigger *)

Section PushEta.
Context {D : Type} {DD : Double D}.
Variable T : nat.
Implicit Types (st : BasisFactorization D).

Lemma condenseEtas_etas st : _etas (condenseEtas st) = [].
Proof. reflexivity. Qed.

Lemma condenseEtas_LP st : _LP (condenseEtas st) = [].
Proof. reflexivity. Qed.

(** C6.  [pushEtaMatrix(k, v)] appends E(k, v) at the tail of the eta
    stack.  When factorization is disabled, or the new size does not exceed
    the threshold, nothing else happens: B0, U and the LP list are not
    touched.  When the new size exceeds the threshold and factorization is
    enabled, the engine runs [condenseEtas] and then [factorizeMatrix] on
    the condensed B0. *)
Theorem C6_pushEtaMatrix_trigger st k v :
  let E := EtaMatrix_new (_m st) k v in
  let appended := with_etas st (_etas st ++ [E]) in
  (_columnIndex E = k /\ forall j, j < _m st -> get (_column E) j = get v j) /\
  (_factorizationEnabled st = false ->
     pushEtaMatrix T st k v = (Returned, appended)) /\
  (length (_etas st) + 1 <= T ->
     pushEtaMatrix T st k v = (Returned, appended)) /\
  (_factorizationEnabled st = true -> T < length (_etas st) + 1 ->
     pushEtaMatrix T st k v
     = factorizeMatrix (condenseEtas appended) (_B0 (condenseEtas appended))).
Proof.
  intros E appended. split; [|repeat split].
  - split; [reflexivity|]. intros j Hj. apply get_map_seq. exact Hj.
  - intros Hoff. unfold pushEtaMatrix. fold E. simpl. fold appended.
    rewrite Hoff, andb_false_r. reflexivity.
  - intros Hle. unfold pushEtaMatrix. fold E. simpl. fold appended.
    rewrite length_app. simpl.
    destruct (Nat.ltb_spec T (length (_etas st) + 1)); [lia|reflexivity].
  - intros Hon Hgt. unfold pushEtaMatrix. fold E. simpl. fold appended.
    rewrite length_app, Hon. simpl.
    destruct (Nat.ltb_spec T (length (_etas st) + 1)); [reflexivity|lia].
Qed.

Lemma pushEtaMatrix_etas_bound st k v :
  _factorizationEnabled st = true ->
  length (_etas (snd (pushEtaMatrix T st k v))) <= T.
Proof.
  intros Hon. unfold pushEtaMatrix. simpl. rewrite Hon, andb_true_r, length_app. simpl.
  destruct (Nat.ltb_spec T (length (_etas st) + 1)) as [Hlt|Hge].
  - destruct (factorizeMatrix _ _) as [r st'] eqn:E.
    apply factorizeMatrix_keeps in E. destruct E as (_ & _ & E & _).
    simpl in *. rewrite E. simpl. lia.
  - simpl. rewrite length_app. simpl. lia.
Qed.

Lemma pushEtaMatrix_enabled st k v :
  _factorizationEnabled (snd (pushEtaMatrix T st k v)) = _factorizationEnabled st.
Proof.
  unfold pushEtaMatrix. simpl.
  destruct (_ && _); [|reflexivity].
  destruct (factorizeMatrix _ _) as [r st'] eqn:E.
  apply factorizeMatrix_keeps in E. destruct E as (_ & _ & _ & E & _). exact E.
Qed.

Lemma setB0_keeps st M :
  let st' := snd (setB0 st M) in
  _etas st' = _etas st /\ _factorizationEnabled st' = _factorizationEnabled st
  /\ _m st' = _m st /\ _B0 st' = memcpy (_B0 st) M (_m st * _m st).
Proof.
  unfold setB0. destruct (factorizeMatrix _ _) as [r st'] eqn:E.
  apply factorizeMatrix_keeps in E. destruct E as (E1 & E2 & E3 & E4 & _).
  simpl in *. repeat split; assumption.
Qed.

Lemma pushEtaMatrix_etas st k v :
  _factorizationEnabled st = true ->
  _etas (snd (pushEtaMatrix T st k v))
  = if T <? length (_etas st) + 1 then []
    else _etas st ++ [EtaMatrix_new (_m st) k v].
Proof.
  intros Hon. unfold pushEtaMatrix. simpl. rewrite Hon, andb_true_r, length_app. simpl.
  destruct (Nat.ltb_spec T (length (_etas st) + 1)) as [Hlt|Hge]; [|reflexivity].
  destruct (factorizeMatrix _ _) as [r st'] eqn:E.
  apply factorizeMatrix_keeps in E. destruct E as (_ & _ & E & _). exact E.
Qed.

Lemma withinThreshold_iff st :
  withinThreshold T st = true
  <-> (_factorizationEnabled st = true -> length (_etas st) <= T).
Proof.
  unfold withinThreshold. destruct (_factorizationEnabled st); simpl.
  - rewrite Nat.leb_le. split; auto.
  - split; [discriminate|reflexivity].
Qed.

(** Every call but the one that switches factorization on keeps the stack
    within the threshold; that one keeps the stack as it is. *)
Lemma runOp_withinThreshold st op :
  withinThreshold T st = true ->
  match op with
  | OpToggle true => length (_etas st) <= T
  | _ => True
  end ->
  withinThreshold T (runOp T st op) = true.
Proof.
  intros Hin Hop. rewrite withinThreshold_iff in Hin. apply withinThreshold_iff.
  destruct op as [k v|M| |y x|y x|result|other|other|value]; cbn [runOp].
  - rewrite pushEtaMatrix_enabled. intros Hon. apply pushEtaMatrix_etas_bound. exact Hon.
  - destruct (setB0_keeps st M) as (E1 & E2 & _). rewrite E1, E2. exact Hin.
  - intros _. cbn. lia.
  - destruct (forwardTransformation_frame st y x) as (_ & _ & _ & _ & E1 & E2 & _).
    rewrite E1, E2. exact Hin.
  - destruct (backwardTransformation_frame st y x) as (_ & _ & _ & _ & E1 & E2 & _).
    rewrite E1, E2. exact Hin.
  - rewrite invertB0_state. exact Hin.
  - intros _. unfold storeFactorization.
    destruct (factorizeMatrix _ _) as [r st'] eqn:E.
    apply factorizeMatrix_keeps in E. destruct E as (_ & _ & E1 & _).
    simpl in E1.
    destruct r; [destruct (setB0 other (_B0 st'))|]; simpl; rewrite E1; simpl; lia.
  - intros _. unfold restoreFactorization.
    match goal with |- context [setB0 ?s ?M] => destruct (setB0_keeps s M) as (E1 & _) end.
    rewrite E1. simpl. lia.
  - destruct value; cbn; [intros _; exact Hop|discriminate].
Qed.

(** C10, as the code has it.  On an engine with factorization enabled,
    [pushEtaMatrix] leaves either the old stack with the new eta at its
    tail, when that is within REFACTORIZATION_THRESHOLD, or an empty stack;
    so the stack holds at most REFACTORIZATION_THRESHOLD etas when it ends,
    whatever it held before.  [toggleFactorization] does not touch the
    stack.  Hence, along any sequence of calls, an enabled engine holds at
    most REFACTORIZATION_THRESHOLD etas provided factorization is never
    switched on while the stack is longer than that. *)
Theorem C10_eta_stack_bounded st :
  (_factorizationEnabled st = true ->
   forall k v,
     let st' := snd (pushEtaMatrix T st k v) in
     _etas st' = (if T <? length (_etas st) + 1 then []
                  else _etas st ++ [EtaMatrix_new (_m st) k v])
     /\ length (_etas st') <= T
     /\ _factorizationEnabled st' = true) /\
  (forall value, _etas (toggleFactorization st value) = _etas st) /\
  (withinThreshold T st = true ->
   forall ops, enablesWithinThreshold T st ops = true ->
     withinThreshold T (runOps T st ops) = true).
Proof.
  split; [|split].
  - intros Hon k v. cbv zeta. split; [apply pushEtaMatrix_etas; exact Hon|].
    split; [apply pushEtaMatrix_etas_bound; exact Hon|].
    rewrite pushEtaMatrix_enabled. exact Hon.
  - intros value. reflexivity.
  - intros Hin ops. revert st Hin.
    induction ops as [|op ops IH]; intros st Hin Hops; [exact Hin|].
    cbn [enablesWithinThreshold] in Hops. apply andb_true_iff in Hops.
    destruct Hops as [Hop Hops]. cbn [runOps fold_left].
    apply IH; [|exact Hops].
    apply runOp_withinThreshold; [exact Hin|].
    destruct op as [k v|M| |y x|y x|result|other|other|value]; try exact I.
    destruct value; [apply Nat.leb_le; exact Hop|exact I].
Qed.
End PushEta.

(** With factorization disabled the eta is only appended; with a stack
    that exceeds a threshold of 0 the engine condenses and refactorizes. *)
Lemma C6_witness :
  pushEtaMatrix (DD := f64) 20 disabled64 0 [2; 0]%float
    = (Returned, with_etas disabled64 [EtaMatrix_new (DD := f64) 2 0 [2; 0]%float])
  /\ pushEtaMatrix (DD := f64) 20 (fresh64 2) 0 [2; 0]%float
    = (Returned, with_etas (fresh64 2) [EtaMatrix_new (DD := f64) 2 0 [2; 0]%float])
  /\ _etas (snd (pushEtaMatrix (DD := f64) 0 (fresh64 2) 0 [2; 0]%float)) = [].
Proof.
  pose proof (C6_pushEtaMatrix_trigger (DD := f64) 20 disabled64 0 [2; 0]%float) as H1.
  pose proof (C6_pushEtaMatrix_trigger (DD := f64) 20 (fresh64 2) 0 [2; 0]%float) as H2.
  pose proof (C6_pushEtaMatrix_trigger (DD := f64) 0 (fresh64 2) 0 [2; 0]%float) as H3.
  destruct H1 as (_ & H1 & _). destruct H2 as (_ & _ & H2 & _). destruct H3 as (_ & _ & _ & H3).
  split; [|split].
  - apply H1. reflexivity.
  - apply H2. simpl. lia.
  - rewrite H3; [reflexivity|reflexivity|simpl; lia].
Defined.

(** The bound is a matter of the flag having been set while the stack
    grew: etas pushed while factorization was disabled stay on the stack
    when it is enabled again, until the next push. *)
Remark enabling_keeps_the_stack :
  let st := toggleFactorization
              (snd (pushEtaMatrix (DD := f64) 0 disabled64 0 [2; 0]%float)) true in
  factorizationEnabled st = true /\ length (_etas st) = 1
  /\ length (_etas (snd (pushEtaMatrix (DD := f64) 0 st 1 [0; 3]%float))) = 0.
Proof. vm_compute. repeat split. Qed.

Lemma C10_witness :
  _etas (snd (pushEtaMatrix (DD := f64) 1 oneEta64 1 [0; 3]%float)) = []
  /\ withinThreshold 1
       (runOps (DD := f64) 1 oneEta64
          [OpToggle false; OpPushEta 1 [0; 3]%float; OpPushEta 0 [5; 0]%float;
           OpCondense; OpToggle true; OpForward [1; 1]%float [0; 0]%float]) = true.
Proof.
  split.
  - apply (proj1 (proj1 (C10_eta_stack_bounded (DD := f64) 1 oneEta64) eq_refl
                    1 [0; 3]%float)).
  - apply (proj2 (proj2 (C10_eta_stack_bounded (DD := f64) 1 oneEta64)) eq_refl).
    vm_compute. reflexivity.
Defined.

(** C10, as stated: etas pushed while factorization was disabled stay on
    the stack when it is switched on again.  With a threshold of 1, the
    engine below is enabled and holds three etas, after the toggle and
    after the solves that follow it. *)
Lemma C10_counterexample :
  let st := runOps (DD := f64) 1 (fresh64 2)
              [OpToggle false; OpPushEta 0 [2; 0]%float; OpPushEta 1 [1; 3]%float;
               OpPushEta 0 [4; 0]%float; OpToggle true] in
  factorizationEnabled st = true
  /\ length (_etas st) = 3
  /\ length (_etas (runOps (DD := f64) 1 st
                      [OpForward [1; 1]%float [0; 0]%float;
                       OpBackward [1; 1]%float [0; 0]%float;
                       OpInvertB0 [0; 0; 0; 0]%float])) = 3
  /\ withinThreshold 1 st = false.
Proof. vm_compute. repeat split. Qed.

(** ** Inverting B0 *)

Section InvertB0.
Context {D : Type} {DD : Double D}.
Implicit Types (st : BasisFactorization D).

(** A loop that writes [f c] into every column [c] of row [i]. *)
Lemma row_write m i (f : nat -> D) res :
  length res = m * m -> i < m ->
  let res' := forUp 0 m (fun j r => store r (i * m + j) (f j)) res in
  length res' = m * m /\
  forall r c, r < m -> c < m ->
    entry m res' r c = if r =? i then f c else entry m res r c.
Proof.
  intros Hl Hi. simpl.
  assert (G : length (forUp 0 m (fun j r => store r (i * m + j) (f j)) res) = m * m /\
              forall r c, r < m -> c < m ->
                entry m (forUp 0 m (fun j r => store r (i * m + j) (f j)) res) r c
                = if (r =? i) && (c <? m) then f c else entry m res r c).
  { apply (forUp_ind (fun k t => length t = m * m /\
             forall r c, r < m -> c < m ->
               entry m t r c = if (r =? i) && (c <? k) then f c else entry m res r c));
      [lia| |].
    - split; [exact Hl|]. intros r c _ _. rewrite andb_false_r. reflexivity.
    - intros k t Hk [Hlt Ht]. split; [rewrite store_length; exact Hlt|].
      intros r c Hr Hc. rewrite entry_store by (try assumption; lia).
      rewrite Ht by assumption. bcases. }
  destruct G as [G1 G2]. split; [exact G1|].
  intros r c Hr Hc. rewrite G2 by assumption. bcases.
Qed.

(** The initialisation of [result] in [invertB0] writes the identity. *)
Lemma invertB0_init m result :
  length result = m * m ->
  forUp 0 m (fun i result =>
    forUp 0 m (fun j result =>
      store result (i * m + j) (if i =? j then done else dzero)) result) result
  = tabulate m (fun i j => if i =? j then done else dzero).
Proof.
  intros Hl.
  assert (G : length (forUp 0 m (fun i result =>
                forUp 0 m (fun j result =>
                  store result (i * m + j) (if i =? j then done else dzero)) result) result)
              = m * m /\
              forall r c, r < m -> c < m ->
                entry m (forUp 0 m (fun i result =>
                  forUp 0 m (fun j result =>
                    store result (i * m + j) (if i =? j then done else dzero)) result) result) r c
                = if r <? m then (if r =? c then done else dzero) else entry m result r c).
  { apply (forUp_ind (fun k t => length t = m * m /\
             forall r c, r < m -> c < m ->
               entry m t r c
               = if r <? k then (if r =? c then done else dzero) else entry m result r c));
      [lia| |].
    - split; [exact Hl|]. intros r c _ _. reflexivity.
    - intros k t Hk [Hlt Ht].
      destruct (row_write m k (fun j => if k =? j then done else dzero) t Hlt) as [R1 R2];
        [lia|].
      split; [exact R1|]. intros r c Hr Hc.
      rewrite R2, Ht by assumption. bcases. }
  destruct G as [G1 G2].
  apply (matrix_ext m); [exact G1|apply tabulate_length|].
  intros r c Hr Hc. rewrite G2, entry_tabulate by assumption. bcases.
Qed.

Lemma invertB0_thrown st result e :
  fst (fst (invertB0 st result)) = Thrown e ->
  e = CANT_INVERT_BASIS_BECAUSE_OF_ETAS /\ invertB0 st result = (Thrown e, st, result).
Proof.
  unfold invertB0. destruct (_etas st) as [|e0 es].
  - destruct (_LP st); discriminate.
  - simpl. intros [= <-]. auto.
Qed.

(** C8.  [invertB0] throws EtasPresent exactly when the eta stack is not
    empty, and raises no other error.  With both the eta stack and the LP
    list empty it returns with the m x m identity in [result], whatever U
    holds: U is not read. *)
Theorem C8_invertB0_guard st result :
  ((exists st' result',
      invertB0 st result = (Thrown CANT_INVERT_BASIS_BECAUSE_OF_ETAS, st', result'))
   <-> _etas st <> []) /\
  (forall e, fst (fst (invertB0 st result)) = Thrown e ->
     e = CANT_INVERT_BASIS_BECAUSE_OF_ETAS /\ invertB0 st result = (Thrown e, st, result)) /\
  (_etas st = [] -> _LP st = [] -> length result = _m st * _m st ->
   forall U',
     invertB0 (with_U st U') result
     = (Returned, with_U st U',
        tabulate (_m st) (fun i j => if i =? j then done else dzero))).
Proof.
  split; [|split].
  - unfold invertB0. destruct (_etas st) as [|e es].
    + split; [|congruence]. intros (st' & r' & H).
      destruct (_LP st); discriminate.
    + split; [discriminate|]. intros _. eauto.
  - intros e. apply invertB0_thrown.
  - intros He Hlp Hl U'. unfold invertB0. simpl. rewrite He, Hlp.
    rewrite invertB0_init by exact Hl. reflexivity.
Qed.
End InvertB0.

Lemma C8_witness :
  invertB0 (DD := f64) (with_U (fresh64 2) [5; 6; 7; 8]%float) [9; 9; 9; 9]%float
  = (Returned, with_U (fresh64 2) [5; 6; 7; 8]%float, [1; 0; 0; 1]%float).
Proof.
  apply (proj2 (proj2 (C8_invertB0_guard (DD := f64) (fresh64 2) [9; 9; 9; 9]%float))
           eq_refl eq_refl eq_refl [5; 6; 7; 8]%float).
Defined.

(** ** Failing calls *)

Section FailingCalls.
Context {D : Type} {DD : Double D}.
Variable T : nat.
Implicit Types (st other : BasisFactorization D).

(** A loop that throws has completed some stages and stopped at the next,
    leaving the state those stages reached. *)
Lemma factorizeLoop_stopped n : forall i st e st',
  factorizeLoop n i st = (Thrown e, st') ->
  exists k, k < n /\ factorizeLoop k i st = (Returned, st')
    /\ FloatUtils_isZero (fst (findPivot (_m st) (_U st') (i + k))) = true.
Proof.
  induction n as [|n IH]; intros i st e st'; cbn [factorizeLoop]; [discriminate|].
  destruct (factorizeStage i st) as [[|e1] st1] eqn:E.
  - intros Hrun. destruct (IH (S i) st1 e st' Hrun) as (k & Hk & Hk1 & Hk2).
    exists (S k). split; [lia|]. cbn [factorizeLoop]. rewrite E. split; [exact Hk1|].
    apply factorizeStage_keeps in E. destruct E as (E & _). rewrite E in Hk2.
    replace (i + S k) with (S i + k) by lia. exact Hk2.
  - intros [= <- <-].
    destruct (factorizeStage_outcome i st _ _ E) as [(_ & -> & Hz)|(Hr & _)];
      [|discriminate].
    exists 0. split; [lia|]. split; [reflexivity|]. rewrite Nat.add_0_r. exact Hz.
Qed.

Lemma factorizeMatrix_stopped st M e st' :
  factorizeMatrix st M = (Thrown e, st') ->
  e = NO_AVAILABLE_CANDIDATES /\ stoppedAtStage (factorizeInit st M) st'.
Proof.
  intros H. split; [eapply factorizeMatrix_error; exact H|].
  unfold factorizeMatrix in H. fold (factorizeInit st M) in H.
  destruct (factorizeLoop_stopped _ _ _ _ _ H) as (k & Hk & Hk1 & Hk2).
  exists k. split; [exact Hk|]. split; [exact Hk1|exact Hk2].
Qed.

Lemma factorizeMatrixAt_thrown st p e st' :
  factorizeMatrixAt st p = (Thrown e, st') ->
  let init := factorizeInit st (deref (clearLPU st) p) in
  e = NO_AVAILABLE_CANDIDATES /\ _B0 st' = _B0 st /\ _etas st' = _etas st
  /\ _LP init = []
  /\ _U init = memcpy (fill_n (_U st) (_m st * _m st) dzero)
                 (deref (clearLPU st) p) (_m st * _m st)
  /\ stoppedAtStage init st'.
Proof.
  intros H. cbv zeta. unfold factorizeMatrixAt in H.
  destruct (factorizeMatrix_stopped _ _ _ _ H) as [-> Hs].
  apply factorizeMatrix_keeps in H. destruct H as (_ & H1 & H2 & _).
  split; [reflexivity|]. split; [exact H1|]. split; [exact H2|].
  split; [reflexivity|]. split; [reflexivity|exact Hs].
Qed.

Lemma setB0_thrown st M e st' :
  setB0 st M = (Thrown e, st') ->
  let B0' := memcpy (_B0 st) M (_m st * _m st) in
  e = NO_AVAILABLE_CANDIDATES /\ _B0 st' = B0' /\ _etas st' = _etas st
  /\ stoppedAtStage (factorizeInit (with_B0 st B0') B0') st'.
Proof.
  intros H. cbv zeta.
  change (setB0 st M)
    with (factorizeMatrix (with_B0 st (memcpy (_B0 st) M (_m st * _m st)))
            (memcpy (_B0 st) M (_m st * _m st))) in H.
  destruct (factorizeMatrix_stopped _ _ _ _ H) as [-> Hs].
  apply factorizeMatrix_keeps in H. destruct H as (_ & H1 & H2 & _).
  split; [reflexivity|]. split; [exact H1|]. split; [exact H2|exact Hs].
Qed.

Lemma pushEtaMatrix_thrown st k v e st' :
  pushEtaMatrix T st k v = (Thrown e, st') ->
  let condensed :=
    condenseEtas (with_etas st (_etas st ++ [EtaMatrix_new (_m st) k v])) in
  e = NO_AVAILABLE_CANDIDATES
  /\ _factorizationEnabled st = true /\ T < length (_etas st) + 1
  /\ _B0 st' = _B0 condensed /\ _etas st' = []
  /\ stoppedAtStage (factorizeInit condensed (_B0 condensed)) st'.
Proof.
  intros H. cbv zeta.
  set (appended := with_etas st (_etas st ++ [EtaMatrix_new (_m st) k v])).
  assert (Hcases : pushEtaMatrix T st k v
                   = if (T <? length (_etas st) + 1) && _factorizationEnabled st
                     then factorizeMatrix (condenseEtas appended) (_B0 (condenseEtas appended))
                     else (Returned, appended)).
  { unfold pushEtaMatrix. cbn [with_etas _etas _factorizationEnabled].
    rewrite length_app. reflexivity. }
  rewrite Hcases in H. clear Hcases.
  destruct (Nat.ltb_spec T (length (_etas st) + 1)) as [Hlt|Hge];
    [|discriminate H].
  destruct (_factorizationEnabled st) eqn:Hon; [|discriminate H].
  cbn [andb] in H.
  destruct (factorizeMatrix_stopped _ _ _ _ H) as [-> Hs].
  apply factorizeMatrix_keeps in H. destruct H as (_ & H1 & H2 & _).
  split; [reflexivity|]. split; [reflexivity|]. split; [exact Hlt|].
  split; [exact H1|]. split; [exact H2|exact Hs].
Qed.

Lemma storeFactorization_thrown st other e st' other' :
  storeFactorization st other = (Thrown e, st', other') ->
  let condensed := condenseEtas st in
  e = NO_AVAILABLE_CANDIDATES /\ _B0 st' = _B0 condensed /\ _etas st' = []
  /\ ((other' = other
       /\ stoppedAtStage (factorizeInit condensed (_B0 condensed)) st')
      \/ (factorizeMatrix condensed (_B0 condensed) = (Returned, st')
          /\ setB0 other (_B0 st') = (Thrown e, other'))).
Proof.
  intros H. cbv zeta. unfold storeFactorization in H.
  destruct (factorizeMatrix (condenseEtas st) (_B0 (condenseEtas st)))
    as [[|e1] s1] eqn:F.
  - destruct (setB0 other (_B0 s1)) as [r2 o2] eqn:S.
    injection H as -> -> ->.
    destruct (setB0_thrown _ _ _ _ S) as (S' & _).
    pose proof F as K. apply factorizeMatrix_keeps in K. destruct K as (_ & K1 & K2 & _).
    split; [exact S'|]. split; [exact K1|]. split; [exact K2|].
    right. split; [reflexivity|exact S].
  - injection H as <- <- <-.
    destruct (factorizeMatrix_stopped _ _ _ _ F) as [-> Hs].
    apply factorizeMatrix_keeps in F. destruct F as (_ & K1 & K2 & _).
    split; [reflexivity|]. split; [exact K1|]. split; [exact K2|].
    left. split; [reflexivity|exact Hs].
Qed.

Lemma restoreFactorization_thrown st other e st' :
  restoreFactorization st other = (Thrown e, st') ->
  let B0' := memcpy (_B0 st) (_B0 other) (_m st * _m st) in
  e = NO_AVAILABLE_CANDIDATES /\ _B0 st' = B0' /\ _etas st' = []
  /\ stoppedAtStage (factorizeInit (with_B0 (clearLPU (with_etas st [])) B0') B0') st'.
Proof.
  intros H. cbv zeta.
  change (restoreFactorization st other)
    with (factorizeMatrix
            (with_B0 (clearLPU (with_etas st []))
               (memcpy (_B0 st) (_B0 other) (_m st * _m st)))
            (memcpy (_B0 st) (_B0 other) (_m st * _m st))) in H.
  destruct (factorizeMatrix_stopped _ _ _ _ H) as [-> Hs].
  apply factorizeMatrix_keeps in H. destruct H as (_ & H1 & H2 & _).
  split; [reflexivity|]. split; [exact H1|]. split; [exact H2|exact Hs].
Qed.

(** C2, as the code has it.  A throwing [invertB0] has written nothing:
    the engine and the caller's buffer are as before.  Every other failure
    is NoPivot, raised by [factorizeMatrix], and nothing is rolled back.
    The previous LP list and U are gone: the engine holds the LP list and
    the U of the stages that completed before the failing one, started
    from an empty list and a copy of the matrix.  A throwing [setB0] has
    overwritten B0 with its argument first; a throwing [pushEtaMatrix] or
    [storeFactorization] has folded the eta stack into B0 and emptied it; a
    throwing [restoreFactorization] has dropped the eta stack and
    overwritten B0 with the other engine's.  [factorizeMatrix] itself
    leaves B0 and the eta stack as they were. *)
Theorem C2_state_after_failure st :
  (forall result e st' result',
     invertB0 st result = (Thrown e, st', result') ->
     e = CANT_INVERT_BASIS_BECAUSE_OF_ETAS /\ st' = st /\ result' = result) /\
  (forall p e st',
     factorizeMatrixAt st p = (Thrown e, st') ->
     let init := factorizeInit st (deref (clearLPU st) p) in
     e = NO_AVAILABLE_CANDIDATES /\ _B0 st' = _B0 st /\ _etas st' = _etas st
     /\ _LP init = []
     /\ _U init = memcpy (fill_n (_U st) (_m st * _m st) dzero)
                    (deref (clearLPU st) p) (_m st * _m st)
     /\ stoppedAtStage init st') /\
  (forall M e st',
     setB0 st M = (Thrown e, st') ->
     let B0' := memcpy (_B0 st) M (_m st * _m st) in
     e = NO_AVAILABLE_CANDIDATES /\ _B0 st' = B0' /\ _etas st' = _etas st
     /\ stoppedAtStage (factorizeInit (with_B0 st B0') B0') st') /\
  (forall k v e st',
     pushEtaMatrix T st k v = (Thrown e, st') ->
     let condensed :=
       condenseEtas (with_etas st (_etas st ++ [EtaMatrix_new (_m st) k v])) in
     e = NO_AVAILABLE_CANDIDATES
     /\ _factorizationEnabled st = true /\ T < length (_etas st) + 1
     /\ _B0 st' = _B0 condensed /\ _etas st' = []
     /\ stoppedAtStage (factorizeInit condensed (_B0 condensed)) st') /\
  (forall other e st' other',
     storeFactorization st other = (Thrown e, st', other') ->
     let condensed := condenseEtas st in
     e = NO_AVAILABLE_CANDIDATES /\ _B0 st' = _B0 condensed /\ _etas st' = []
     /\ ((other' = other
          /\ stoppedAtStage (factorizeInit condensed (_B0 condensed)) st')
         \/ (factorizeMatrix condensed (_B0 condensed) = (Returned, st')
             /\ setB0 other (_B0 st') = (Thrown e, other')))) /\
  (forall other e st',
     restoreFactorization st other = (Thrown e, st') ->
     let B0' := memcpy (_B0 st) (_B0 other) (_m st * _m st) in
     e = NO_AVAILABLE_CANDIDATES /\ _B0 st' = B0' /\ _etas st' = []
     /\ stoppedAtStage (factorizeInit (with_B0 (clearLPU (with_etas st [])) B0') B0') st').
Proof.
  split; [|split; [|split; [|split; [|split]]]].
  - intros result e st' result' H.
    destruct (invertB0_thrown st result e) as [-> G']; [rewrite H; reflexivity|].
    rewrite G' in H. inversion H. auto.
  - intros p e st'. apply factorizeMatrixAt_thrown.
  - intros M e st'. apply setB0_thrown.
  - intros k v e st'. apply pushEtaMatrix_thrown.
  - intros other e st' other'. apply storeFactorization_thrown.
  - intros other e st'. apply restoreFactorization_thrown.
Qed.
End FailingCalls.

(** C2, as stated: a failing call does not leave the observable state
    unchanged.  On a fresh engine of dimension 2, [setB0] with a matrix
    whose first column is zero throws NoPivot and leaves B0 and U
    overwritten.  With a threshold of 1, a second push whose condensed
    basis is singular throws NoPivot after the first stage: the eta stack
    has been emptied, B0 and U rewritten, and the LP list holds the eta of
    the stage that completed. *)
Lemma C2_counterexample :
  fst (setB0 (DD := f64) (fresh64 2) S5_matrix64) = Thrown NO_AVAILABLE_CANDIDATES
  /\ _B0 (fresh64 2) = [1; 0; 0; 1]%float
  /\ _B0 (snd (setB0 (DD := f64) (fresh64 2) S5_matrix64)) = [0; 1; 0; 1]%float
  /\ _U (fresh64 2) = [0; 0; 0; 0]%float
  /\ _U (snd (setB0 (DD := f64) (fresh64 2) S5_matrix64)) = [0; 1; 0; 1]%float
  /\ ~ sameObservable (fresh64 2) (snd (setB0 (DD := f64) (fresh64 2) S5_matrix64))
  /\ (let r := pushEtaMatrix (DD := f64) 1 oneEta64 1 [0; 0]%float in
      fst r = Thrown NO_AVAILABLE_CANDIDATES
      /\ length (_etas oneEta64) = 1 /\ _etas (snd r) = []
      /\ _B0 oneEta64 = [1; 0; 0; 1]%float /\ _B0 (snd r) = [2; 0; 0; 0]%float
      /\ _LP oneEta64 = [] /\ length (_LP (snd r)) = 1
      /\ _U (snd r) = [1; 0; 0; 0]%float).
Proof.
  repeat (split; [vm_compute; reflexivity|]). split.
  - intros (H & _). vm_compute in H. discriminate H.
  - vm_compute. repeat split.
Qed.

Lemma C2_witness :
  _etas (snd (setB0 (DD := f64) (fresh64 2) S5_matrix64)) = []
  /\ _B0 (snd (setB0 (DD := f64) (fresh64 2) S5_matrix64))
     = memcpy (DD := f64) (_B0 (fresh64 2)) S5_matrix64 4
  /\ snd (invertB0 (DD := f64) oneEta64 [0; 0; 0; 0]%float) = [0; 0; 0; 0]%float
  /\ _etas (snd (pushEtaMatrix (DD := f64) 1 oneEta64 1 [0; 0]%float)) = [].
Proof.
  assert (E1 : setB0 (DD := f64) (fresh64 2) S5_matrix64
               = (Thrown NO_AVAILABLE_CANDIDATES,
                  snd (setB0 (DD := f64) (fresh64 2) S5_matrix64)))
    by (vm_compute; reflexivity).
  assert (E2 : invertB0 (DD := f64) oneEta64 [0; 0; 0; 0]%float
               = (Thrown CANT_INVERT_BASIS_BECAUSE_OF_ETAS, oneEta64, [0; 0; 0; 0]%float))
    by (vm_compute; reflexivity).
  assert (E3 : pushEtaMatrix (DD := f64) 1 oneEta64 1 [0; 0]%float
               = (Thrown NO_AVAILABLE_CANDIDATES,
                  snd (pushEtaMatrix (DD := f64) 1 oneEta64 1 [0; 0]%float)))
    by (vm_compute; reflexivity).
  destruct (C2_state_after_failure (DD := f64) 1 (fresh64 2)) as (_ & _ & H & _).
  destruct (H S5_matrix64 _ _ E1) as (_ & H2 & H1 & _).
  destruct (C2_state_after_failure (DD := f64) 1 oneEta64) as (G & _ & _ & P & _).
  destruct (G [0; 0; 0; 0]%float _ _ _ E2) as (_ & _ & G1).
  destruct (P 1 [0; 0]%float _ _ E3) as (_ & _ & _ & _ & P1 & _).
  split; [exact H1|]. split; [exact H2|]. split; [|exact P1].
  rewrite E2. reflexivity.
Defined.

(** ** The class invariant *)

Section WellFormed.
Context {D : Type} {DD : Double D}.
Implicit Types (st : BasisFactorization D).

Lemma wellFormed_sizes st :
  wellFormed st = true ->
  0 < _m st /\ length (_B0 st) = _m st * _m st /\ length (_U st) = _m st * _m st
  /\ length (_tempY st) = _m st /\ length (_LCol st) = _m st.
Proof.
  unfold wellFormed. rewrite !andb_true_iff.
  intros ((((((H1 & H2) & H3) & H4) & H5) & _) & _).
  apply Nat.ltb_lt in H1. apply Nat.eqb_eq in H2, H3, H4, H5. auto.
Qed.

Lemma wellFormed_etas st :
  wellFormed st = true ->
  Forall (fun e => _columnIndex e < _m st /\ length (_column e) = _m st) (_etas st).
Proof.
  unfold wellFormed. rewrite !andb_true_iff. intros ((_ & H) & _).
  rewrite forallb_forall in H. apply Forall_forall. intros e He.
  specialize (H e He). unfold etaInRange in H. rewrite andb_true_iff in H.
  destruct H as [H1 H2]. apply Nat.ltb_lt in H1. apply Nat.eqb_eq in H2. auto.
Qed.
Lemma etaInRange_spec m (e : EtaMatrix D) :
  etaInRange m e = true <-> _columnIndex e < m /\ length (_column e) = m.
Proof.
  unfold etaInRange. rewrite andb_true_iff, Nat.ltb_lt, Nat.eqb_eq. reflexivity.
Qed.

(** The invariant as a conjunction of its parts. *)
Lemma wellFormed_iff st :
  wellFormed st = true <->
  (0 < _m st /\ length (_B0 st) = _m st * _m st /\ length (_U st) = _m st * _m st
   /\ length (_tempY st) = _m st /\ length (_LCol st) = _m st)
  /\ forallb (etaInRange (_m st)) (_etas st) = true
  /\ forallb (lpInRange (_m st)) (_LP st) = true.
Proof.
  unfold wellFormed. rewrite !andb_true_iff, Nat.ltb_lt, !Nat.eqb_eq. tauto.
Qed.

Lemma identityMatrix_length m : length (identityMatrix m) = m * m.
Proof.
  unfold identityMatrix.
  apply (forUp_preserve (fun B => length B = m * m)); [apply repeat_length|].
  intros i t _ Ht. rewrite store_length. exact Ht.
Qed.

(** The constructor establishes the invariant. *)
Lemma BasisFactorization_new_wellFormed m hU hT hL :
  0 < m -> wellFormed (BasisFactorization_new m hU hT hL) = true.
Proof.
  intros Hm. apply wellFormed_iff. cbn [BasisFactorization_new _m _B0 _U _tempY _LCol _etas _LP].
  rewrite identityMatrix_length, !length_map, !length_seq. repeat split; auto.
Qed.

Lemma condenseEta_length m B eta : length (condenseEta m B eta) = length B.
Proof.
  unfold condenseEta.
  apply (forUp_preserve (fun t => length t = length B)); [reflexivity|].
  intros i t _ Ht. rewrite store_length. exact Ht.
Qed.

Lemma condenseEtas_wellFormed st :
  wellFormed st = true -> wellFormed (condenseEtas st) = true.
Proof.
  rewrite !wellFormed_iff. intros ((H1 & H2 & H3 & H4 & H5) & _ & _).
  cbn [condenseEtas clearLPU with_B0 with_etas with_LP with_U
       _m _B0 _U _tempY _LCol _etas _LP forallb].
  rewrite fill_n_length. repeat split; try assumption.
  revert H2. generalize (_B0 st). induction (_etas st) as [|e es IH]; intros B HB; simpl.
  - exact HB.
  - apply IH. rewrite condenseEta_length. exact HB.
Qed.

End WellFormed.

(** ** Condensing the eta stack *)

Section Condense.
Context {D : Type} {DD : Double D}.
Implicit Types (st : BasisFactorization D).

(** The in-place loop computes the product the spec describes. *)
Lemma condenseEta_timesEta m B eta :
  length B = m * m -> _columnIndex eta < m ->
  condenseEta m B eta = timesEta m B eta.
Proof.
  intros Hl Hk. unfold condenseEta.
  set (k := _columnIndex eta) in *. set (v := _column eta).
  assert (G : length (forUp 0 m (fun i B0 =>
                store B0 (i * m + k)
                  (snap (forUp 0 m (fun j sum => (sum + get B0 (i * m + j) * get v j)%D) dzero)))
                B) = m * m /\
              forall r c, r < m -> c < m ->
                entry m (forUp 0 m (fun i B0 =>
                  store B0 (i * m + k)
                    (snap (forUp 0 m (fun j sum => (sum + get B0 (i * m + j) * get v j)%D) dzero)))
                  B) r c
                = if (r <? m) && (c =? k) then snap (rowDot m B r v) else entry m B r c).
  { apply (forUp_ind (fun i t => length t = m * m /\
             forall r c, r < m -> c < m ->
               entry m t r c
               = if (r <? i) && (c =? k) then snap (rowDot m B r v) else entry m B r c));
      [lia| |].
    - split; [exact Hl|]. intros r c _ _. reflexivity.
    - intros i t Hi [Hlt Ht]. split; [rewrite store_length; exact Hlt|].
      intros r c Hr Hc. rewrite entry_store by (try assumption; lia).
      rewrite Ht by assumption.
      assert (Hsum : forUp 0 m (fun j sum => (sum + get t (i * m + j) * get v j)%D) dzero
                     = rowDot m B i v).
      { unfold rowDot. rewrite (forUp_ext 0 m _
                 (fun j sum => (sum + entry m B i j * get v j)%D)).
        - unfold forUp. rewrite Nat.sub_0_r. reflexivity.
        - intros j s Hj. f_equal. f_equal.
          change (get t (i * m + j)) with (entry m t i j).
          rewrite Ht by lia. bcases. }
      rewrite Hsum. bcases. }
  destruct G as [G1 G2].
  apply (matrix_ext m); [exact G1|apply tabulate_length|].
  intros r c Hr Hc. unfold timesEta. rewrite G2, entry_tabulate by assumption.
  fold k. fold v. bcases.
Qed.

Lemma condense_fold m etas : forall B,
  length B = m * m ->
  Forall (fun e : EtaMatrix D => _columnIndex e < m /\ length (_column e) = m) etas ->
  fold_left (condenseEta m) etas B = fold_left (timesEta m) etas B.
Proof.
  induction etas as [|e etas IH]; intros B Hl Hall; simpl; [reflexivity|].
  destruct (Forall_inv Hall) as [He _].
  rewrite condenseEta_timesEta by assumption.
  apply IH; [|exact (Forall_inv_tail Hall)]. unfold timesEta. apply tabulate_length.
Qed.

Lemma fill_n_zero (a : list D) n : length a = n -> fill_n a n dzero = repeat dzero n.
Proof.
  intros Hl. apply array_ext.
  - rewrite fill_n_length, repeat_length. exact Hl.
  - intros i Hi. rewrite fill_n_length in Hi. rewrite get_fill_n.
    unfold get at 2. rewrite nth_repeat. bcases.
Qed.

(** C7.  On a well-formed engine, [condenseEtas] stores in B0 the old B0
    multiplied on the right by E1, ..., En in stack order (each product
    replacing one column by its zero-snapped dot products), empties the eta
    stack and the LP list and zeroes U; the implicit basis of the new state
    is the new B0, and it is the implicit basis of the old state. *)
Theorem C7_condenseEtas_folds st :
  wellFormed st = true ->
  let st' := condenseEtas st in
  _B0 st' = fold_left (timesEta (_m st)) (_etas st) (_B0 st)
  /\ _etas st' = []
  /\ _LP st' = []
  /\ _U st' = repeat dzero (_m st * _m st)
  /\ implicitBasis st' = _B0 st'
  /\ implicitBasis st' = implicitBasis st.
Proof.
  intros Hwf.
  destruct (wellFormed_sizes st Hwf) as (_ & HB & HU & _).
  pose proof (wellFormed_etas st Hwf) as He.
  assert (E : _B0 (condenseEtas st) = fold_left (timesEta (_m st)) (_etas st) (_B0 st))
    by (simpl; apply condense_fold; assumption).
  simpl. repeat split.
  - exact E.
  - apply fill_n_zero. exact HU.
  - unfold implicitBasis. simpl. apply condense_fold; assumption.
Qed.
End Condense.

Lemma C7_witness :
  _B0 (condenseEtas (DD := f64) twoEtas64)
    = fold_left (timesEta (DD := f64) 2) (_etas twoEtas64) (_B0 twoEtas64)
  /\ fold_left (timesEta (DD := f64) 2) (_etas twoEtas64) (_B0 twoEtas64)
    = [2; 2; 0; 3]%float.
Proof.
  split.
  - exact (proj1 (C7_condenseEtas_folds (DD := f64) twoEtas64 eq_refl)).
  - reflexivity.
Defined.

(** Between [condenseEtas] and the [factorizeMatrix] that follows it in
    [pushEtaMatrix] and [storeFactorization], both lists are empty, so the
    solvers take their short cut and copy [y], although B0 is no longer the
    identity. *)
Remark condensed_engine_short_circuits :
  let st := condenseEtas (DD := f64) twoEtas64 in
  _B0 st = [2; 2; 0; 3]%float
  /\ snd (forwardTransformation (DD := f64) st [4; 6]%float [0; 0]%float) = [4; 6]%float.
Proof. vm_compute. split; reflexivity. Qed.

(** ** The forward transformation *)

(** The entry just written is the same in both runs; the others agree by
    the loop invariant. *)
Ltac agree_step i j Hab :=
  destruct (Nat.eq_dec i j) as [->|?];
  [ rewrite Nat.eqb_refl;
    match goal with
    | |- context [?a <? ?b] => destruct (Nat.ltb_spec a b); [reflexivity|lia]
    end
  | replace (i =? j) with false by (symmetry; apply Nat.eqb_neq; assumption);
    simpl; apply Hab; lia ].


Section Forward.
Context {D : Type} {DD : Double D}.
Implicit Types (st : BasisFactorization D) (x y t : list D).

Lemma get_snap_store x i v j :
  get (snapAt (store x i v) i) j
  = if (i =? j) && (i <? length x) then snap v else get x j.
Proof.
  destruct (Nat.eq_dec i j) as [<-|Hne].
  - destruct (Nat.ltb_spec i (length x)) as [Hlt|Hge].
    + rewrite get_snapAt_same by (rewrite store_length; exact Hlt).
      rewrite get_store_same by exact Hlt. bcases.
    + replace ((i =? i) && (i <? length x)) with false by bcases.
      unfold snapAt.
      destruct (FloatUtils_isZero (get (store x i v) i));
        rewrite ?get_store, ?store_length; bcases.
  - rewrite get_snapAt_other, get_store_other by exact Hne. bcases.
Qed.

Lemma snap_store_length x i v : length (snapAt (store x i v) i) = length x.
Proof. rewrite snapAt_length, store_length. reflexivity. Qed.

Lemma agreeFrom_all m a b : agreeFrom m 0 a b -> a = b.
Proof.
  intros (Ha & Hb & H). apply array_ext; [congruence|].
  intros i Hi. apply H. lia.
Qed.

(** The elimination of U overwrites the whole of [x]. *)
Lemma forwardU_indep m U t x x' :
  0 < m -> length x = m -> length x' = m ->
  forwardU m U t x = forwardU m U t x'.
Proof.
  intros Hm Hx Hx'. unfold forwardU. apply (agreeFrom_all m).
  apply (forDown_rel (agreeFrom m)); [lia| |].
  - repeat split; rewrite ?store_length; try assumption.
    intros j Hj. replace j with (m - 1) by lia.
    rewrite !get_store_same by lia. reflexivity.
  - intros i a b Hi (Ha & Hb & Hab).
    assert (Hsum : forDown m (i + 1) (fun j sum => (sum + get U (i * m + j) * get a j)%D) dzero
                 = forDown m (i + 1) (fun j sum => (sum + get U (i * m + j) * get b j)%D) dzero).
    { apply forDown_ext. intros j s Hj. rewrite Hab by lia. reflexivity. }
    rewrite Hsum. repeat split; rewrite ?snap_store_length; try assumption.
    intros j Hj. rewrite !get_snap_store, Ha, Hb.
    agree_step i j Hab.
Qed.

(** One eta elimination overwrites the whole of [x] as well. *)
Lemma forwardEta_indep m t x x' eta :
  length x = m -> length x' = m -> _columnIndex eta < m ->
  forwardEta m (x, t) eta = forwardEta m (x', t) eta.
Proof.
  intros Hx Hx' Hk. unfold forwardEta.
  set (k := _columnIndex eta) in *. set (c := _column eta).
  match goal with
  | |- (?a, memcpy _ ?a' _) = (?b, memcpy _ ?b' _) =>
      assert (E : a = b); [|rewrite E; reflexivity]
  end.
  apply (agreeFrom_all m).
  apply (forDown_rel (agreeFrom m)); [lia| |].
  - (* after the rows above k *)
    assert (G : (fun i a b => length a = m /\ length b = m /\
                   forall j, k <= j < i -> get a j = get b j) m
                  (forUp (k + 1) m (fun i x0 =>
                     snapAt (store x0 i (get t i - get x0 k * get c i)%D) i)
                     (snapAt (store x k (get t k / get c k)%D) k))
                  (forUp (k + 1) m (fun i x0 =>
                     snapAt (store x0 i (get t i - get x0 k * get c i)%D) i)
                     (snapAt (store x' k (get t k / get c k)%D) k))).
    { apply (forUp_rel (fun i a b => length a = m /\ length b = m /\
                          forall j, k <= j < i -> get a j = get b j)); [lia| |].
      - repeat split; rewrite ?snap_store_length; try assumption.
        intros j Hj. replace j with k by lia.
        rewrite !get_snap_store, Hx, Hx', Nat.eqb_refl.
        destruct (Nat.ltb_spec k m); [reflexivity|lia].
      - intros i a b Hi (Ha & Hb & Hab).
        repeat split; rewrite ?snap_store_length; try assumption.
        intros j Hj. rewrite !get_snap_store, Ha, Hb.
        rewrite (Hab k) by lia.
        agree_step i j Hab. }
    exact G.
  - intros i a b Hi (Ha & Hb & Hab).
    repeat split; rewrite ?snap_store_length; try assumption.
    intros j Hj. rewrite !get_snap_store, Ha, Hb.
    rewrite (Hab k) by lia.
    agree_step i j Hab.
Qed.

Lemma forwardEta_lengths m eta x t :
  length x = m -> length t = m ->
  length (fst (forwardEta m (x, t) eta)) = m /\ length (snd (forwardEta m (x, t) eta)) = m.
Proof.
  intros Hx Ht. unfold forwardEta. simpl. split; [|rewrite memcpy_length; exact Ht].
  apply (forDown_preserve (fun a => length a = m)).
  - apply (forUp_preserve (fun a => length a = m)).
    + rewrite snap_store_length. exact Hx.
    + intros i a _ Ha. rewrite snap_store_length. exact Ha.
  - intros i a _ Ha. rewrite snap_store_length. exact Ha.
Qed.

Lemma forwardEtas_lengths m etas : forall x t,
  length x = m -> length t = m ->
  length (fst (fold_left (forwardEta m) etas (x, t))) = m
  /\ length (snd (fold_left (forwardEta m) etas (x, t))) = m.
Proof.
  induction etas as [|e etas IH]; intros x t Hx Ht; cbn [fold_left]; [auto|].
  destruct (forwardEta_lengths m e x t Hx Ht) as [H1 H2].
  destruct (forwardEta m (x, t) e) as [x1 t1]. apply IH; assumption.
Qed.

Lemma forwardU_length m U t x : length (forwardU m U t x) = length x.
Proof.
  unfold forwardU.
  apply (forDown_preserve (fun a => length a = length x)).
  - apply store_length.
  - intros i a _ Ha. rewrite snap_store_length. exact Ha.
Qed.

Lemma LMultiplyLeft_length m L X : length (LMultiplyLeft m L X) = length X.
Proof.
  unfold LMultiplyLeft.
  apply (forUp_preserve (fun a => length a = length X)); [reflexivity|].
  intros i a _ Ha. rewrite snapAt_length.
  destruct (i =? _columnIndex L); rewrite store_length; exact Ha.
Qed.

Lemma forwardLP_length m LP t : length (forwardLP m LP t) = length t.
Proof.
  unfold forwardLP. generalize (rev LP) as l. intros l. revert t.
  induction l as [|e l IH]; intros t; simpl; [reflexivity|].
  rewrite IH. destruct e as [a b|L].
  - unfold swapEntries. rewrite !store_length. reflexivity.
  - apply LMultiplyLeft_length.
Qed.
End Forward.

Section ForwardTwice.
Context {D : Type} {DD : Double D}.
Implicit Types (st : BasisFactorization D) (x y t : list D).

(** The stages keep the sizes of both buffers. *)
Lemma forwardStages_lengths m U LP etas x t :
  length x = m -> length t = m ->
  length (fst (forwardStages m U LP etas (x, t))) = m
  /\ length (snd (forwardStages m U LP etas (x, t))) = m.
Proof.
  intros Hx Ht. unfold forwardStages.
  destruct LP as [|e LP].
  - apply forwardEtas_lengths; [exact Hx|]. rewrite forwardLP_length. exact Ht.
  - apply forwardEtas_lengths.
    + rewrite forwardU_length. exact Hx.
    + rewrite memcpy_length, forwardLP_length. exact Ht.
Qed.

(** Unless both lists are empty, the stages overwrite the whole of [x]:
    what the output buffer held before does not matter. *)
Lemma forwardStages_indep m U LP etas t x x' :
  0 < m -> length x = m -> length x' = m ->
  Forall (fun e : EtaMatrix D => _columnIndex e < m /\ length (_column e) = m) etas ->
  LP <> [] \/ etas <> [] ->
  forwardStages m U LP etas (x, t) = forwardStages m U LP etas (x', t).
Proof.
  intros Hm Hx Hx' Hall Hne. unfold forwardStages.
  destruct LP as [|e LP].
  - destruct etas as [|e etas]; [destruct Hne; congruence|].
    destruct (Forall_inv Hall) as [He _]. cbn [fold_left].
    rewrite (forwardEta_indep m _ x x' e Hx Hx' He). reflexivity.
  - rewrite (forwardU_indep m U _ x x' Hm Hx Hx'). reflexivity.
Qed.

Lemma forwardTransformation_trivial st y x :
  _etas st = [] -> _LP st = [] ->
  forwardTransformation st y x = (st, memcpy x y (_m st)).
Proof. intros E1 E2. unfold forwardTransformation. rewrite E1, E2. reflexivity. Qed.

Lemma forwardTransformation_stages st y x :
  _LP st <> [] \/ _etas st <> [] ->
  forwardTransformation st y x
  = (with_tempY st (snd (forwardStages (_m st) (_U st) (_LP st) (_etas st)
                           (x, memcpy (_tempY st) y (_m st)))),
     fst (forwardStages (_m st) (_U st) (_LP st) (_etas st)
            (x, memcpy (_tempY st) y (_m st)))).
Proof.
  intros Hne. unfold forwardTransformation.
  destruct (_etas st) as [|e es]; destruct (_LP st) as [|l ls];
    [destruct Hne; congruence| | |];
    match goal with
    | |- context [forwardStages ?m ?U ?LP ?etas ?xt] =>
        destruct (forwardStages m U LP etas xt); reflexivity
    end.
Qed.

(** C9.  On a well-formed engine, [forwardTransformation] writes only the
    scratch buffer and the output: B0, U, the LP list and the eta stack
    (and the dimension, the flag and the L-column buffer) are as before.
    A second call with the same [y] on the engine the first call left,
    into the same output buffer or into any other buffer of size m, gives
    the same output and leaves the same engine. *)
Theorem C9_forward_deterministic st y x :
  wellFormed st = true -> length x = _m st ->
  let st1 := fst (forwardTransformation st y x) in
  let x1 := snd (forwardTransformation st y x) in
  sameObservable st st1
  /\ _m st1 = _m st /\ _factorizationEnabled st1 = _factorizationEnabled st
  /\ _LCol st1 = _LCol st
  /\ forwardTransformation st1 y x1 = (st1, x1)
  /\ forall x', length x' = _m st -> forwardTransformation st1 y x' = (st1, x1).
Proof.
  intros Hwf Hx.
  destruct (wellFormed_sizes st Hwf) as (Hm & _ & _ & Ht & _).
  pose proof (wellFormed_etas st Hwf) as Hetas.
  destruct (forwardTransformation_frame st y x) as (F1 & F2 & F3 & F4 & F5 & F6 & F7).
  assert (Hany : forall x', length x' = _m st ->
            forwardTransformation (fst (forwardTransformation st y x)) y x'
            = (fst (forwardTransformation st y x), snd (forwardTransformation st y x))
            /\ length (snd (forwardTransformation st y x)) = _m st).
  { intros x' Hx'.
    assert (Hcases : (_etas st = [] /\ _LP st = []) \/ (_LP st <> [] \/ _etas st <> [])).
    { destruct (_etas st); [destruct (_LP st)|]; [left; auto|right; left|right; right];
        discriminate. }
    destruct Hcases as [[E1 E2]|Hne].
    - rewrite (forwardTransformation_trivial st y x E1 E2). cbn [fst snd].
      rewrite (forwardTransformation_trivial st y x' E1 E2).
      rewrite !memcpy_full by assumption. split; [reflexivity|].
      rewrite length_map, length_seq. reflexivity.
    - rewrite (forwardTransformation_stages st y x Hne). cbn [fst snd].
      destruct (forwardStages_lengths (_m st) (_U st) (_LP st) (_etas st)
                  x (memcpy (_tempY st) y (_m st)) Hx) as [L1 L2];
        [rewrite memcpy_length; exact Ht|].
      split; [|exact L1].
      rewrite forwardTransformation_stages by exact Hne.
      unfold with_tempY. cbn [_m _U _LP _etas _tempY _B0 _factorizationEnabled _LCol].
      rewrite (memcpy_full (snd _)) by exact L2.
      rewrite <- (memcpy_full (_tempY st)) by exact Ht.
      rewrite (forwardStages_indep (_m st) (_U st) (_LP st) (_etas st) _ x' x Hm Hx' Hx);
        [reflexivity|exact Hetas|exact Hne]. }
  cbv zeta. repeat split; try assumption.
  - destruct (Hany x Hx) as [_ L]. apply (Hany _ L).
  - intros x' Hx'. apply (Hany x' Hx').
Qed.
End ForwardTwice.

Lemma C9_witness :
  forwardTransformation (DD := f64)
    (fst (forwardTransformation (DD := f64) S3_engine64 S3_rhs64 [0; 0; 0]%float))
    S3_rhs64 [7; 7; 7]%float
  = forwardTransformation (DD := f64) S3_engine64 S3_rhs64 [0; 0; 0]%float.
Proof.
  destruct (C9_forward_deterministic (DD := f64) S3_engine64 S3_rhs64 [0; 0; 0]%float
              eq_refl eq_refl) as (_ & _ & _ & _ & _ & H).
  rewrite (H [7; 7; 7]%float eq_refl).
  destruct (forwardTransformation (DD := f64) S3_engine64 S3_rhs64 [0; 0; 0]%float).
  reflexivity.
Defined.

(** ** Pivot selection *)

Section Pivot.
Context {D : Type} {DD : Double D}.
Implicit Types (st : BasisFactorization D) (U : list D).


(** What the scan guarantees in any arithmetic: the chosen row is a
    candidate, [largestElement] is the absolute value of its entry, no
    later row exceeds it under the tolerance, and the choice moved away
    from row [i] only for a row that exceeded an earlier one. *)
Lemma findPivot_scan m U i :
  i < m ->
  let p := findPivot m U i in
  i <= snd p < m
  /\ fst p = FloatUtils_abs (entry m U (snd p) i)
  /\ (forall j, snd p < j < m ->
        FloatUtils_gt (FloatUtils_abs (entry m U j i)) (fst p) = false)
  /\ (snd p = i \/
      exists k, i <= k < snd p /\
        FloatUtils_gt (fst p) (FloatUtils_abs (entry m U k i)) = true).
Proof.
  intros Hi. unfold findPivot.
  apply (forUp_ind (fun j p =>
           i <= snd p < j
           /\ fst p = FloatUtils_abs (entry m U (snd p) i)
           /\ (forall j', snd p < j' < j ->
                 FloatUtils_gt (FloatUtils_abs (entry m U j' i)) (fst p) = false)
           /\ (snd p = i \/
               exists k, i <= k < snd p /\
                 FloatUtils_gt (fst p) (FloatUtils_abs (entry m U k i)) = true)));
    [lia| |].
  - simpl. repeat split; try lia; auto.
  - intros j [l b] Hj (H1 & H2 & H3 & H4). simpl in *.
    fold (entry m U j i).
    destruct (FloatUtils_gt (FloatUtils_abs (entry m U j i)) l) eqn:G; simpl.
    + split; [lia|]. split; [reflexivity|]. split; [intros j' Hj'; lia|].
      right. exists b. split; [lia|]. rewrite <- H2. exact G.
    + split; [lia|]. split; [exact H2|]. split; [|exact H4].
      intros j' Hj'. destruct (Nat.eq_dec j' j) as [->|Hne]; [exact G|].
      apply H3. lia.
Qed.






End Pivot.



(** ** The idealised arithmetic *)

(** Order facts on [Qc] are decided on the underlying rationals. *)
Ltac qc2q :=
  unfold Qclt, Qcle, Qcminus, Qcplus, Qcopp, Qcmult in *;
  cbn [this Q2Qc] in *;
  repeat (match goal with
          | H : context [Qred ?q] |- _ => rewrite (Qred_correct q) in H
          | |- context [Qred ?q] => rewrite (Qred_correct q)
          end).

Section ExactOrder.
Variable eps : Qc.
Local Open Scope Qc_scope.

Lemma Qcltb_lt x y : Qcltb x y = true <-> x < y.
Proof.
  unfold Qcltb. rewrite Qclt_alt. destruct (x ?= y); split; congruence.
Qed.

Lemma isZero_exact x :
  FloatUtils_isZero (Double := exact eps) x = true <-> Qcabs x < eps.
Proof. simpl. apply Qcltb_lt. Qed.

Lemma gt_exact x y :
  FloatUtils_gt (Double := exact eps) x y = true <-> (eps <= x - y /\ 0 < x - y).
Proof.
  simpl. rewrite andb_true_iff, negb_true_iff, Qcltb_lt.
  split.
  - intros [H1 H2]. split; [|exact H2].
    rewrite Qcabs_pos in H1 by (apply Qclt_le_weak; exact H2).
    apply Qcnot_lt_le. intros H. apply Qcltb_lt in H. congruence.
  - intros [H1 H2]. split; [|exact H2].
    rewrite Qcabs_pos by (apply Qclt_le_weak; exact H2).
    destruct (Qcltb (x - y) eps) eqn:E; [|reflexivity].
    apply Qcltb_lt in E. exfalso. exact (Qcle_not_lt _ _ H1 E).
Qed.

Lemma gt_exact_irrefl x : FloatUtils_gt (Double := exact eps) x x = false.
Proof.
  destruct (FloatUtils_gt (Double := exact eps) x x) eqn:E; [|reflexivity].
  apply gt_exact in E. destruct E as [_ E]. exfalso. qc2q. lra.
Qed.

(** A value that does not exceed the old choice does not exceed a new,
    greater one, and is strictly below it. *)
Lemma gt_exact_displaced c l v :
  FloatUtils_gt (Double := exact eps) c l = true ->
  FloatUtils_gt (Double := exact eps) v l = false ->
  FloatUtils_gt (Double := exact eps) v c = false /\ v < c.
Proof.
  intros H1 H2. apply gt_exact in H1.
  assert (H2' : ~ (eps <= v - l /\ 0 < v - l))
    by (intros H; apply gt_exact in H; congruence).
  split.
  - destruct (FloatUtils_gt (Double := exact eps) v c) eqn:E; [|reflexivity].
    apply gt_exact in E. exfalso. apply H2'. qc2q. lra.
  - destruct (Qclt_le_dec v c) as [H|H]; [exact H|].
    exfalso. apply H2'. qc2q. lra.
Qed.

(** In exact arithmetic [FloatUtils::gt] compares every list of values
    consistently. *)
Remark exact_gtConsistent (vs : list Qc) : gtConsistent (DD := exact eps) vs = true.
Proof.
  unfold gtConsistent. apply forallb_forall. intros a _.
  rewrite gt_exact_irrefl. cbn [negb andb].
  apply forallb_forall. intros b _. apply forallb_forall. intros c _.
  destruct (FloatUtils_gt (Double := exact eps) a b) eqn:G1; [|reflexivity].
  destruct (FloatUtils_gt (Double := exact eps) c b) eqn:G2; [reflexivity|].
  destruct (gt_exact_displaced a b c G1 G2) as [G3 _]. rewrite G3. reflexivity.
Qed.

(** In exact arithmetic the scan ends on a row that no candidate exceeds
    under the tolerance, and that is strictly greater than every candidate
    before it. *)
Lemma findPivot_maximal m (U : list Qc) i :
  (i < m)%nat ->
  let p := findPivot (DD := exact eps) m U i in
  forall k, (i <= k < m)%nat ->
    FloatUtils_gt (Double := exact eps) (Qcabs (entry (DD := exact eps) m U k i)) (fst p) = false
    /\ ((k < snd p)%nat -> Qcabs (entry (DD := exact eps) m U k i) < fst p).
Proof.
  intros Hi. unfold findPivot.
  apply (forUp_ind (fun j (p : Qc * nat) =>
           (snd p < j)%nat /\
           forall k, (i <= k < j)%nat ->
             FloatUtils_gt (Double := exact eps)
               (Qcabs (entry (DD := exact eps) m U k i)) (fst p) = false
             /\ ((k < snd p)%nat -> Qcabs (entry (DD := exact eps) m U k i) < fst p)));
    [lia| |].
  - cbn [fst snd]. split; [lia|]. intros k Hk. replace k with i by lia. split.
    + apply gt_exact_irrefl.
    + intros H. lia.
  - intros j [l b] Hj [Hb H]. cbn [fst snd] in *.
    change (get (DD := exact eps) U (j * m + i)) with (entry (DD := exact eps) m U j i).
    change (@FloatUtils_abs Qc (exact eps)) with Qcabs.
    destruct (FloatUtils_gt (Double := exact eps)
                (Qcabs (entry (DD := exact eps) m U j i)) l) eqn:G; cbn [fst snd].
    + split; [lia|]. intros k Hk.
      destruct (Nat.eq_dec k j) as [->|Hne].
      * split; [apply gt_exact_irrefl|intros; lia].
      * destruct (H k) as [Hk1 _]; [lia|].
        destruct (gt_exact_displaced _ _ _ G Hk1) as [A B]. split; [exact A|intros _; exact B].
    + split; [lia|]. intros k Hk.
      destruct (Nat.eq_dec k j) as [->|Hne].
      * split; [exact G|intros; lia].
      * apply H. lia.
Qed.
End ExactOrder.



(** ** Row operations on matrices *)

Ltac fold_entry m :=
  repeat match goal with
  | |- context [get ?a (?r * m + ?c)] => change (get a (r * m + c)) with (entry m a r c)
  end.

Section RowOperations.
Context {D : Type} {DD : Double D}.
Implicit Types (U V R : list D).

(** [row += x * pivotRow] on the columns [lo .. m-1]. *)
Lemma row_axpy m lo row k x V :
  length V = m * m -> row < m -> k < m -> row <> k ->
  let V' := forUp lo m (fun col V =>
              store V (row * m + col)
                (get V (row * m + col) + x * get V (k * m + col))%D) V in
  length V' = m * m /\
  forall r c, r < m -> c < m ->
    entry m V' r c
    = if (r =? row) && (lo <=? c) then (entry m V row c + x * entry m V k c)%D
      else entry m V r c.
Proof.
  intros Hl Hrow Hk Hne. cbv zeta.
  destruct (Nat.le_gt_cases lo m) as [Hlo|Hlo].
  - set (P := fun j t => length t = m * m /\
               forall r c, r < m -> c < m ->
                 entry m t r c
                 = if (r =? row) && (lo <=? c) && (c <? j)
                   then (entry m V row c + x * entry m V k c)%D
                   else entry m V r c).
    assert (G : P m
              (forUp lo m (fun col V =>
                 store V (row * m + col)
                   (get V (row * m + col) + x * get V (k * m + col))%D) V)).
    { apply (forUp_ind P); unfold P; [exact Hlo| |].
      - split; [exact Hl|]. intros r c _ _. bcases.
      - intros j t Hj [Hlt Ht]. split; [rewrite store_length; exact Hlt|].
        intros r c Hr Hc. fold_entry m.
        rewrite entry_store by (try assumption; lia).
        rewrite !Ht by (try assumption; lia). bcases. }
    unfold P in G. destruct G as [G1 G2]. split; [exact G1|].
    intros r c Hr Hc. rewrite G2 by assumption. bcases.
  - rewrite forUp_empty by lia. split; [exact Hl|].
    intros r c Hr Hc. bcases.
Qed.

(** [row *= x] on the columns [lo .. m-1]. *)
Lemma row_scale m lo k x V :
  length V = m * m -> k < m ->
  let V' := forUp lo m (fun i V =>
              store V (k * m + i) (get V (k * m + i) * x)%D) V in
  length V' = m * m /\
  forall r c, r < m -> c < m ->
    entry m V' r c
    = if (r =? k) && (lo <=? c) then (entry m V k c * x)%D else entry m V r c.
Proof.
  intros Hl Hk. cbv zeta.
  destruct (Nat.le_gt_cases lo m) as [Hlo|Hlo].
  - set (P := fun j t => length t = m * m /\
               forall r c, r < m -> c < m ->
                 entry m t r c
                 = if (r =? k) && (lo <=? c) && (c <? j)
                   then (entry m V k c * x)%D
                   else entry m V r c).
    assert (G : P m
              (forUp lo m (fun i V =>
                 store V (k * m + i) (get V (k * m + i) * x)%D) V)).
    { apply (forUp_ind P); unfold P; [exact Hlo| |].
      - split; [exact Hl|]. intros r c _ _. bcases.
      - intros j t Hj [Hlt Ht]. split; [rewrite store_length; exact Hlt|].
        intros r c Hr Hc. fold_entry m.
        rewrite entry_store by (try assumption; lia).
        rewrite !Ht by (try assumption; lia). bcases. }
    unfold P in G. destruct G as [G1 G2]. split; [exact G1|].
    intros r c Hr Hc. rewrite G2 by assumption. bcases.
  - rewrite forUp_empty by lia. split; [exact Hl|].
    intros r c Hr Hc. bcases.
Qed.

(** A loop over the rows below [k] whose body rewrites its own row from
    that row and row [k] as they were before the loop. *)
Lemma rows_below m k (body : nat -> list D -> list D) (g : nat -> nat -> D) U :
  length U = m * m -> k < m ->
  (forall row t, k < row < m -> length t = m * m ->
     (forall c, c < m -> entry m t row c = entry m U row c) ->
     (forall c, c < m -> entry m t k c = entry m U k c) ->
     length (body row t) = m * m /\
     forall r c, r < m -> c < m ->
       entry m (body row t) r c = if r =? row then g row c else entry m t r c) ->
  length (forUp (k + 1) m body U) = m * m /\
  forall r c, r < m -> c < m ->
    entry m (forUp (k + 1) m body U) r c = if k <? r then g r c else entry m U r c.
Proof.
  intros Hl Hk Hbody.
  set (P := fun j t => length t = m * m /\
             forall r c, r < m -> c < m ->
               entry m t r c = if (k <? r) && (r <? j) then g r c else entry m U r c).
    assert (G : P m
            (forUp (k + 1) m body U)).
  { apply (forUp_ind P); unfold P; [lia| |].
    - split; [exact Hl|]. intros r c _ _. bcases.
    - intros j t Hj [Hlt Ht].
      destruct (Hbody j t) as [B1 B2]; [lia|exact Hlt| | |].
      + intros c Hc. rewrite Ht by (try assumption; lia). bcases.
      + intros c Hc. rewrite Ht by (try assumption; lia). bcases.
      + split; [exact B1|]. intros r c Hr Hc.
        rewrite B2, Ht by assumption. bcases. }
  unfold P in G. destruct G as [G1 G2]. split; [exact G1|].
  intros r c Hr Hc. rewrite G2 by assumption. bcases.
Qed.

(** [rowSwap] exchanges two distinct rows and keeps the others. *)
Lemma rowSwap_spec m r1 r2 A :
  length A = m * m -> r1 < m -> r2 < m -> r1 <> r2 ->
  length (rowSwap m r1 r2 A) = m * m /\
  forall r c, r < m -> c < m ->
    entry m (rowSwap m r1 r2 A) r c
    = if r =? r1 then entry m A r2 c
      else if r =? r2 then entry m A r1 c else entry m A r c.
Proof.
  intros Hl H1 H2 Hne. unfold rowSwap.
  set (P := fun j t => length t = m * m /\
             forall r c, r < m -> c < m ->
               entry m t r c
               = if c <? j
                 then (if r =? r1 then entry m A r2 c
                       else if r =? r2 then entry m A r1 c else entry m A r c)
                 else entry m A r c).
    assert (G : P m
            (forUp 0 m (fun i matrix =>
               store (store matrix (r1 * m + i) (get matrix (r2 * m + i)))
                 (r2 * m + i) (get matrix (r1 * m + i))) A)).
  { apply (forUp_ind P); unfold P; [lia| |].
    - split; [exact Hl|]. intros r c _ _. bcases.
    - intros j t Hj [Hlt Ht]. split; [rewrite !store_length; exact Hlt|].
      intros r c Hr Hc. fold_entry m.
      rewrite entry_store by (rewrite ?store_length; try assumption; lia).
      rewrite entry_store by (try assumption; lia).
      rewrite !Ht by (try assumption; lia). bcases. }
  unfold P in G. destruct G as [G1 G2]. split; [exact G1|].
  intros r c Hr Hc. rewrite G2 by assumption. bcases.
Qed.
End RowOperations.

(** ** One elimination step *)

Section Elimination.
Context {D : Type} {DD : Double D}.
Implicit Types (U V R : list D) (L : EtaMatrix D).

(** The entries of U after [LFactorizationMultiply]. *)
Lemma LFactorizationMultiply_U_spec m L U :
  length U = m * m -> _columnIndex L < m ->
  length (LFactorizationMultiply_U m L U) = m * m /\
  forall r col, r < m -> col < m ->
    entry m (LFactorizationMultiply_U m L U) r col
    = if r =? _columnIndex L
      then (if col =? _columnIndex L then done
            else if _columnIndex L <? col
                 then (entry m U r col * get (_column L) (_columnIndex L))%D
                 else entry m U r col)
      else if _columnIndex L <? r
           then (if col =? _columnIndex L then dzero
                 else if _columnIndex L <? col
                      then (entry m U r col + get (_column L) r * entry m U (_columnIndex L) col)%D
                      else entry m U r col)
           else entry m U r col.
Proof.
  intros Hl Hk. unfold LFactorizationMultiply_U.
  set (k := _columnIndex L) in *. set (c := _column L).
  destruct (rows_below m k
              (fun row U0 =>
                 forUp (k + 1) m (fun col U1 =>
                   store U1 (row * m + col)
                     (get U1 (row * m + col) + get c row * get U1 (k * m + col))%D)
                   (store U0 (row * m + k) dzero))
              (fun r col => if col =? k then dzero
                            else if k <? col
                                 then (entry m U r col + get c r * entry m U k col)%D
                                 else entry m U r col)
              U Hl Hk) as [A1 A2].
  { intros row t Hrow Hlt Hrow_t Hk_t.
    destruct (row_axpy m (k + 1) row k (get c row) (store t (row * m + k) dzero))
      as [B1 B2]; [rewrite store_length; exact Hlt|lia|exact Hk|lia|].
    split; [exact B1|]. intros r col Hr Hcol.
    rewrite B2 by assumption.
    rewrite !entry_store by (try assumption; lia).
    rewrite <- Hrow_t, <- Hk_t by (try assumption; lia). bcases. }
  match goal with
  | |- context [forUp (k + 1) m ?body (forUp (k + 1) m ?rows U)] =>
      set (A := forUp (k + 1) m rows U) in *
  end.
  destruct (row_scale m (k + 1) k (get c k) A A1 Hk) as [B1 B2].
  cbv zeta in B1, B2.
  split; [rewrite store_length; exact B1|].
  intros r col Hr Hcol.
  rewrite entry_store by (try assumption; lia).
  rewrite B2, !A2 by (try assumption; lia). bcases.
Qed.

(** The entries of a matrix after the row operations of a lower-triangular
    eta, as [invertB0] applies them. *)
Lemma applyLPElement_eta_spec m L R :
  length R = m * m -> _columnIndex L < m ->
  length (applyLPElement m (LPEta L) R) = m * m /\
  forall r col, r < m -> col < m ->
    entry m (applyLPElement m (LPEta L) R) r col
    = if r =? _columnIndex L
      then (entry m R r col * get (_column L) (_columnIndex L))%D
      else if _columnIndex L <? r
           then (entry m R r col + get (_column L) r * entry m R (_columnIndex L) col)%D
           else entry m R r col.
Proof.
  intros Hl Hk. unfold applyLPElement.
  set (k := _columnIndex L) in *. set (c := _column L).
  destruct (rows_below m k
              (fun row R0 =>
                 forUp 0 m (fun col R1 =>
                   store R1 (row * m + col)
                     (get R1 (row * m + col) + get c row * get R1 (k * m + col))%D) R0)
              (fun r col => (entry m R r col + get c r * entry m R k col)%D)
              R Hl Hk) as [A1 A2].
  { intros row t Hrow Hlt Hrow_t Hk_t.
    destruct (row_axpy m 0 row k (get c row) t) as [B1 B2];
      [exact Hlt|lia|exact Hk|lia|].
    split; [exact B1|]. intros r col Hr Hcol.
    rewrite B2 by assumption.
    rewrite <- Hrow_t, <- Hk_t by (try assumption; lia). bcases. }
  match goal with
  | |- context [forUp 0 m ?body (forUp (k + 1) m ?rows R)] =>
      set (A := forUp (k + 1) m rows R) in *
  end.
  destruct (row_scale m 0 k (get c k) A A1 Hk) as [B1 B2].
  cbv zeta in B1, B2.
  split; [exact B1|].
  intros r col Hr Hcol.
  rewrite B2, !A2 by (try assumption; lia). bcases.
Qed.

(** The column of L built at stage [i]: zeros above the pivot, the inverse
    of the pivot at [i], the negated multipliers below. *)
Lemma buildLCol_spec m i U LCol :
  length LCol = m -> i < m ->
  length (buildLCol m i U LCol) = m /\
  forall j, j < m ->
    get (buildLCol m i U LCol) j
    = if j <? i then dzero
      else if j =? i then (done / entry m U i i)%D
      else (- entry m U j i / entry m U i i)%D.
Proof.
  intros Hl Hi. unfold buildLCol. fold (entry m U i i).
  set (div := entry m U i i).
  set (P := fun j0 t => length t = m /\
              forall j, j < m ->
                get t j = if j <? i then dzero
                          else if j =? i then (done / div)%D
                          else if j <? j0 then (- entry m U j i / div)%D
                          else dzero).
  assert (G : P m (forUp (i + 1) m (fun j LCol0 =>
                     store LCol0 j (- get U (i + j * m) / div)%D)
                     (store (fill_n LCol m dzero) i (done / div)%D))).
  { apply (forUp_ind P); unfold P; [lia| |].
    - split; [rewrite store_length, fill_n_length; exact Hl|].
      intros j Hj. rewrite get_store, get_fill_n, fill_n_length, Hl. bcases.
    - intros j0 t Hj0 [Hlt Ht]. split; [rewrite store_length; exact Hlt|].
      intros j Hj. rewrite get_store, Hlt, Ht by exact Hj.
      replace (i + j0 * m) with (j0 * m + i) by lia. fold (entry m U j0 i). bcases. }
  unfold P in G. destruct G as [G1 G2]. split; [exact G1|].
  intros j Hj. rewrite G2 by exact Hj. bcases.
Qed.
End Elimination.

(** ** The factorization loop *)

Section Stages.
Context {D : Type} {DD : Double D}.
Implicit Types (st : BasisFactorization D) (U M : list D).

Lemma applyLP_nil m M : applyLP m [] M = M.
Proof. reflexivity. Qed.

Lemma applyLP_cons m e LP M :
  applyLP m (e :: LP) M = applyLPElement m e (applyLP m LP M).
Proof.
  unfold applyLP. simpl. rewrite fold_left_app. reflexivity.
Qed.

(** What a stage that returns has done. *)
Lemma factorizeStage_returned i st st' :
  factorizeStage i st = (Returned, st') ->
  let m := _m st in
  let p := findPivot m (_U st) i in
  let U1 := if snd p =? i then _U st else rowSwap m i (snd p) (_U st) in
  let LP1 := if snd p =? i then _LP st else LPPair i (snd p) :: _LP st in
  let L := EtaMatrix_new m i (buildLCol m i U1 (_LCol st)) in
  FloatUtils_isZero (fst p) = false
  /\ _U st' = LFactorizationMultiply_U m L U1
  /\ _LP st' = LPEta L :: LP1
  /\ _LCol st' = buildLCol m i U1 (_LCol st)
  /\ _m st' = m.
Proof.
  unfold factorizeStage.
  destruct (findPivot (_m st) (_U st) i) as [l b]. cbn [fst snd].
  destruct (FloatUtils_isZero l); [discriminate|].
  intros [= <-]. destruct (b =? i); simpl; auto.
Qed.

(** The pivot row brought to position [i]: the columns before [i] stay
    cleared, and the pivot is the entry the scan chose. *)
Lemma pivot_row_in_place m i b U :
  length U = m * m -> i <= b < m -> clearedBefore m i U ->
  let U1 := if b =? i then U else rowSwap m i b U in
  length U1 = m * m /\ clearedBefore m i U1 /\ entry m U1 i i = entry m U b i.
Proof.
  intros Hl Hb Hc. cbv zeta.
  destruct (Nat.eqb_spec b i) as [->|Hne]; [auto|].
  destruct (rowSwap_spec m i b U Hl) as [S1 S2]; [lia|lia|lia|].
  split; [exact S1|]. split.
  - intros r c Hci Hr. rewrite S2 by (try assumption; lia).
    destruct (Hc r c Hci Hr) as [C1 C2].
    destruct (Hc i c Hci) as [C3 _]; [lia|].
    destruct (Hc b c Hci) as [C4 _]; [lia|].
    bcases; split; intros; try lia; auto; apply C3 || apply C4; lia.
  - rewrite S2 by lia. bcases.
Qed.

(** A returning stage clears one more column, in any arithmetic: the
    zeros and the one are written as constants. *)
Lemma factorizeStage_shape i st st' :
  i < _m st -> length (_U st) = _m st * _m st -> length (_LCol st) = _m st ->
  clearedBefore (_m st) i (_U st) ->
  factorizeStage i st = (Returned, st') ->
  _m st' = _m st /\ length (_U st') = _m st * _m st /\ length (_LCol st') = _m st
  /\ clearedBefore (_m st) (i + 1) (_U st').
Proof.
  intros Hi HU HL Hc Hrun.
  destruct (factorizeStage_returned i st st' Hrun) as (_ & EU & _ & EL & Em).
  cbv zeta in EU, EL, Em.
  destruct (findPivot_scan (_m st) (_U st) i Hi) as (Hb & _).
  destruct (pivot_row_in_place (_m st) i _ (_U st) HU Hb Hc) as (L1 & C1 & _).
  cbv zeta in L1, C1.
  match type of EU with _ = LFactorizationMultiply_U _ ?L ?U1 =>
    destruct (LFactorizationMultiply_U_spec (_m st) L U1 L1 Hi) as [F1 F2];
    destruct (buildLCol_spec (_m st) i U1 (_LCol st) HL Hi) as [B1 _]
  end.
  rewrite EU, EL. split; [exact Em|]. split; [exact F1|]. split; [exact B1|].
  intros r c Hci Hr. rewrite F2 by (try assumption; lia). cbn [_columnIndex EtaMatrix_new].
  destruct (Nat.eq_dec c i) as [->|Hne].
  - bcases; split; intros; try lia; reflexivity.
  - destruct (C1 r c) as [C2 C3]; [lia|exact Hr|].
    bcases; split; intros; try lia; auto.
Qed.

Lemma factorizeLoop_shape n : forall i st st',
  i + n <= _m st -> length (_U st) = _m st * _m st -> length (_LCol st) = _m st ->
  clearedBefore (_m st) i (_U st) ->
  factorizeLoop n i st = (Returned, st') ->
  _m st' = _m st /\ length (_U st') = _m st * _m st
  /\ clearedBefore (_m st) (i + n) (_U st').
Proof.
  induction n as [|n IH]; intros i st st' Hin HU HL Hc; cbn [factorizeLoop].
  - intros [= <-]. rewrite Nat.add_0_r. auto.
  - destruct (factorizeStage i st) as [[|e] st1] eqn:E; [|discriminate].
    intros Hrun.
    destruct (factorizeStage_shape i st st1) as (E1 & E2 & E3 & E4);
      [lia|exact HU|exact HL|exact Hc|exact E|].
    destruct (IH (i + 1) st1 st') as (R1 & R2 & R3);
      rewrite ?E1; try assumption; try lia.
    + replace (i + 1) with (S i) by lia. exact Hrun.
    + rewrite E1 in R1, R2, R3. split; [exact R1|]. split; [exact R2|].
      replace (i + S n) with (i + 1 + n) by lia. exact R3.
Qed.

(** In any arithmetic, the U of a factorization that succeeds is
    upper-triangular with unit diagonal, exactly. *)
Lemma factorizeMatrix_unitUpper st M st' :
  length (_U st) = _m st * _m st -> length (_LCol st) = _m st ->
  factorizeMatrix st M = (Returned, st') ->
  _m st' = _m st /\ length (_U st') = _m st * _m st /\ unitUpper (_m st) (_U st').
Proof.
  intros HU HL Hrun. unfold factorizeMatrix in Hrun.
  fold (factorizeInit st M) in Hrun.
  assert (H1 : length (_U (factorizeInit st M)) = _m st * _m st).
  { cbn [factorizeInit _U _m with_U clearLPU with_LP].
    rewrite memcpy_length, fill_n_length. exact HU. }
  assert (H3 : clearedBefore (_m st) 0 (_U (factorizeInit st M)))
    by (intros r c Hc; lia).
  destruct (factorizeLoop_shape (_m st) 0 (factorizeInit st M) st'
              (Nat.le_refl _) H1 HL H3 Hrun) as (R1 & R2 & R3).
  cbn [factorizeInit _m with_U clearLPU with_LP Nat.add] in R1, R2, R3.
  split; [exact R1|]. split; [exact R2|]. split.
  - intros r c Hrc Hr. apply (R3 r c); [lia|exact Hr|exact Hrc].
  - intros r Hr. apply (R3 r r); [lia|exact Hr|reflexivity].
Qed.
End Stages.

(** ** The LP list reproduces U, in exact arithmetic *)

Section ExactFactorization.
Variable eps : Qc.
Hypothesis eps_pos : (0 < eps)%Qc.
Local Abbreviation X := (exact eps).
Implicit Types (st : BasisFactorization Qc) (U M : list Qc).

(** A value that is not numerically zero is not zero. *)
Lemma nonzero_pivot (x : Qc) :
  FloatUtils_isZero (Double := X) (Qcabs x) = false -> x <> 0%Qc.
Proof.
  intros H ->. assert (E : FloatUtils_isZero (Double := X) (Qcabs 0%Qc) = true).
  { apply isZero_exact.
    rewrite (Qcabs_pos 0%Qc) by apply Qcle_refl.
    rewrite (Qcabs_pos 0%Qc) by apply Qcle_refl. exact eps_pos. }
  congruence.
Qed.

(** On a matrix whose columns before [i] are cleared, the row operations
    of the stage's L give what [LFactorizationMultiply] writes. *)
Lemma elimination_is_multiplication m i U1 LCol :
  (i < m)%nat -> length U1 = (m * m)%nat -> length LCol = m ->
  clearedBefore (DD := X) m i U1 -> entry (DD := X) m U1 i i <> 0%Qc ->
  let L := EtaMatrix_new (DD := X) m i (buildLCol (DD := X) m i U1 LCol) in
  applyLPElement (DD := X) m (LPEta L) U1 = LFactorizationMultiply_U (DD := X) m L U1.
Proof.
  intros Hi HU HL Hc Hd L.
  assert (Hk : (_columnIndex L < m)%nat) by exact Hi.
  destruct (applyLPElement_eta_spec (DD := X) m L U1 HU Hk) as [A1 A2].
  destruct (LFactorizationMultiply_U_spec (DD := X) m L U1 HU Hk) as [F1 F2].
  destruct (buildLCol_spec (DD := X) m i U1 LCol HL Hi) as [_ B].
  assert (Hcol : forall j, (j < m)%nat ->
            get (DD := X) (_column L) j
            = if j <? i then 0%Qc
              else if j =? i then (1 / entry (DD := X) m U1 i i)%Qc
              else (- entry (DD := X) m U1 j i / entry (DD := X) m U1 i i)%Qc).
  { intros j Hj. unfold L. cbn [_column EtaMatrix_new].
    rewrite (get_map_seq (DD := X)) by exact Hj. rewrite B by exact Hj. reflexivity. }
  apply (matrix_ext (DD := X) m); [exact A1|exact F1|].
  intros r c Hr Hcm. rewrite A2, F2 by assumption.
  change (_columnIndex L) with i.
  rewrite !Hcol by assumption.
  cbn [dadd dmul ddiv dneg done dzero exact].
  destruct (Nat.eq_dec r i) as [->|Hri].
  - rewrite Nat.eqb_refl.
    destruct (Nat.lt_trichotomy c i) as [Hlt|[->|Hgt]].
    + destruct (Hc i c Hlt Hi) as [Z _]. rewrite (Z Hlt). bcases. ring.
    + bcases. field. exact Hd.
    + bcases.
  - destruct (Nat.ltb_spec i r) as [Hlt|Hge]; [|bcases].
    destruct (Nat.lt_trichotomy c i) as [Hci|[->|Hgt]].
    + destruct (Hc i c Hci Hi) as [Z _]. rewrite (Z Hci). bcases. ring.
    + bcases. field. exact Hd.
    + bcases.
Qed.

(** A returning stage keeps the LP list and U in step. *)
Lemma factorizeStage_product i st st' M :
  (i < _m st)%nat -> length (_U st) = (_m st * _m st)%nat -> length (_LCol st) = _m st ->
  clearedBefore (DD := X) (_m st) i (_U st) ->
  applyLP (DD := X) (_m st) (_LP st) M = _U st ->
  factorizeStage (DD := X) i st = (Returned, st') ->
  applyLP (DD := X) (_m st) (_LP st') M = _U st'.
Proof.
  intros Hi HU HL Hc Hprod Hrun.
  destruct (factorizeStage_returned (DD := X) i st st' Hrun) as (Hz & EU & ELP & _).
  cbv zeta in Hz, EU, ELP.
  destruct (findPivot_scan (DD := X) (_m st) (_U st) i Hi) as (Hb & Hl & _).
  cbv zeta in Hb, Hl.
  destruct (pivot_row_in_place (DD := X) (_m st) i _ (_U st) HU Hb Hc) as (L1 & C1 & P1).
  cbv zeta in L1, C1, P1.
  rewrite Hl in Hz. apply nonzero_pivot in Hz. rewrite <- P1 in Hz.
  rewrite EU, ELP, applyLP_cons.
  rewrite <- (elimination_is_multiplication (_m st) i _ (_LCol st) Hi L1 HL C1 Hz).
  f_equal.
  destruct (snd (findPivot (DD := X) (_m st) (_U st) i) =? i); [exact Hprod|].
  rewrite applyLP_cons, Hprod. reflexivity.
Qed.

Lemma factorizeLoop_product n M : forall i st st',
  (i + n <= _m st)%nat -> length (_U st) = (_m st * _m st)%nat ->
  length (_LCol st) = _m st ->
  clearedBefore (DD := X) (_m st) i (_U st) ->
  applyLP (DD := X) (_m st) (_LP st) M = _U st ->
  factorizeLoop (DD := X) n i st = (Returned, st') ->
  applyLP (DD := X) (_m st) (_LP st') M = _U st'.
Proof.
  induction n as [|n IH]; intros i st st' Hin HU HL Hc Hprod; cbn [factorizeLoop].
  - intros [= <-]. exact Hprod.
  - destruct (factorizeStage (DD := X) i st) as [[|e] st1] eqn:E; [|discriminate].
    intros Hrun.
    destruct (factorizeStage_shape (DD := X) i st st1) as (E1 & E2 & E3 & E4);
      [lia|exact HU|exact HL|exact Hc|exact E|].
    pose proof (factorizeStage_product i st st1 M) as P.
    rewrite <- E1. apply (IH (i + 1)%nat st1 st'); rewrite ?E1; try assumption; try lia.
    + apply P; try assumption. lia.
    + replace (i + 1)%nat with (S i) by lia. exact Hrun.
Qed.

(** Without rounding, and with a positive tolerance, the LP list applied
    to M reproduces the stored U in every entry: what the code stores as
    0.0 and 1.0 is what the row operations compute. *)
Remark exact_product_reproduces_U st M st' :
  length (_U st) = (_m st * _m st)%nat -> length (_LCol st) = _m st ->
  length M = (_m st * _m st)%nat ->
  factorizeMatrix (DD := X) st M = (Returned, st') ->
  applyLP (DD := X) (_m st) (_LP st') M = _U st'
  /\ unitUpper (DD := X) (_m st) (_U st').
Proof.
  intros HU HL HM Hrun.
  destruct (factorizeMatrix_unitUpper (DD := X) st M st' HU HL Hrun) as (_ & _ & Hshape).
  split; [|exact Hshape].
  unfold factorizeMatrix in Hrun. fold (factorizeInit (DD := X) st M) in Hrun.
  assert (H0 : _U (factorizeInit (DD := X) st M) = M).
  { cbn [factorizeInit _U _m with_U clearLPU with_LP].
    apply (memcpy_exact (DD := X)); [rewrite fill_n_length; exact HU|exact HM]. }
  apply (factorizeLoop_product (_m st) M 0%nat (factorizeInit (DD := X) st M) st').
  - apply Nat.le_refl.
  - rewrite H0. exact HM.
  - exact HL.
  - intros r c Hc. lia.
  - rewrite H0. reflexivity.
  - exact Hrun.
Qed.
End ExactFactorization.

(** ** The same factorization on binary64 *)

(** On binary64 the product of the LP list with M is U only up to
    rounding: for the 1 x 1 matrix [49] the stored U is [1], while
    49 * (1 / 49) rounds to the double just below 1. *)
Remark binary64_product_rounds :
  let r := factorizeMatrix (DD := f64) (fresh64 1) (49 :: nil)%float in
  fst r = Returned
  /\ _U (snd r) = (1 :: nil)%float
  /\ applyLP (DD := f64) 1 (_LP (snd r)) (49 :: nil)%float = (0x1.fffffffffffffp-1 :: nil)%float
  /\ within64 (applyLP (DD := f64) 1 (_LP (snd r)) (49 :: nil)%float) (_U (snd r)) = true.
Proof. vm_compute. repeat split. Qed.

Remark binary64_unitUpper (st : BasisFactorization float) (M : list float)
    (st' : BasisFactorization float) :
  length (_U st) = _m st * _m st -> length (_LCol st) = _m st ->
  factorizeMatrix (DD := f64) st M = (Returned, st') ->
  unitUpper (DD := f64) (_m st) (_U st').
Proof.
  intros HU HL Hrun.
  destruct (factorizeMatrix_unitUpper (DD := f64) st M st' HU HL Hrun) as (_ & _ & H).
  exact H.
Qed.

(** ** The class invariant is kept *)

Section InvariantKept.
Context {D : Type} {DD : Double D}.
Implicit Types (st : BasisFactorization D).

Lemma rowSwap_length m r1 r2 A : length (rowSwap m r1 r2 A) = length A.
Proof.
  unfold rowSwap.
  apply (forUp_preserve (fun t => length t = length A)); [reflexivity|].
  intros i t _ Ht. rewrite !store_length. exact Ht.
Qed.

Lemma buildLCol_length m i U LCol : length (buildLCol m i U LCol) = length LCol.
Proof.
  unfold buildLCol.
  apply (forUp_preserve (fun t => length t = length LCol)).
  - rewrite store_length, fill_n_length. reflexivity.
  - intros j t _ Ht. rewrite store_length. exact Ht.
Qed.

Lemma LFactorizationMultiply_U_length m L U :
  length (LFactorizationMultiply_U m L U) = length U.
Proof.
  unfold LFactorizationMultiply_U. rewrite store_length.
  apply (forUp_preserve (fun t => length t = length U)).
  - apply (forUp_preserve (fun t => length t = length U)); [reflexivity|].
    intros row t _ Ht.
    apply (forUp_preserve (fun t => length t = length U)).
    + rewrite store_length. exact Ht.
    + intros col t' _ Ht'. rewrite store_length. exact Ht'.
  - intros i t _ Ht. rewrite store_length. exact Ht.
Qed.

(** A stage keeps the invariant, whether it returns or throws. *)
Lemma factorizeStage_wellFormed i st :
  i < _m st -> wellFormed st = true -> wellFormed (snd (factorizeStage i st)) = true.
Proof.
  intros Hi Hwf. pose proof Hwf as Hwf'.
  apply wellFormed_iff in Hwf. destruct Hwf as ((H1 & H2 & H3 & H4 & H5) & H6 & H7).
  destruct (findPivot_scan (_m st) (_U st) i Hi) as (Hb & _). cbv zeta in Hb.
  unfold factorizeStage.
  destruct (findPivot (_m st) (_U st) i) as [l b]. cbn [fst snd] in *.
  destruct (FloatUtils_isZero l); [exact Hwf'|].
  apply wellFormed_iff.
  assert (HL : forall U1, etaInRange (_m st)
                 (EtaMatrix_new (_m st) i (buildLCol (_m st) i U1 (_LCol st))) = true).
  { intros U1. apply etaInRange_spec. cbn [EtaMatrix_new _columnIndex _column].
    rewrite length_map, length_seq. auto. }
  destruct (b =? i);
    cbn [snd LFactorizationMultiply with_U with_LP with_LCol
         _m _B0 _U _tempY _LCol _etas _LP forallb lpInRange];
    rewrite LFactorizationMultiply_U_length, ?rowSwap_length, buildLCol_length, HL, H7;
    repeat split; try assumption.
  cbn [andb]. rewrite andb_true_r. apply andb_true_intro. split; apply Nat.ltb_lt; lia.
Qed.

Lemma factorizeLoop_wellFormed n : forall i st,
  i + n <= _m st -> wellFormed st = true ->
  wellFormed (snd (factorizeLoop n i st)) = true.
Proof.
  induction n as [|n IH]; intros i st Hin Hwf; cbn [factorizeLoop]; [exact Hwf|].
  pose proof (factorizeStage_wellFormed i st) as Hs.
  destruct (factorizeStage i st) as [[|e] st1] eqn:E; cbn [snd] in Hs.
  - apply IH; [|apply Hs; [lia|exact Hwf]].
    apply factorizeStage_keeps in E. destruct E as (E & _). rewrite E. lia.
  - apply Hs; [lia|exact Hwf].
Qed.

Lemma factorizeMatrix_wellFormed st M :
  wellFormed st = true -> wellFormed (snd (factorizeMatrix st M)) = true.
Proof.
  intros Hwf. unfold factorizeMatrix. apply factorizeLoop_wellFormed; [apply Nat.le_refl|].
  apply wellFormed_iff in Hwf. destruct Hwf as ((H1 & H2 & H3 & H4 & H5) & H6 & _).
  apply wellFormed_iff.
  cbn [clearLPU with_U with_LP _m _B0 _U _tempY _LCol _etas _LP forallb].
  rewrite memcpy_length, fill_n_length. repeat split; auto.
Qed.

Lemma setB0_wellFormed st M :
  wellFormed st = true -> wellFormed (snd (setB0 st M)) = true.
Proof.
  intros Hwf. unfold setB0. apply factorizeMatrix_wellFormed.
  apply wellFormed_iff in Hwf. destruct Hwf as ((H1 & H2 & H3 & H4 & H5) & H6 & H7).
  apply wellFormed_iff. cbn [with_B0 _m _B0 _U _tempY _LCol _etas _LP].
  rewrite memcpy_length. repeat split; auto.
Qed.

(** Pushing an eta with a column index below [m] keeps the invariant. *)
Lemma pushEtaMatrix_wellFormed T st k v :
  k < _m st -> wellFormed st = true ->
  wellFormed (snd (pushEtaMatrix T st k v)) = true.
Proof.
  intros Hk Hwf.
  assert (Happ : wellFormed (with_etas st (_etas st ++ [EtaMatrix_new (_m st) k v])) = true).
  { apply wellFormed_iff in Hwf. destruct Hwf as (H1 & H6 & H7).
    apply wellFormed_iff. cbn [with_etas _m _B0 _U _tempY _LCol _etas _LP].
    split; [exact H1|]. split; [|exact H7].
    rewrite forallb_app, H6. cbn [forallb]. rewrite andb_true_r.
    apply etaInRange_spec. cbn [EtaMatrix_new _columnIndex _column].
    rewrite length_map, length_seq. auto. }
  unfold pushEtaMatrix. destruct (_ && _); [|exact Happ].
  apply factorizeMatrix_wellFormed, condenseEtas_wellFormed, Happ.
Qed.

Lemma forwardEtas_scratch m etas : forall x t,
  length (snd (fold_left (forwardEta m) etas (x, t))) = length t.
Proof.
  induction etas as [|e etas IH]; intros x t; cbn [fold_left]; [reflexivity|].
  destruct (forwardEta m (x, t) e) as [x1 t1] eqn:E.
  rewrite IH. unfold forwardEta in E. injection E as _ <-. apply memcpy_length.
Qed.

Lemma backwardEtas_scratch m etas : forall x t,
  length (snd (fold_left (backwardEta m) etas (x, t))) = length t.
Proof.
  induction etas as [|e etas IH]; intros x t; cbn [fold_left]; [reflexivity|].
  destruct (backwardEta m (x, t) e) as [x1 t1] eqn:E.
  rewrite IH. unfold backwardEta in E. injection E as _ <-. apply memcpy_length.
Qed.

(** The solvers keep the invariant: they only write the scratch buffer,
    and keep its size. *)
Lemma forwardTransformation_wellFormed st y x :
  wellFormed st = true -> wellFormed (fst (forwardTransformation st y x)) = true.
Proof.
  intros Hwf. pose proof Hwf as Hwf'. apply wellFormed_iff in Hwf.
  destruct Hwf as ((H1 & H2 & H3 & H4 & H5) & H6 & H7).
  unfold forwardTransformation.
  destruct (_etas st) as [|e es] eqn:E1; destruct (_LP st) as [|l ls] eqn:E2;
    [exact Hwf'| | |];
    match goal with
    | |- context [forwardStages ?m ?U ?LP ?etas (?x0, ?t)] =>
        assert (HT : length (snd (forwardStages m U LP etas (x0, t))) = _m st);
        [ unfold forwardStages; rewrite forwardEtas_scratch,
            ?memcpy_length, forwardLP_length, memcpy_length; exact H4
        | destruct (forwardStages m U LP etas (x0, t)) as [xa ta]; cbn [fst snd] in * ]
    end;
    apply wellFormed_iff; cbn [with_tempY _m _B0 _U _tempY _LCol _etas _LP];
    rewrite ?E1, ?E2; repeat split; assumption.
Qed.

Lemma backwardTransformation_wellFormed st y x :
  wellFormed st = true -> wellFormed (fst (backwardTransformation st y x)) = true.
Proof.
  intros Hwf. pose proof Hwf as Hwf'. apply wellFormed_iff in Hwf.
  destruct Hwf as ((H1 & H2 & H3 & H4 & H5) & H6 & H7).
  unfold backwardTransformation.
  destruct (_etas st) as [|e es] eqn:E1; destruct (_LP st) as [|l ls] eqn:E2;
    [exact Hwf'| | |];
    match goal with
    | |- context [fold_left (backwardEta ?m) ?etas (?x0, ?t)] =>
        assert (HT : length (snd (fold_left (backwardEta m) etas (x0, t))) = _m st);
        [ rewrite backwardEtas_scratch, memcpy_length; exact H4
        | destruct (fold_left (backwardEta m) etas (x0, t)) as [xa ta]; cbn [fst snd] in * ]
    end;
    apply wellFormed_iff; cbn [with_tempY _m _B0 _U _tempY _LCol _etas _LP];
    rewrite ?E1, ?E2; repeat split; assumption.
Qed.
End InvariantKept.

(** * Further properties of the code *)

(** ** Construction and the class invariant *)

Section Lifecycle.
Context {D : Type} {DD : Double D}.
Variable T : nat.
Implicit Types (st other : BasisFactorization D).

Lemma get_repeat_zero n i : get (repeat dzero n) i = dzero.
Proof. unfold get. apply nth_repeat. Qed.

Lemma identityMatrix_entries m r c :
  r < m -> c < m ->
  entry m (identityMatrix m) r c = if r =? c then done else dzero.
Proof.
  intros Hr Hc. unfold identityMatrix.
  set (P := fun j t => length t = m * m /\
              forall r c, r < m -> c < m ->
                entry m t r c = if (r =? c) && (r <? j) then done else dzero).
  assert (G : P m (forUp 0 m (fun row B => store B (row * m + row) done)
                     (repeat dzero (m * m)))).
  { apply (forUp_ind P); unfold P; [lia| |].
    - split; [apply repeat_length|]. intros r0 c0 _ _.
      unfold entry. rewrite get_repeat_zero. bcases.
    - intros j t Hj [Hl Ht]. split; [rewrite store_length; exact Hl|].
      intros r0 c0 Hr0 Hc0. rewrite entry_store by (try assumption; lia).
      rewrite Ht by assumption. bcases. }
  unfold P in G. destruct G as [_ G]. rewrite G by assumption. bcases.
Qed.

Lemma fits16 m : m < 2 ^ 16 -> (N.of_nat m < 2 ^ 16)%N.
Proof.
  intros H.
  assert (E : N.of_nat (2 ^ 16) = (2 ^ 16)%N) by (vm_compute; reflexivity).
  rewrite <- E. lia.
Qed.

(** Below 2^16 the [unsigned] index arithmetic of the code does not wrap. *)
Lemma umul_small a b : a < 2 ^ 16 -> b < 2 ^ 16 -> umul a b = a * b.
Proof.
  intros Ha Hb. apply fits16 in Ha. apply fits16 in Hb. unfold umul, unsigned32.
  rewrite N.mod_small by nia. lia.
Qed.

Lemma index_small m r c : m < 2 ^ 16 -> r < m -> c < m -> uadd (umul r m) c = r * m + c.
Proof.
  intros Hm Hr Hc. rewrite umul_small by lia.
  apply fits16 in Hm. unfold uadd, unsigned32.
  rewrite N.mod_small by nia. lia.
Qed.

Lemma fill_n_full (a : list D) n v : length a = n -> fill_n a n v = repeat v n.
Proof.
  intros Hl. apply array_ext.
  - rewrite fill_n_length, repeat_length. exact Hl.
  - intros i Hi. rewrite fill_n_length in Hi. rewrite get_fill_n.
    unfold get at 2. rewrite nth_repeat_lt by lia. bcases.
Qed.

(** For a dimension [0 < m < 2^16], the constructor returns when its four
    allocations succeed, and the engine it returns satisfies the class
    invariant, with B0 the m x m identity, both lists empty and
    factorization enabled, whatever the allocator left in the buffers; it
    throws ALLOCATION_FAILED as soon as one allocation fails. *)
Theorem constructor_gives_identity m hB hU hT hL :
  0 < m < 2 ^ 16 ->
  let st := BasisFactorization_new m hU hT hL in
  BasisFactorization_constructor m (Some hB) (Some hU) (Some hT) (Some hL) = inr st
  /\ wellFormed st = true
  /\ _m st = m /\ _etas st = [] /\ _LP st = [] /\ factorizationEnabled st = true
  /\ _B0 st = identity m
  /\ forall aB aU aT aL,
       aB = None \/ aU = None \/ aT = None \/ aL = None ->
       BasisFactorization_constructor m aB aU aT aL = inl ALLOCATION_FAILED.
Proof.
  intros [Hm Hfit]. cbv zeta.
  assert (Hmm : umul m m = m * m) by (apply umul_small; exact Hfit).
  split.
  - unfold BasisFactorization_constructor, newArray, BasisFactorization_new. rewrite Hmm.
    f_equal. f_equal. unfold identityMatrix.
    rewrite fill_n_full by (rewrite length_map, length_seq; reflexivity).
    apply forUp_ext. intros row B Hrow.
    rewrite index_small by (try assumption; lia). reflexivity.
  - split; [apply BasisFactorization_new_wellFormed; exact Hm|].
    repeat split.
    + cbn [BasisFactorization_new _B0]. apply (matrix_ext m).
      * apply identityMatrix_length.
      * apply tabulate_length.
      * intros r c Hr Hc. unfold identity.
        rewrite identityMatrix_entries, entry_tabulate by assumption. reflexivity.
    + intros aB aU aT aL H. unfold BasisFactorization_constructor, newArray.
      destruct aB as [b|]; [|reflexivity].
      destruct aU as [u|]; [|reflexivity].
      destruct aT as [t|]; [|reflexivity].
      destruct aL as [l|]; [|reflexivity].
      destruct H as [H|[H|[H|H]]]; discriminate H.
Qed.

Lemma storeFactorization_this st other :
  let st' := snd (fst (storeFactorization st other)) in
  wellFormed st = true ->
  wellFormed st' = true /\ _m st' = _m st /\ _etas st' = []
  /\ _B0 st' = _B0 (condenseEtas st).
Proof.
  cbv zeta. intros Hwf. unfold storeFactorization.
  pose proof (factorizeMatrix_wellFormed (condenseEtas st) (_B0 (condenseEtas st))
                (condenseEtas_wellFormed st Hwf)) as W.
  destruct (factorizeMatrix (condenseEtas st) (_B0 (condenseEtas st))) as [r st1] eqn:E.
  apply factorizeMatrix_keeps in E. destruct E as (E1 & E2 & E3 & _).
  cbn [snd] in W.
  destruct r; [destruct (setB0 other (_B0 st1))|]; cbn [fst snd];
    repeat split; assumption.
Qed.

Lemma restoreFactorization_this st other :
  let st' := snd (restoreFactorization st other) in
  wellFormed st = true ->
  wellFormed st' = true /\ _m st' = _m st /\ _etas st' = []
  /\ _B0 st' = memcpy (_B0 st) (_B0 other) (_m st * _m st).
Proof.
  cbv zeta. intros Hwf. unfold restoreFactorization.
  set (cleared := clearLPU (with_etas st [])).
  assert (Hc : wellFormed cleared = true).
  { apply wellFormed_iff in Hwf. destruct Hwf as ((H1 & H2 & H3 & H4 & H5) & _ & _).
    apply wellFormed_iff. unfold cleared.
    cbn [clearLPU with_etas with_LP with_U _m _B0 _U _tempY _LCol _etas _LP forallb].
    rewrite fill_n_length. repeat split; assumption. }
  split; [apply setB0_wellFormed; exact Hc|].
  destruct (setB0_keeps cleared (_B0 other)) as (K1 & _ & K3 & K4).
  repeat split; assumption.
Qed.

(** One call keeps the dimension and the class invariant. *)
Lemma runOp_wellFormed st op :
  wellFormed st = true -> opInRange (_m st) op = true ->
  wellFormed (runOp T st op) = true /\ _m (runOp T st op) = _m st.
Proof.
  intros Hwf Hop. destruct op as [k v|M| |y x|y x|result|other|other|value]; cbn [runOp].
  - split; [apply pushEtaMatrix_wellFormed; [apply Nat.ltb_lt; exact Hop|exact Hwf]|].
    unfold pushEtaMatrix. destruct (_ && _); [|reflexivity].
    destruct (factorizeMatrix _ _) as [r st'] eqn:E.
    apply factorizeMatrix_keeps in E. destruct E as (E & _). exact E.
  - split; [apply setB0_wellFormed; exact Hwf|].
    destruct (setB0_keeps st M) as (_ & _ & K & _). exact K.
  - split; [apply condenseEtas_wellFormed; exact Hwf|reflexivity].
  - split; [apply forwardTransformation_wellFormed; exact Hwf|].
    destruct (forwardTransformation_frame st y x) as (K & _). exact K.
  - split; [apply backwardTransformation_wellFormed; exact Hwf|].
    destruct (backwardTransformation_frame st y x) as (K & _). exact K.
  - rewrite invertB0_state. auto.
  - destruct (storeFactorization_this st other Hwf) as (K1 & K2 & _). auto.
  - destruct (restoreFactorization_this st other Hwf) as (K1 & K2 & _). auto.
  - split; [exact Hwf|reflexivity].
Qed.

(** Every sequence of calls of a driver that pushes etas only at columns
    below the dimension keeps the dimension and the class invariant,
    whether the calls return or throw. *)
Theorem invariant_kept_by_every_call st ops :
  wellFormed st = true -> forallb (opInRange (_m st)) ops = true ->
  wellFormed (runOps T st ops) = true /\ _m (runOps T st ops) = _m st.
Proof.
  revert st. induction ops as [|op ops IH]; intros st Hwf Hops; cbn [runOps fold_left].
  - auto.
  - cbn [forallb] in Hops. apply andb_true_iff in Hops. destruct Hops as [Hop Hops].
    destruct (runOp_wellFormed st op Hwf Hop) as [W M].
    destruct (IH (runOp T st op) W) as [W' M']; [rewrite M; exact Hops|].
    split; [exact W'|]. rewrite <- M. exact M'.
Qed.
End Lifecycle.

Lemma constructor_gives_identity_witness :
  BasisFactorization_constructor (DD := f64) 2
    (Some (fun _ => 4%float)) (Some (fun _ => 5%float))
    (Some (fun _ => 6%float)) (Some (fun _ => 7%float))
  = inr (BasisFactorization_new (DD := f64) 2
           (fun _ => 5%float) (fun _ => 6%float) (fun _ => 7%float))
  /\ _B0 (BasisFactorization_new (DD := f64) 2
            (fun _ => 5%float) (fun _ => 6%float) (fun _ => 7%float))
     = [1; 0; 0; 1]%float.
Proof.
  assert (H : 0 < 2 < 2 ^ 16) by (split; [lia|apply Nat.ltb_lt; vm_compute; reflexivity]).
  destruct (constructor_gives_identity (DD := f64) 2
              (fun _ => 4%float) (fun _ => 5%float) (fun _ => 6%float) (fun _ => 7%float) H)
    as (H0 & _ & _ & _ & _ & _ & H2 & _).
  split; [exact H0|exact H2].
Defined.

Lemma invariant_kept_by_every_call_witness :
  wellFormed (runOps (DD := f64) 1 (fresh64 2)
                [OpPushEta 0 [2; 0]%float; OpPushEta 1 [1; 3]%float;
                 OpForward [4; 6]%float [0; 0]%float; OpSetB0 S5_matrix64]) = true.
Proof.
  apply (invariant_kept_by_every_call (DD := f64) 1 (fresh64 2)
           [OpPushEta 0 [2; 0]%float; OpPushEta 1 [1; 3]%float;
            OpForward [4; 6]%float [0; 0]%float; OpSetB0 S5_matrix64]
           eq_refl eq_refl).
Defined.

(** ** Refactorization, checkpoint and restore *)

Section Checkpoint.
Context {D : Type} {DD : Double D}.
Variable T : nat.
Implicit Types (st other : BasisFactorization D).

(** On a matrix of zeros the scan of column 0 ends on |0.0|. *)
Lemma findPivot_zeros m U i :
  (forall k, get U k = dzero) ->
  fst (findPivot m U i) = FloatUtils_abs dzero.
Proof.
  intros HU. unfold findPivot.
  apply (forUp_preserve (fun p : D * nat => fst p = FloatUtils_abs dzero)).
  - cbn [fst]. rewrite HU. reflexivity.
  - intros j [l b] _ Hl. cbn [fst] in *. rewrite HU.
    destruct (FloatUtils_gt (FloatUtils_abs dzero) l); [reflexivity|exact Hl].
Qed.

(** [factorizeMatrix] starts from what its argument points to, read after
    [clearLPU] has run.  For a pointer to B0 or to a buffer of the caller,
    the U and the LP list of an earlier factorization have no influence on
    what the call returns or on the engine it leaves.  For a pointer to the
    engine's own U, the call reads the zeros [clearLPU] has just written:
    whatever U held, it throws NoPivot at the first stage and leaves U
    zeroed and the LP list empty. *)
Theorem factorizeMatrix_forgets_previous st U' LP' p :
  length (_U st) = _m st * _m st -> length U' = _m st * _m st ->
  (p <> PtrU ->
   factorizeMatrixAt (with_LP (with_U st U') LP') p = factorizeMatrixAt st p
   /\ factorizeMatrixAt st p = factorizeMatrix st (deref st p))
  /\ (0 < _m st -> FloatUtils_isZero (FloatUtils_abs dzero) = true ->
      factorizeMatrixAt st PtrU
      = (Thrown NO_AVAILABLE_CANDIDATES,
         with_U (with_LP st []) (repeat dzero (_m st * _m st)))).
Proof.
  intros HU HU'. split.
  - intros Hp. split.
    + unfold factorizeMatrixAt, factorizeMatrix.
      destruct p as [| |M]; [congruence| |];
        cbn [deref clearLPU with_LP with_U _m _B0 _U _tempY _LCol _etas _LP
             _factorizationEnabled];
        rewrite !memcpy_full by (rewrite fill_n_length; assumption); reflexivity.
    + destruct p as [| |M]; [congruence| |]; reflexivity.
  - intros Hm Hz. unfold factorizeMatrixAt, factorizeMatrix.
    cbn [deref clearLPU with_LP with_U _m _B0 _U _tempY _LCol _etas _LP
         _factorizationEnabled].
    rewrite (fill_n_full (_U st) (_m st * _m st) dzero HU).
    rewrite memcpy_same by apply repeat_length.
    destruct (_m st) as [|n] eqn:Em; [lia|]. cbn [factorizeLoop].
    unfold factorizeStage. cbn [_m _U].
    match goal with
    | |- context [findPivot ?m ?U ?i] =>
        pose proof (findPivot_zeros m U i) as F;
        destruct (findPivot m U i) as [l b]
    end.
    cbn [fst] in F. rewrite F, Hz; [|intros k; unfold get; apply nth_repeat].
    unfold with_U, with_LP. cbn. rewrite Em. reflexivity.
Qed.

Lemma implicitBasis_append st e :
  implicitBasis (with_etas st (_etas st ++ e :: nil)) = timesEta (_m st) (implicitBasis st) e.
Proof.
  unfold implicitBasis. cbn [with_etas _m _B0 _etas]. rewrite fold_left_app. reflexivity.
Qed.

Lemma condenseEtas_B0 st :
  wellFormed st = true -> _B0 (condenseEtas st) = implicitBasis st.
Proof.
  intros Hwf. destruct (wellFormed_sizes st Hwf) as (_ & HB & _).
  cbn [condenseEtas clearLPU with_B0 with_etas with_LP with_U _B0].
  apply condense_fold; [exact HB|apply wellFormed_etas; exact Hwf].
Qed.

(** [pushEtaMatrix(k, v)] multiplies the implicit basis by E(k, v) on the
    right, whether it only appends the eta or condenses and refactorizes,
    and whether the refactorization returns or throws. *)
Theorem pushEtaMatrix_multiplies_basis st k v :
  wellFormed st = true -> k < _m st ->
  implicitBasis (snd (pushEtaMatrix T st k v))
  = timesEta (_m st) (implicitBasis st) (EtaMatrix_new (_m st) k v).
Proof.
  intros Hwf Hk.
  set (E := EtaMatrix_new (_m st) k v).
  set (appended := with_etas st (_etas st ++ E :: nil)).
  assert (Happ : wellFormed appended = true).
  { apply wellFormed_iff in Hwf. destruct Hwf as (H1 & H6 & H7).
    apply wellFormed_iff. unfold appended. cbn [with_etas _m _B0 _U _tempY _LCol _etas _LP].
    split; [exact H1|]. split; [|exact H7].
    rewrite forallb_app, H6. cbn [forallb]. rewrite andb_true_r.
    apply etaInRange_spec. unfold E. cbn [EtaMatrix_new _columnIndex _column].
    rewrite length_map, length_seq. auto. }
  unfold pushEtaMatrix. fold E. change (with_etas st (_etas st ++ [E])) with appended.
  destruct (_ && _).
  - destruct (factorizeMatrix (condenseEtas appended) (_B0 (condenseEtas appended)))
      as [r st'] eqn:F.
    apply factorizeMatrix_keeps in F. destruct F as (F1 & F2 & F3 & _).
    cbn [snd]. unfold implicitBasis at 1. rewrite F1, F2, F3.
    cbn [condenseEtas clearLPU with_etas with_LP with_U with_B0 _etas _m fold_left].
    change (fold_left (condenseEta (_m appended)) (_etas appended) (_B0 appended))
      with (_B0 (condenseEtas appended)).
    rewrite (condenseEtas_B0 appended Happ). apply implicitBasis_append.
  - cbn [snd]. apply implicitBasis_append.
Qed.

(** A checkpoint that succeeds leaves the implicit basis of the engine in
    the B0 of both engines, with the engine's eta stack empty; restoring
    any engine of the same dimension from the checkpoint gives it that B0
    and an empty eta stack. *)
Theorem store_then_restore st other st' other' :
  wellFormed st = true -> wellFormed other = true -> _m other = _m st ->
  storeFactorization st other = (Returned, st', other') ->
  _B0 st' = implicitBasis st /\ _etas st' = []
  /\ _B0 other' = implicitBasis st /\ _etas other' = _etas other
  /\ forall target, wellFormed target = true -> _m target = _m st ->
       _B0 (snd (restoreFactorization target other')) = implicitBasis st
       /\ _etas (snd (restoreFactorization target other')) = [].
Proof.
  intros Hwf Hwo Hm Hrun.
  destruct (storeFactorization_this st other Hwf) as (W & M1 & E1 & B1).
  rewrite Hrun in W, M1, E1, B1. cbn [fst snd] in W, M1, E1, B1.
  rewrite (condenseEtas_B0 st Hwf) in B1.
  destruct (wellFormed_sizes st' W) as (_ & HB' & _).
  destruct (wellFormed_sizes other Hwo) as (_ & HBo & _).
  assert (Ho : _B0 other' = implicitBasis st /\ _etas other' = _etas other).
  { unfold storeFactorization in Hrun.
    destruct (factorizeMatrix (condenseEtas st) (_B0 (condenseEtas st))) as [r s1] eqn:F.
    destruct r; [|discriminate].
    destruct (setB0 other (_B0 s1)) as [r2 o2] eqn:S.
    injection Hrun as -> -> ->.
    pose proof (setB0_keeps other (_B0 st')) as K. rewrite S in K. cbn [snd] in K.
    destruct K as (K1 & _ & _ & K4). split; [|exact K1].
    rewrite K4, <- B1. apply memcpy_exact; [exact HBo|]. rewrite Hm, <- M1. exact HB'. }
  destruct Ho as [Ho1 Ho2]. repeat split; try assumption.
  - destruct (restoreFactorization_this target other' H) as (_ & _ & _ & R).
    rewrite R, Ho1, <- B1.
    destruct (wellFormed_sizes target H) as (_ & HBt & _).
    apply memcpy_exact; [exact HBt|]. rewrite H0, <- M1. exact HB'.
  - destruct (restoreFactorization_this target other' H) as (_ & _ & R & _). exact R.
Qed.
End Checkpoint.

Lemma factorizeMatrix_forgets_previous_witness :
  factorizeMatrixAt (DD := f64)
    (with_LP (with_U (fresh64 2) [9; 9; 9; 9]%float) (LPPair 0 1 :: nil))
    (PtrCaller [2; 1; 1; 3]%float)
  = factorizeMatrixAt (DD := f64) (fresh64 2) (PtrCaller [2; 1; 1; 3]%float)
  /\ fst (factorizeMatrixAt (DD := f64) (with_U (fresh64 2) [2; 1; 1; 3]%float) PtrU)
     = Thrown NO_AVAILABLE_CANDIDATES.
Proof.
  assert (L1 : length (_U (fresh64 2)) = _m (fresh64 2) * _m (fresh64 2))
    by (vm_compute; reflexivity).
  assert (L2 : length [9; 9; 9; 9]%float = _m (fresh64 2) * _m (fresh64 2))
    by (vm_compute; reflexivity).
  assert (L3 : length (_U (with_U (fresh64 2) [2; 1; 1; 3]%float))
               = _m (with_U (fresh64 2) [2; 1; 1; 3]%float)
                 * _m (with_U (fresh64 2) [2; 1; 1; 3]%float))
    by (vm_compute; reflexivity).
  assert (Hm : 0 < _m (with_U (fresh64 2) [2; 1; 1; 3]%float)) by (vm_compute; lia).
  assert (Hz : FloatUtils_isZero (Double := f64)
                 (FloatUtils_abs (Double := f64) (dzero (Double := f64))) = true)
    by (vm_compute; reflexivity).
  destruct (factorizeMatrix_forgets_previous (DD := f64) (fresh64 2) [9; 9; 9; 9]%float
              (LPPair 0 1 :: nil) (PtrCaller [2; 1; 1; 3]%float) L1 L2) as [A _].
  destruct (factorizeMatrix_forgets_previous (DD := f64)
              (with_U (fresh64 2) [2; 1; 1; 3]%float) [9; 9; 9; 9]%float nil PtrU L3 L3)
    as [_ B].
  split.
  - apply A. discriminate.
  - rewrite (B Hm Hz). reflexivity.
Defined.

Lemma pushEtaMatrix_multiplies_basis_witness :
  implicitBasis (DD := f64) (snd (pushEtaMatrix (DD := f64) 0 oneEta64 1 [1; 3]%float))
  = timesEta (DD := f64) (_m oneEta64) (implicitBasis (DD := f64) oneEta64)
      (EtaMatrix_new (DD := f64) (_m oneEta64) 1 [1; 3]%float).
Proof.
  apply (pushEtaMatrix_multiplies_basis (DD := f64) 0 oneEta64 1 [1; 3]%float).
  - vm_compute. reflexivity.
  - vm_compute. lia.
Defined.

Lemma store_then_restore_witness :
  let stored := storeFactorization (DD := f64) twoEtas64 (fresh64 2) in
  _B0 (snd (restoreFactorization (DD := f64) (fresh64 2) (snd stored)))
  = implicitBasis (DD := f64) twoEtas64.
Proof.
  intros stored.
  assert (H : storeFactorization (DD := f64) twoEtas64 (fresh64 2)
              = (Returned, snd (fst stored), snd stored))
    by (vm_compute; reflexivity).
  assert (W1 : wellFormed twoEtas64 = true) by (vm_compute; reflexivity).
  assert (W2 : wellFormed (fresh64 2) = true) by (vm_compute; reflexivity).
  assert (M : _m (fresh64 2) = _m twoEtas64) by (vm_compute; reflexivity).
  destruct (store_then_restore (DD := f64) twoEtas64 (fresh64 2)
              (snd (fst stored)) (snd stored) W1 W2 M H) as (_ & _ & _ & _ & R).
  apply R; [exact W2|exact M].
Defined.

(** ** Row swaps *)

Section RowSwap.
Context {D : Type} {DD : Double D}.
Implicit Types (A : list D).

Lemma store_get_same (a : list D) i : store a i (get a i) = a.
Proof.
  unfold get. revert i. induction a as [|x a IH]; intros [|i]; simpl; try reflexivity.
  rewrite IH. reflexivity.
Qed.

Lemma rowSwap_same_row m r A : rowSwap m r r A = A.
Proof.
  unfold rowSwap. apply (forUp_preserve (fun t => t = A)); [reflexivity|].
  intros i t _ ->. rewrite !store_get_same. reflexivity.
Qed.

(** Swapping two rows twice gives the matrix back, and the order in which
    the two rows are named does not matter. *)
Theorem rowSwap_involutive m a b A :
  length A = m * m -> a < m -> b < m ->
  rowSwap m a b (rowSwap m a b A) = A /\ rowSwap m b a A = rowSwap m a b A.
Proof.
  intros Hl Ha Hb. destruct (Nat.eq_dec a b) as [->|Hne].
  - rewrite !rowSwap_same_row. auto.
  - destruct (rowSwap_spec m a b A Hl Ha Hb Hne) as [L1 S1].
    destruct (rowSwap_spec m a b (rowSwap m a b A) L1 Ha Hb Hne) as [L2 S2].
    destruct (rowSwap_spec m b a A Hl Hb Ha) as [L3 S3]; [lia|].
    split.
    + apply (matrix_ext m); [exact L2|exact Hl|].
      intros r c Hr Hc. rewrite S2, !S1 by assumption. bcases.
    + apply (matrix_ext m); [exact L3|exact L1|].
      intros r c Hr Hc. rewrite S3, S1 by assumption. bcases.
Qed.
End RowSwap.

Lemma rowSwap_involutive_witness :
  rowSwap (DD := f64) 2 0 1 (rowSwap (DD := f64) 2 0 1 [1; 2; 3; 4]%float)
  = [1; 2; 3; 4]%float.
Proof.
  apply (proj1 (rowSwap_involutive (DD := f64) 2 0 1 [1; 2; 3; 4]%float
                  eq_refl (Nat.lt_0_succ 1) (Nat.lt_succ_diag_r 1))).
Defined.

(** ** Triangular solves *)

Section TriangularSolves.
Context {D : Type} {DD : Double D}.
Implicit Types (U t x : list D) (L : EtaMatrix D).

(** [LMultiplyLeft] computes the product of E(k, c) with the vector, entry
    by entry and zero-snapped; the rows after k use the value the vector
    had at k before the loop, not the one the loop wrote there. *)
Theorem LMultiplyLeft_entries m L X :
  length X = m -> _columnIndex L < m ->
  length (LMultiplyLeft m L X) = m /\
  forall i, i < m ->
    get (LMultiplyLeft m L X) i
    = snap (if i =? _columnIndex L
            then (get X i * get (_column L) (_columnIndex L))%D
            else (get X i + get X (_columnIndex L) * get (_column L) i)%D).
Proof.
  intros Hl Hk. unfold LMultiplyLeft.
  set (k := _columnIndex L) in *. set (c := _column L).
  set (P := fun j t => length t = m /\
              forall i, i < m ->
                get t i = if i <? j
                          then snap (if i =? k then (get X i * get c k)%D
                                     else (get X i + get X k * get c i)%D)
                          else get X i).
  assert (G : P m (forUp 0 m (fun i X0 =>
                     snapAt (if i =? k
                             then store X0 i (get X0 i * get c k)%D
                             else store X0 i (get X0 i + get X k * get c i)%D) i) X)).
  { apply (forUp_ind P); unfold P; [lia| |].
    - split; [exact Hl|]. intros i Hi. bcases.
    - intros j t Hj [Hlt Ht]. split.
      + destruct (j =? k); rewrite snap_store_length; exact Hlt.
      + intros i Hi. destruct (Nat.eqb_spec j k) as [->|Hne];
          rewrite get_snap_store, Hlt, !Ht by lia; bcases. }
  unfold P in G. destruct G as [G1 G2]. split; [exact G1|].
  intros i Hi. rewrite G2 by exact Hi. bcases.
Qed.

(** The equations the back-substitution loop establishes. *)
Lemma forwardU_equations m U t x :
  0 < m -> length x = m ->
  let x' := forwardU m U t x in
  length x' = m
  /\ get x' (m - 1) = get t (m - 1)
  /\ forall i, i < m - 1 ->
       get x' i
       = snap (get t i
               - forDown m (i + 1) (fun j sum => (sum + get U (i * m + j) * get x' j)%D) dzero)%D.
Proof.
  intros Hm Hx. cbv zeta. unfold forwardU.
  set (S := fun (a : list D) i =>
              forDown m (i + 1) (fun j sum => (sum + get U (i * m + j) * get a j)%D) dzero).
  set (P := fun i a => length a = m /\ get a (m - 1) = get t (m - 1) /\
              forall i', i <= i' < m - 1 -> get a i' = snap (get t i' - S a i')%D).
  assert (G : P 0 (forDown (m - 1) 0 (fun i a => snapAt (store a i (get t i - S a i)%D) i)
                     (store x (m - 1) (get t (m - 1))))).
  { apply (forDown_ind P); unfold P; [lia| |].
    - split; [rewrite store_length; exact Hx|]. split; [apply get_store_same; lia|].
      intros i' Hi'. lia.
    - intros i a Hi (Ha & Hlast & Heq).
      assert (HS : forall i', i <= i' ->
                S (snapAt (store a i (get t i - S a i)%D) i) i' = S a i').
      { intros i' Hi'. unfold S. apply forDown_ext. intros j s Hj.
        rewrite get_snap_store. bcases. }
      split; [rewrite snap_store_length; exact Ha|]. split.
      + rewrite get_snap_store. bcases.
      + intros i' Hi'. rewrite HS by lia. rewrite get_snap_store, Ha.
        destruct (Nat.eq_dec i i') as [<-|Hne]; [bcases|].
        replace (i =? i') with false by (symmetry; apply Nat.eqb_neq; exact Hne).
        cbn [andb]. apply Heq. lia. }
  unfold P in G. destruct G as (G1 & G2 & G3). split; [exact G1|]. split; [exact G2|].
  intros i Hi. apply G3. lia.
Qed.

(** The equations the forward-substitution loop establishes. *)
Lemma backwardU_equations m U t x :
  0 < m -> length x = m ->
  let x' := backwardU m U t x in
  length x' = m
  /\ get x' 0 = get t 0
  /\ forall i, 0 < i < m ->
       get x' i
       = snap (get t i
               - forUp 0 i (fun j sum => (sum + get U (i + j * m) * get x' j)%D) dzero)%D.
Proof.
  intros Hm Hx. cbv zeta. unfold backwardU.
  set (S := fun (a : list D) i =>
              forUp 0 i (fun j sum => (sum + get U (i + j * m) * get a j)%D) dzero).
  set (P := fun i a => length a = m /\ get a 0 = get t 0 /\
              forall i', 0 < i' < i -> get a i' = snap (get t i' - S a i')%D).
  assert (G : P m (forUp 1 m (fun i a => snapAt (store a i (get t i - S a i)%D) i)
                     (store x 0 (get t 0)))).
  { apply (forUp_ind P); unfold P; [lia| |].
    - split; [rewrite store_length; exact Hx|]. split; [apply get_store_same; lia|].
      intros i' Hi'. lia.
    - intros i a Hi (Ha & Hfirst & Heq).
      assert (HS : forall i', i' <= i ->
                S (snapAt (store a i (get t i - S a i)%D) i) i' = S a i').
      { intros i' Hi'. unfold S. apply forUp_ext. intros j s Hj.
        rewrite get_snap_store. bcases. }
      split; [rewrite snap_store_length; exact Ha|]. split.
      + rewrite get_snap_store. bcases.
      + intros i' Hi'. rewrite HS by lia. rewrite get_snap_store, Ha.
        destruct (Nat.eq_dec i i') as [<-|Hne]; [bcases|].
        replace (i =? i') with false by (symmetry; apply Nat.eqb_neq; exact Hne).
        cbn [andb]. apply Heq. lia. }
  unfold P in G. destruct G as (G1 & G2 & G3). auto.
Qed.

(** The entries one eta elimination leaves. *)
Lemma forwardEta_equations m eta x t :
  length x = m -> length t = m -> _columnIndex eta < m ->
  let x' := fst (forwardEta m (x, t) eta) in
  let k := _columnIndex eta in
  length x' = m /\ snd (forwardEta m (x, t) eta) = x'
  /\ get x' k = snap (get t k / get (_column eta) k)%D
  /\ forall i, i < m -> i <> k ->
       get x' i = snap (get t i - get x' k * get (_column eta) i)%D.
Proof.
  intros Hx Ht Hk. cbv zeta.
  destruct (forwardEta_lengths m eta x t Hx Ht) as [L1 L2].
  split; [exact L1|]. split.
  { unfold forwardEta. cbn [fst snd]. apply memcpy_exact; [exact Ht|].
    unfold forwardEta in L1. exact L1. }
  unfold forwardEta. cbn [fst].
  set (k := _columnIndex eta) in *. set (c := _column eta).
  set (q := snap (get t k / get c k)%D).
  set (body := fun i x0 => snapAt (store x0 i (get t i - get x0 k * get c i)%D) i).
  set (x1 := snapAt (store x k (get t k / get c k)%D) k).
  assert (H1 : length x1 = m /\ get x1 k = q).
  { unfold x1. split; [rewrite snap_store_length; exact Hx|].
    rewrite get_snap_store, Hx. unfold q. bcases. }
  destruct H1 as [Hl1 Hq1].
  set (P2 := fun j a => length a = m /\ get a k = q /\
               forall i, k < i < j -> get a i = snap (get t i - q * get c i)%D).
  assert (G2 : P2 m (forUp (k + 1) m body x1)).
  { apply (forUp_ind P2); unfold P2; [lia| |].
    - repeat split; try assumption. intros i Hi. lia.
    - intros j a Hj (Ha & Hqa & Hrows). unfold body.
      split; [rewrite snap_store_length; exact Ha|]. split.
      + rewrite get_snap_store. bcases.
      + intros i Hi. rewrite get_snap_store, Ha, Hqa.
        destruct (Nat.eq_dec j i) as [<-|Hne]; [bcases|].
        replace (j =? i) with false by (symmetry; apply Nat.eqb_neq; exact Hne).
        cbn [andb]. apply Hrows. lia. }
  unfold P2 in G2. destruct G2 as (Hl2 & Hq2 & Hrows2).
  set (x2 := forUp (k + 1) m body x1) in *.
  set (P3 := fun j a => length a = m /\ get a k = q /\
               (forall i, k < i < m -> get a i = snap (get t i - q * get c i)%D) /\
               forall i, j <= i < k -> get a i = snap (get t i - q * get c i)%D).
  assert (G3 : P3 0 (forDown k 0 body x2)).
  { apply (forDown_ind P3); unfold P3; [lia| |].
    - repeat split; try assumption. intros i Hi. lia.
    - intros j a Hj (Ha & Hqa & Hup & Hrows). unfold body.
      split; [rewrite snap_store_length; exact Ha|]. split; [|split].
      + rewrite get_snap_store. bcases.
      + intros i Hi. rewrite get_snap_store. bcases. apply Hup. lia.
      + intros i Hi. rewrite get_snap_store, Ha, Hqa.
        destruct (Nat.eq_dec j i) as [<-|Hne]; [bcases|].
        replace (j =? i) with false by (symmetry; apply Nat.eqb_neq; exact Hne).
        cbn [andb]. apply Hrows. lia. }
  unfold P3 in G3. destruct G3 as (_ & Hq3 & Hup3 & Hlow3).
  split; [exact Hq3|]. intros i Hi Hne. rewrite Hq3.
  destruct (Nat.lt_trichotomy i k) as [Hlt|[->|Hgt]]; [apply Hlow3; lia|lia|apply Hup3; lia].
Qed.

End TriangularSolves.

(** ** The backward transformation *)

Section Backward.
Context {D : Type} {DD : Double D}.
Implicit Types (st : BasisFactorization D) (x y t : list D).

(** Two buffers of size [m] that agree on the rows below [hi]. *)
Lemma agree_below_all m a b :
  length a = m -> length b = m -> (forall j, j < m -> get a j = get b j) -> a = b.
Proof.
  intros Ha Hb H. apply array_ext; [congruence|]. intros i Hi. apply H. lia.
Qed.

(** The elimination of U overwrites the whole of [x]. *)
Lemma backwardU_indep m U t x x' :
  0 < m -> length x = m -> length x' = m ->
  backwardU m U t x = backwardU m U t x'.
Proof.
  intros Hm Hx Hx'. unfold backwardU.
  set (R := fun i (a b : list D) =>
              length a = m /\ length b = m /\ forall j, j < i -> get a j = get b j).
  assert (G : R m
            (forUp 1 m (fun i x0 =>
               snapAt (store x0 i
                 (get t i - forUp 0 i (fun j sum => (sum + get U (i + j * m) * get x0 j)%D)
                              dzero)%D) i) (store x 0 (get t 0)))
            (forUp 1 m (fun i x0 =>
               snapAt (store x0 i
                 (get t i - forUp 0 i (fun j sum => (sum + get U (i + j * m) * get x0 j)%D)
                              dzero)%D) i) (store x' 0 (get t 0)))).
  { apply (forUp_rel R); unfold R; [lia| |].
    - rewrite !store_length. repeat split; try assumption.
      intros j Hj. replace j with 0 by lia. rewrite !get_store_same by lia. reflexivity.
    - intros i a b Hi (Ha & Hb & Hab).
      assert (Hsum : forUp 0 i (fun j sum => (sum + get U (i + j * m) * get a j)%D) dzero
                   = forUp 0 i (fun j sum => (sum + get U (i + j * m) * get b j)%D) dzero).
      { apply forUp_ext. intros j s Hj. rewrite Hab by lia. reflexivity. }
      rewrite Hsum. repeat split; rewrite ?snap_store_length; try assumption.
      intros j Hj. rewrite !get_snap_store, Ha, Hb.
      agree_step i j Hab. }
  unfold R in G. destruct G as (G1 & G2 & G3). apply (agree_below_all m); assumption.
Qed.

(** One eta of the backward solve starts by copying the scratch buffer
    over [x]. *)
Lemma backwardEta_indep m t x x' eta :
  length x = m -> length x' = m ->
  backwardEta m (x, t) eta = backwardEta m (x', t) eta.
Proof.
  intros Hx Hx'. unfold backwardEta. rewrite !(memcpy_full _ t m) by assumption.
  reflexivity.
Qed.

Lemma backwardEta_lengths m eta x t :
  length x = m -> length t = m ->
  length (fst (backwardEta m (x, t) eta)) = m /\ length (snd (backwardEta m (x, t) eta)) = m.
Proof.
  intros Hx Ht. unfold backwardEta. cbn [fst snd].
  split; [|rewrite memcpy_length; exact Ht].
  rewrite snapAt_length, store_length.
  apply (forUp_preserve (fun a => length a = m)).
  - rewrite store_length, memcpy_length. exact Hx.
  - intros i a _ Ha. destruct (i =? _columnIndex eta); [exact Ha|].
    rewrite store_length. exact Ha.
Qed.

Lemma backwardEtas_lengths m etas : forall x t,
  length x = m -> length t = m ->
  length (fst (fold_left (backwardEta m) etas (x, t))) = m
  /\ length (snd (fold_left (backwardEta m) etas (x, t))) = m.
Proof.
  induction etas as [|e etas IH]; intros x t Hx Ht; cbn [fold_left]; [auto|].
  destruct (backwardEta_lengths m e x t Hx Ht) as [H1 H2].
  destruct (backwardEta m (x, t) e) as [x1 t1]. apply IH; assumption.
Qed.

Lemma backwardU_length m U t x : length (backwardU m U t x) = length x.
Proof.
  unfold backwardU.
  apply (forUp_preserve (fun a => length a = length x)).
  - apply store_length.
  - intros i a _ Ha. rewrite snap_store_length. exact Ha.
Qed.

Lemma backwardLP_length m LP : forall x, length (backwardLP m LP x) = length x.
Proof.
  unfold backwardLP. induction LP as [|e LP IH]; intros x; cbn [fold_left]; [reflexivity|].
  rewrite IH. destruct e as [a b|L].
  - unfold swapEntries. rewrite !store_length. reflexivity.
  - unfold LMultiplyRight. apply store_length.
Qed.

Lemma backwardStages_lengths m U LP etas x t :
  length x = m -> length t = m ->
  length (fst (backwardStages m U LP etas (x, t))) = m
  /\ length (snd (backwardStages m U LP etas (x, t))) = m.
Proof.
  intros Hx Ht. unfold backwardStages.
  destruct (backwardEtas_lengths m (rev etas) x t Hx Ht) as [H1 H2].
  destruct (fold_left (backwardEta m) (rev etas) (x, t)) as [x1 t1]. cbn [fst snd] in *.
  split; [|exact H2]. rewrite backwardLP_length.
  destruct LP; [exact H1|]. rewrite backwardU_length. exact H1.
Qed.

(** Unless both lists are empty, the stages overwrite the whole of [x]. *)
Lemma backwardStages_indep m U LP etas t x x' :
  0 < m -> length x = m -> length x' = m ->
  LP <> [] \/ etas <> [] ->
  backwardStages m U LP etas (x, t) = backwardStages m U LP etas (x', t).
Proof.
  intros Hm Hx Hx' Hne. unfold backwardStages.
  destruct (rev etas) as [|e es] eqn:E.
  - cbn [fold_left]. destruct LP as [|l LP].
    + destruct Hne as [H|H]; [congruence|].
      apply (f_equal (@rev _)) in E. rewrite rev_involutive in E. simpl in E. congruence.
    + rewrite (backwardU_indep m U t x x' Hm Hx Hx'). reflexivity.
  - cbn [fold_left]. rewrite (backwardEta_indep m t x x' e Hx Hx'). reflexivity.
Qed.

Lemma backwardTransformation_trivial st y x :
  _etas st = [] -> _LP st = [] ->
  backwardTransformation st y x = (st, memcpy x y (_m st)).
Proof. intros E1 E2. unfold backwardTransformation. rewrite E1, E2. reflexivity. Qed.

Lemma backwardTransformation_stages st y x :
  _LP st <> [] \/ _etas st <> [] ->
  backwardTransformation st y x
  = (with_tempY st (snd (backwardStages (_m st) (_U st) (_LP st) (_etas st)
                           (x, memcpy (_tempY st) y (_m st)))),
     fst (backwardStages (_m st) (_U st) (_LP st) (_etas st)
            (x, memcpy (_tempY st) y (_m st)))).
Proof.
  intros Hne. unfold backwardTransformation, backwardStages.
  destruct (_etas st) as [|e es]; destruct (_LP st) as [|l ls];
    [destruct Hne; congruence| | |];
    match goal with
    | |- context [fold_left ?f ?l ?xt] => destruct (fold_left f l xt); reflexivity
    end.
Qed.

(** On a well-formed engine, [backwardTransformation] writes only the
    scratch buffer and the output; a second call with the same [y], into
    the same output buffer or into any other buffer of size m, gives the
    same output and leaves the same engine. *)
Theorem backward_deterministic st y x :
  wellFormed st = true -> length x = _m st ->
  let st1 := fst (backwardTransformation st y x) in
  let x1 := snd (backwardTransformation st y x) in
  sameObservable st st1
  /\ _m st1 = _m st /\ _factorizationEnabled st1 = _factorizationEnabled st
  /\ _LCol st1 = _LCol st
  /\ length x1 = _m st
  /\ forall x', length x' = _m st -> backwardTransformation st1 y x' = (st1, x1).
Proof.
  intros Hwf Hx.
  destruct (wellFormed_sizes st Hwf) as (Hm & _ & _ & Ht & _).
  destruct (backwardTransformation_frame st y x) as (F1 & F2 & F3 & F4 & F5 & F6 & F7).
  assert (Hany : forall x', length x' = _m st ->
            backwardTransformation (fst (backwardTransformation st y x)) y x'
            = (fst (backwardTransformation st y x), snd (backwardTransformation st y x))
            /\ length (snd (backwardTransformation st y x)) = _m st).
  { intros x' Hx'.
    assert (Hcases : (_etas st = [] /\ _LP st = []) \/ (_LP st <> [] \/ _etas st <> [])).
    { destruct (_etas st); [destruct (_LP st)|]; [left; auto|right; left|right; right];
        discriminate. }
    destruct Hcases as [[E1 E2]|Hne].
    - rewrite (backwardTransformation_trivial st y x E1 E2). cbn [fst snd].
      rewrite (backwardTransformation_trivial st y x' E1 E2).
      rewrite !memcpy_full by assumption. split; [reflexivity|].
      rewrite length_map, length_seq. reflexivity.
    - rewrite (backwardTransformation_stages st y x Hne). cbn [fst snd].
      destruct (backwardStages_lengths (_m st) (_U st) (_LP st) (_etas st)
                  x (memcpy (_tempY st) y (_m st)) Hx) as [L1 L2];
        [rewrite memcpy_length; exact Ht|].
      split; [|exact L1].
      rewrite backwardTransformation_stages by exact Hne.
      unfold with_tempY. cbn [_m _U _LP _etas _tempY _B0 _factorizationEnabled _LCol].
      rewrite (memcpy_full (snd _)) by exact L2.
      rewrite <- (memcpy_full (_tempY st)) by exact Ht.
      rewrite (backwardStages_indep (_m st) (_U st) (_LP st) (_etas st) _ x' x Hm Hx' Hx Hne).
      reflexivity. }
  cbv zeta. repeat split; try assumption.
  - apply (Hany x Hx).
  - intros x' Hx'. apply (Hany x' Hx').
Qed.
End Backward.

(** ** What the solver loops compute *)

Section SolverLoops.
Context {D : Type} {DD : Double D}.
Implicit Types (U t x : list D).

(** The back-substitution of [forwardTransformation]: the last entry of
    the result is the last entry of the right-hand side, unsnapped, and
    every other entry is the zero-snapped difference between the
    right-hand side and the part of its row of U right of the diagonal
    applied to the result itself; what [x] held before is irrelevant. *)
Theorem forwardU_back_substitution m U t x :
  0 < m -> length x = m ->
  let x' := forwardU m U t x in
  length x' = m
  /\ get x' (m - 1) = get t (m - 1)
  /\ (forall i, i < m - 1 ->
        get x' i
        = snap (get t i
                - forDown m (i + 1)
                    (fun j sum => (sum + get U (i * m + j) * get x' j)%D) dzero)%D)
  /\ forall x0, length x0 = m -> forwardU m U t x0 = x'.
Proof.
  intros Hm Hx. cbv zeta.
  destruct (forwardU_equations m U t x Hm Hx) as (E1 & E2 & E3).
  repeat split; try assumption.
  intros x0 Hx0. apply forwardU_indep; assumption.
Qed.

(** The forward substitution of [backwardTransformation], with the
    transposed access to U: the first entry of the result is the first
    entry of the right-hand side, and every other entry is the zero-snapped
    difference between the right-hand side and the part of its column of U
    above the diagonal applied to the result itself; what [x] held before
    is irrelevant. *)
Theorem backwardU_forward_substitution m U t x :
  0 < m -> length x = m ->
  let x' := backwardU m U t x in
  length x' = m
  /\ get x' 0 = get t 0
  /\ (forall i, 0 < i < m ->
        get x' i
        = snap (get t i
                - forUp 0 i (fun j sum => (sum + get U (i + j * m) * get x' j)%D) dzero)%D)
  /\ forall x0, length x0 = m -> backwardU m U t x0 = x'.
Proof.
  intros Hm Hx. cbv zeta.
  destruct (backwardU_equations m U t x Hm Hx) as (E1 & E2 & E3).
  repeat split; try assumption.
  intros x0 Hx0. apply backwardU_indep; assumption.
Qed.

(** One eta of [forwardTransformation]: the entry at the eta's column is
    the zero-snapped quotient, every other entry the zero-snapped
    difference that uses it; the scratch buffer ends as a copy of the
    result, and what [x] held before is irrelevant. *)
Theorem forwardEta_entries m eta x t :
  length x = m -> length t = m -> _columnIndex eta < m ->
  let x' := fst (forwardEta m (x, t) eta) in
  let k := _columnIndex eta in
  length x' = m /\ snd (forwardEta m (x, t) eta) = x'
  /\ get x' k = snap (get t k / get (_column eta) k)%D
  /\ (forall i, i < m -> i <> k ->
        get x' i = snap (get t i - get x' k * get (_column eta) i)%D)
  /\ forall x0, length x0 = m -> forwardEta m (x0, t) eta = forwardEta m (x, t) eta.
Proof.
  intros Hx Ht Hk. cbv zeta.
  destruct (forwardEta_equations m eta x t Hx Ht Hk) as (E1 & E2 & E3 & E4).
  repeat split; try assumption.
  intros x0 Hx0. apply forwardEta_indep; assumption.
Qed.
End SolverLoops.

Section BackwardEta.
Context {D : Type} {DD : Double D}.
Implicit Types (t x : list D).

(** One eta of [backwardTransformation] changes only the entry at the
    eta's column.  The entries the loop reads from [x] are those of the
    scratch buffer, so the new entry is the right-hand side at k minus the
    products of the other entries with the eta's column, taken in index
    order, divided by the eta's own entry and zero-snapped; what [x] held
    before is irrelevant. *)
Theorem backwardEta_entries m eta x t :
  length x = m -> length t = m -> _columnIndex eta < m ->
  let x' := fst (backwardEta m (x, t) eta) in
  let k := _columnIndex eta in
  length x' = m /\ snd (backwardEta m (x, t) eta) = x'
  /\ (forall i, i < m -> i <> k -> get x' i = get t i)
  /\ get x' k
     = snap (forUp 0 m (fun i acc =>
                if i =? k then acc else (acc - get t i * get (_column eta) i)%D)
               (get t k) / get (_column eta) k)%D
  /\ forall x0, length x0 = m -> backwardEta m (x0, t) eta = backwardEta m (x, t) eta.
Proof.
  intros Hx Ht Hk. cbv zeta.
  destruct (backwardEta_lengths m eta x t Hx Ht) as [L1 L2].
  split; [exact L1|]. split.
  { unfold backwardEta. cbn [fst snd]. apply memcpy_exact; [exact Ht|].
    unfold backwardEta in L1. exact L1. }
  split; [|split; [|intros x0 Hx0; apply backwardEta_indep; assumption]].
  - intros i Hi Hne. unfold backwardEta. cbn [fst].
    rewrite (memcpy_exact x t m Hx Ht), store_get_same, get_snap_store.
    replace (_columnIndex eta =? i) with false by (symmetry; apply Nat.eqb_neq; lia).
    cbn [andb].
    apply (forUp_preserve (fun a => get a i = get t i)); [reflexivity|].
    intros j a _ Ha. destruct (j =? _columnIndex eta); [exact Ha|].
    rewrite get_store_other by lia. exact Ha.
  - unfold backwardEta. cbn [fst].
    rewrite (memcpy_exact x t m Hx Ht), store_get_same.
    set (k := _columnIndex eta) in *. set (c := _column eta).
    set (step := fun i acc => if i =? k then acc else (acc - get t i * get c i)%D).
    set (P := fun j a => length a = m /\ (forall i, i <> k -> get a i = get t i)
                         /\ get a k = forUp 0 j step (get t k)).
    assert (G : P m (forUp 0 m (fun i x0 =>
                       if i =? k then x0
                       else store x0 k (get x0 k - get x0 i * get c i)%D) t)).
    { apply (forUp_ind P); unfold P; [lia| |].
      - repeat split; try assumption.
      - intros j a Hj (Ha & Hoff & Hacc). rewrite forUp_last by lia. unfold step at 1.
        destruct (Nat.eqb_spec j k) as [->|Hne]; [auto|].
        split; [rewrite store_length; exact Ha|]. split.
        + intros i Hi. rewrite get_store_other by lia. apply Hoff. exact Hi.
        + rewrite get_store_same by lia. rewrite Hacc, (Hoff j Hne). reflexivity. }
    unfold P in G. destruct G as (Ga & _ & Gk).
    rewrite get_snap_store, Ga, Gk. bcases.
Qed.
End BackwardEta.

(** ** The LP list a factorization leaves *)

Section LPShape.
Context {D : Type} {DD : Double D}.
Implicit Types (st : BasisFactorization D).

Lemma factorizeStage_lpAfter m i st st' :
  i < m -> lpAfter m i st ->
  factorizeStage i st = (Returned, st') -> lpAfter m (i + 1) st'.
Proof.
  intros Hi (Hm & HU & HL & Hidx & Hall & Hlen) Hrun.
  destruct (factorizeStage_returned i st st' Hrun) as (_ & EU & ELP & EL & Em).
  cbv zeta in EU, ELP, EL, Em. rewrite Hm in *.
  destruct (findPivot_scan m (_U st) i Hi) as (Hb & _). cbv zeta in Hb.
  assert (Hshape : forall U1, length U1 = m * m ->
            length (buildLCol m i U1 (_LCol st)) = m
            /\ lpElementShape m (LPEta (EtaMatrix_new m i (buildLCol m i U1 (_LCol st))))).
  { intros U1 HU1. destruct (buildLCol_spec m i U1 (_LCol st) HL Hi) as [B1 B2].
    split; [exact B1|].
    cbn [lpElementShape EtaMatrix_new _columnIndex _column].
    rewrite length_map, length_seq. repeat split; try assumption.
    intros j Hj. rewrite get_map_seq, B2 by lia. bcases. }
  assert (Hidx' : forall (L : EtaMatrix D) (LP1 : list (LPElement D)), _columnIndex L = i -> lpEtaIndices LP1 = rev (seq 0 i) ->
            lpEtaIndices (LPEta L :: LP1) = rev (seq 0 (i + 1))).
  { intros L LP1 HLi H1. cbn [lpEtaIndices flat_map app].
    fold (lpEtaIndices LP1). rewrite H1, HLi.
    replace (i + 1) with (S i) by lia. rewrite seq_S, rev_app_distr. reflexivity. }
  unfold lpAfter. revert EU ELP EL.
  destruct (Nat.eqb_spec (snd (findPivot m (_U st) i)) i) as [Hbi|Hbi]; intros EU ELP EL;
    rewrite EU, ELP, EL, LFactorizationMultiply_U_length, ?rowSwap_length.
  - destruct (Hshape (_U st) HU) as [B1 S1].
    split; [exact Em|]. split; [exact HU|]. split; [exact B1|].
    split; [apply Hidx'; [reflexivity|exact Hidx]|].
    split; [constructor; assumption|]. cbn [length]. lia.
  - destruct (Hshape (rowSwap m i (snd (findPivot m (_U st) i)) (_U st))) as [B1 S1];
      [rewrite rowSwap_length; exact HU|].
    split; [exact Em|]. split; [exact HU|]. split; [exact B1|].
    split; [apply Hidx'; [reflexivity|exact Hidx]|].
    split; [|cbn [length]; lia].
    constructor; [exact S1|]. constructor; [|exact Hall].
    cbn [lpElementShape]. lia.
Qed.

Lemma factorizeLoop_lpAfter m n : forall i st st',
  i + n <= m -> lpAfter m i st ->
  factorizeLoop n i st = (Returned, st') -> lpAfter m (i + n) st'.
Proof.
  induction n as [|n IH]; intros i st st' Hin Hinv; cbn [factorizeLoop].
  - intros [= <-]. rewrite Nat.add_0_r. exact Hinv.
  - destruct (factorizeStage i st) as [[|e] st1] eqn:E; [|discriminate].
    intros Hrun. replace (i + S n) with (i + 1 + n) by lia.
    apply (IH (i + 1) st1 st'); [lia| |replace (i + 1) with (S i) by lia; exact Hrun].
    apply (factorizeStage_lpAfter m i st st1); [lia|exact Hinv|exact E].
Qed.

(** After a factorization that succeeds, the LP list holds one eta per
    column, with the column indices m-1, ..., 0 from front to back, and at
    most one permutation pair per column.  Every pair (i, j) has
    i < j < m, and every eta has a column of m entries that is zero above
    its own index. *)
Theorem factorization_LP_shape st M st' :
  length (_U st) = _m st * _m st -> length (_LCol st) = _m st ->
  factorizeMatrix st M = (Returned, st') ->
  lpEtaIndices (_LP st') = rev (seq 0 (_m st))
  /\ Forall (lpElementShape (_m st)) (_LP st')
  /\ _m st <= length (_LP st') <= 2 * _m st.
Proof.
  intros HU HL Hrun. unfold factorizeMatrix in Hrun.
  fold (factorizeInit st M) in Hrun.
  assert (H0 : lpAfter (_m st) 0 (factorizeInit st M)).
  { unfold lpAfter. cbn [factorizeInit clearLPU with_U with_LP _m _U _LCol _LP].
    rewrite memcpy_length, fill_n_length. repeat split; try assumption.
    - constructor.
    - cbn [length]. lia. }
  destruct (factorizeLoop_lpAfter (_m st) (_m st) 0 (factorizeInit st M) st'
              (Nat.le_refl _) H0 Hrun) as (_ & _ & _ & H4 & H5 & H6).
  cbn [Nat.add] in H4, H6. split; [exact H4|]. split; [exact H5|]. split; [|exact H6].
  assert (G : forall LP : list (LPElement D), length (lpEtaIndices LP) <= length LP).
  { induction LP as [|[a b|L] LP IH]; cbn [lpEtaIndices flat_map app length] in *;
      try fold (lpEtaIndices LP); lia. }
  specialize (G (_LP st')). rewrite H4, length_rev, length_seq in G. exact G.
Qed.
End LPShape.

(** ** Matrix products *)

Section MatrixMultiply.
Context {D : Type} {DD : Double D}.
Implicit Types (A B : list D).

(** [matrixMultiply] fills the whole of [result] with the sums of
    products of the rows of [left] with the columns of [right]. *)
Lemma matrixMultiply_entries m A B result :
  length result = m * m ->
  length (matrixMultiply m A B result) = m * m /\
  forall r c, r < m -> c < m ->
    entry m (matrixMultiply m A B result) r c = dotRowCol m A B r c.
Proof.
  intros Hl. unfold matrixMultiply.
  set (dot := fun r c => forUp 0 m (fun i sum =>
                (sum + get A (r * m + i) * get B (i * m + c))%D) dzero).
  set (P := fun j t => length t = m * m /\
              forall r c, r < m -> c < m ->
                entry m t r c = if r <? j then dot r c else entry m result r c).
  assert (G : P m (forUp 0 m (fun leftRow res =>
                     forUp 0 m (fun rightCol res0 =>
                       store res0 (leftRow * m + rightCol) (dot leftRow rightCol)) res)
                     result)).
  { apply (forUp_ind P); unfold P; [lia| |].
    - split; [exact Hl|]. intros r c _ _. reflexivity.
    - intros j t Hj [Hlt Ht].
      destruct (row_write m j (dot j) t Hlt) as [R1 R2]; [lia|].
      split; [exact R1|]. intros r c Hr Hc.
      rewrite R2, Ht by assumption. bcases. }
  unfold P in G. destruct G as [G1 G2]. split; [exact G1|].
  intros r c Hr Hc. rewrite G2 by assumption.
  destruct (Nat.ltb_spec r m); [|lia].
  unfold dot, dotRowCol, forUp, entry. rewrite Nat.sub_0_r. reflexivity.
Qed.
End MatrixMultiply.

Section Products.
Context {D : Type} {DD : Double D}.
Implicit Types (A B : list D).


(** The in-place update by which [condenseEtas] folds one eta into B0
    leaves every column but the eta's untouched, and writes into that
    column, bit for bit, the zero-snapped column of the product of B0 with
    the dense E(k, v) as [matrixMultiply] computes it. *)
Theorem condenseEta_is_product m B (eta : EtaMatrix D) result :
  length B = m * m -> length result = m * m -> _columnIndex eta < m ->
  forall r c, r < m -> c < m ->
    entry m (condenseEta m B eta) r c
    = if c =? _columnIndex eta
      then snap (entry m (matrixMultiply m B (denseEta m eta) result) r c)
      else entry m B r c.
Proof.
  intros HB Hres Hk r c Hr Hc.
  rewrite (condenseEta_timesEta m B eta HB Hk).
  destruct (matrixMultiply_entries m B (denseEta m eta) result Hres) as [_ E].
  rewrite E by assumption. unfold timesEta. rewrite entry_tabulate by assumption.
  destruct (Nat.eqb_spec c (_columnIndex eta)) as [->|Hne]; [|reflexivity].
  f_equal. unfold rowDot, dotRowCol.
  assert (G : forall l a, (forall j, In j l -> j < m) ->
            fold_left (fun sum j => (sum + entry m B r j * get (_column eta) j)%D) l a
            = fold_left (fun s i => (s + entry m B r i
                                         * entry m (denseEta m eta) i (_columnIndex eta))%D) l a).
  { induction l as [|j l IH]; intros a Hin; cbn [fold_left]; [reflexivity|].
    rewrite IH by (intros; apply Hin; right; assumption).
    unfold denseEta.
    rewrite entry_tabulate by (try assumption; apply Hin; left; reflexivity).
    rewrite Nat.eqb_refl. reflexivity. }
  apply G. intros j Hj. apply in_seq in Hj. lia.
Qed.
End Products.

(** ** Inversion writes a buffer of its own *)

Section InvertResult.
Context {D : Type} {DD : Double D}.
Implicit Types (st : BasisFactorization D).

Lemma applyLPElement_length m e R : length (applyLPElement m e R) = length R.
Proof.
  destruct e as [a b|L]; cbn [applyLPElement]; [apply rowSwap_length|].
  apply (forUp_preserve (fun t => length t = length R)).
  - apply (forUp_preserve (fun t => length t = length R)); [reflexivity|].
    intros row t _ Ht.
    apply (forUp_preserve (fun t => length t = length R)); [exact Ht|].
    intros col t' _ Ht'. rewrite store_length. exact Ht'.
  - intros i t _ Ht. rewrite store_length. exact Ht.
Qed.

Lemma applyLP_length m LP R : length (applyLP m LP R) = length R.
Proof.
  unfold applyLP. generalize (rev LP) as l. intros l. revert R.
  induction l as [|e l IH]; intros R; cbn [fold_left]; [reflexivity|].
  rewrite IH. apply applyLPElement_length.
Qed.

Lemma invertU_length m U R : length (invertU m U R) = length R.
Proof.
  unfold invertU.
  apply (forDown_preserve (fun t => length t = length R)); [reflexivity|].
  intros col t _ Ht.
  apply (forDown_preserve (fun t => length t = length R)); [exact Ht|].
  intros row t' _ Ht'. destruct (FloatUtils_isZero _); [exact Ht'|].
  apply (forUp_preserve (fun t => length t = length R)); [exact Ht'|].
  intros k t'' _ Ht''. rewrite store_length. exact Ht''.
Qed.

(** With an empty eta stack [invertB0] returns, leaves the engine as it
    was, and fills the whole m x m buffer: what the buffer held before the
    call has no influence on what it holds after. *)
Theorem invertB0_overwrites_result st result :
  _etas st = [] -> length result = _m st * _m st ->
  fst (invertB0 st result) = (Returned, st)
  /\ length (snd (invertB0 st result)) = _m st * _m st
  /\ forall result', length result' = _m st * _m st ->
       invertB0 st result' = invertB0 st result.
Proof.
  intros He Hl.
  assert (Hform : forall r, length r = _m st * _m st ->
            invertB0 st r
            = (Returned, st,
               match _LP st with
               | [] => identity (_m st)
               | _ :: _ => invertU (_m st) (_U st) (applyLP (_m st) (_LP st) (identity (_m st)))
               end)).
  { intros r Hr. unfold invertB0. rewrite He, (invertB0_init (_m st) r Hr).
    destruct (_LP st); reflexivity. }
  rewrite (Hform result Hl). cbn [fst snd]. split; [reflexivity|]. split.
  - destruct (_LP st).
    + apply tabulate_length.
    + rewrite invertU_length, applyLP_length. apply tabulate_length.
  - intros result' Hl'. apply Hform. exact Hl'.
Qed.
End InvertResult.

(** ** The product of the LP list and U *)

Section ProductAgreement.
Context {D : Type} {DD : Double D}.
Implicit Types (st : BasisFactorization D) (U M P : list D).

Lemma agreeAbove_swap m i b P U :
  length P = m * m -> length U = m * m -> i <= b < m ->
  agreeAbove m i P U ->
  agreeAbove m i (if b =? i then P else rowSwap m i b P)
                 (if b =? i then U else rowSwap m i b U).
Proof.
  intros HP HU Hb Hagree.
  destruct (Nat.eqb_spec b i) as [->|Hne]; [exact Hagree|].
  destruct (rowSwap_spec m i b P HP) as [_ SP]; [lia|lia|lia|].
  destruct (rowSwap_spec m i b U HU) as [_ SU]; [lia|lia|lia|].
  intros r c Hr Hc Hrc. rewrite SP, SU by assumption.
  destruct (Nat.eqb_spec r i) as [->|Hri]; [apply Hagree; lia|].
  destruct (Nat.eqb_spec r b) as [->|Hrb]; apply Hagree; lia.
Qed.

Lemma scaledDiagonal_swap m i b P :
  length P = m * m -> i <= b < m -> scaledDiagonal m i P ->
  scaledDiagonal m i (if b =? i then P else rowSwap m i b P).
Proof.
  intros HP Hb Hd.
  destruct (Nat.eqb_spec b i) as [->|Hne]; [exact Hd|].
  destruct (rowSwap_spec m i b P HP) as [_ SP]; [lia|lia|lia|].
  intros r Hr Hrm. rewrite SP by assumption.
  destruct (Nat.eqb_spec r i) as [->|Hri]; [lia|].
  destruct (Nat.eqb_spec r b) as [->|Hrb]; [lia|]. apply Hd; assumption.
Qed.

(** The row operations of the stage's L on the product and the update of
    U by [LFactorizationMultiply] are the same floating-point operations
    on the columns after [i]; in column [i] the code stores 1.0 and 0.0
    where the product holds what the operations compute. *)
Lemma agreeAbove_eliminate m i L P U :
  length P = m * m -> length U = m * m -> _columnIndex L = i -> i < m ->
  agreeAbove m i P U ->
  agreeAbove m (i + 1) (applyLPElement m (LPEta L) P) (LFactorizationMultiply_U m L U).
Proof.
  intros HP HU Hk Hi Hagree.
  destruct (applyLPElement_eta_spec m L P HP) as [_ SP]; [lia|].
  destruct (LFactorizationMultiply_U_spec m L U HU) as [_ SU]; [lia|].
  intros r c Hr Hc Hrc. rewrite SP, SU by assumption. rewrite Hk.
  destruct (Nat.eqb_spec r i) as [->|Hri].
  - destruct (Nat.eqb_spec c i) as [->|Hci]; [lia|].
    destruct (Nat.ltb_spec i c) as [Hlt|Hge]; [|lia].
    rewrite (Hagree i c) by (try assumption; lia). reflexivity.
  - destruct (Nat.ltb_spec i r) as [Hlt|Hge].
    + destruct (Nat.eqb_spec c i) as [->|Hci]; [lia|].
      destruct (Nat.ltb_spec i c) as [Hlt'|Hge']; [|lia].
      rewrite (Hagree r c), (Hagree i c) by (try assumption; lia). reflexivity.
    + apply Hagree; try assumption. lia.
Qed.

Lemma scaledDiagonal_eliminate m i L P U1 LCol :
  length P = m * m -> length U1 = m * m -> length LCol = m -> i < m ->
  L = EtaMatrix_new m i (buildLCol m i U1 LCol) ->
  FloatUtils_isZero (FloatUtils_abs (entry m U1 i i)) = false ->
  agreeAbove m i P U1 -> scaledDiagonal m i P ->
  scaledDiagonal m (i + 1) (applyLPElement m (LPEta L) P).
Proof.
  intros HP HU HL Hi -> Hnz Hagree Hd.
  destruct (applyLPElement_eta_spec m (EtaMatrix_new m i (buildLCol m i U1 LCol)) P HP)
    as [_ SP]; [exact Hi|].
  destruct (buildLCol_spec m i U1 LCol HL Hi) as [_ B].
  intros r Hr Hrm. rewrite SP by assumption. cbn [_columnIndex EtaMatrix_new _column].
  destruct (Nat.eqb_spec r i) as [->|Hri].
  - exists (entry m U1 i i). split; [exact Hnz|].
    rewrite get_map_seq, B by assumption.
    rewrite Nat.ltb_irrefl, Nat.eqb_refl.
    rewrite (Hagree i i) by (try assumption; lia). reflexivity.
  - destruct (Nat.ltb_spec i r) as [Hlt|Hge]; [lia|]. apply Hd; [lia|assumption].
Qed.

(** A returning stage keeps the product of the LP list with M and U in
    step on the part of the matrix the stage has not cleared. *)
Lemma factorizeStage_agree i st st' M :
  i < _m st -> length (_U st) = _m st * _m st -> length (_LCol st) = _m st ->
  length M = _m st * _m st ->
  agreeAbove (_m st) i (applyLP (_m st) (_LP st) M) (_U st) ->
  scaledDiagonal (_m st) i (applyLP (_m st) (_LP st) M) ->
  factorizeStage i st = (Returned, st') ->
  _m st' = _m st /\ length (_U st') = _m st * _m st /\ length (_LCol st') = _m st
  /\ agreeAbove (_m st) (i + 1) (applyLP (_m st) (_LP st') M) (_U st')
  /\ scaledDiagonal (_m st) (i + 1) (applyLP (_m st) (_LP st') M).
Proof.
  intros Hi HU HL HM Hagree Hd Hrun.
  destruct (factorizeStage_returned i st st' Hrun) as (Hz & EU & ELP & EL & Em).
  cbv zeta in Hz, EU, ELP, EL, Em.
  destruct (findPivot_scan (_m st) (_U st) i Hi) as (Hb & Hl & _). cbv zeta in Hb, Hl.
  set (m := _m st) in *. set (b := snd (findPivot m (_U st) i)) in *.
  set (P := applyLP m (_LP st) M) in *.
  assert (HP : length P = m * m) by (unfold P; rewrite applyLP_length; exact HM).
  set (U1 := if b =? i then _U st else rowSwap m i b (_U st)) in *.
  set (P1 := if b =? i then P else rowSwap m i b P).
  assert (HU1 : length U1 = m * m).
  { unfold U1. destruct (b =? i); [exact HU|]. rewrite rowSwap_length. exact HU. }
  assert (HP1 : length P1 = m * m).
  { unfold P1. destruct (b =? i); [exact HP|]. rewrite rowSwap_length. exact HP. }
  assert (A1 : agreeAbove m i P1 U1) by (apply agreeAbove_swap; assumption).
  assert (D1 : scaledDiagonal m i P1) by (apply scaledDiagonal_swap; assumption).
  assert (Hpiv : entry m U1 i i = entry m (_U st) b i).
  { unfold U1. destruct (Nat.eqb_spec b i) as [E|E]; [rewrite E; reflexivity|].
    destruct (rowSwap_spec m i b (_U st) HU) as [_ S]; [lia|lia|lia|].
    rewrite S by lia. rewrite Nat.eqb_refl. reflexivity. }
  assert (EP : applyLP m (_LP st') M
               = applyLPElement m (LPEta (EtaMatrix_new m i (buildLCol m i U1 (_LCol st)))) P1).
  { rewrite ELP, applyLP_cons. f_equal. unfold P1, P.
    destruct (b =? i); [reflexivity|]. rewrite applyLP_cons. reflexivity. }
  split; [exact Em|]. split; [rewrite EU, LFactorizationMultiply_U_length; exact HU1|].
  split; [rewrite EL, buildLCol_length; exact HL|].
  rewrite EP, EU. split.
  - apply agreeAbove_eliminate; try assumption. reflexivity.
  - apply (scaledDiagonal_eliminate m i _ P1 U1 (_LCol st)); try assumption; [reflexivity|].
    rewrite Hpiv, <- Hl. exact Hz.
Qed.

Lemma factorizeLoop_agree n M : forall i st st',
  i + n <= _m st -> length (_U st) = _m st * _m st -> length (_LCol st) = _m st ->
  length M = _m st * _m st ->
  agreeAbove (_m st) i (applyLP (_m st) (_LP st) M) (_U st) ->
  scaledDiagonal (_m st) i (applyLP (_m st) (_LP st) M) ->
  factorizeLoop n i st = (Returned, st') ->
  agreeAbove (_m st) (i + n) (applyLP (_m st) (_LP st') M) (_U st')
  /\ scaledDiagonal (_m st) (i + n) (applyLP (_m st) (_LP st') M).
Proof.
  induction n as [|n IH]; intros i st st' Hin HU HL HM Hagree Hd; cbn [factorizeLoop].
  - intros [= <-]. rewrite Nat.add_0_r. auto.
  - destruct (factorizeStage i st) as [[|e] st1] eqn:E; [|discriminate].
    intros Hrun.
    destruct (factorizeStage_agree i st st1 M) as (E1 & E2 & E3 & E4 & E5);
      try assumption; [lia|].
    replace (i + S n) with (i + 1 + n) by lia. rewrite <- E1.
    apply (IH (i + 1) st1 st'); rewrite ?E1; try assumption; try lia.
    replace (i + 1) with (S i) by lia. exact Hrun.
Qed.

(** After a factorization that succeeds, the LP list applied to M agrees
    with U above the diagonal, bit for bit, and has d * (1 / d) on its
    diagonal. *)
Lemma factorizeMatrix_agrees st M st' :
  length (_U st) = _m st * _m st -> length (_LCol st) = _m st ->
  length M = _m st * _m st ->
  factorizeMatrix st M = (Returned, st') ->
  let P := applyLP (_m st) (_LP st') M in
  length P = _m st * _m st
  /\ (forall r c, r < c -> c < _m st -> entry (_m st) P r c = entry (_m st) (_U st') r c)
  /\ (forall r, r < _m st ->
        exists d, FloatUtils_isZero (FloatUtils_abs d) = false
                  /\ entry (_m st) P r r = (d * (done / d))%D).
Proof.
  intros HU HL HM Hrun. cbv zeta.
  split; [rewrite applyLP_length; exact HM|].
  unfold factorizeMatrix in Hrun. fold (factorizeInit st M) in Hrun.
  assert (H0 : _U (factorizeInit st M) = M).
  { cbn [factorizeInit _U _m with_U clearLPU with_LP].
    apply memcpy_exact; [rewrite fill_n_length; exact HU|exact HM]. }
  destruct (factorizeLoop_agree (_m st) M 0 (factorizeInit st M) st') as [A B].
  - apply Nat.le_refl.
  - rewrite H0. exact HM.
  - exact HL.
  - exact HM.
  - rewrite H0. intros r c _ _ _. reflexivity.
  - intros r Hr. lia.
  - exact Hrun.
  - cbn [factorizeInit _m with_U clearLPU with_LP Nat.add] in A, B. split.
    + intros r c Hrc Hc. apply A; lia.
    + intros r Hr. apply B; assumption.
Qed.

End ProductAgreement.



(** ** Refactorization *)

Section Refactorization.
Context {D : Type} {DD : Double D}.
Variable T : nat.
Implicit Types (st : BasisFactorization D) (M : list D).

(** When [setB0] returns, B0 is the argument, the eta stack is as before,
    and the engine holds the factorization of B0 the code computes: U is
    upper-triangular with unit diagonal, exactly, and the LP list applied
    to B0 agrees with U, bit for bit, in every entry above the diagonal. *)
Theorem setB0_factorizes st M st' :
  wellFormed st = true -> length M = _m st * _m st ->
  setB0 st M = (Returned, st') ->
  _B0 st' = M /\ _etas st' = _etas st
  /\ unitUpper (_m st) (_U st')
  /\ forall r c, r < c -> c < _m st ->
       entry (_m st) (applyLP (_m st) (_LP st') (_B0 st')) r c = entry (_m st) (_U st') r c.
Proof.
  intros Hwf HM Hrun.
  destruct (wellFormed_sizes st Hwf) as (_ & HB & HU & _ & HL).
  pose proof (setB0_keeps st M) as K. rewrite Hrun in K. cbn [snd] in K.
  destruct K as (K1 & _ & _ & K4).
  rewrite (memcpy_exact (_B0 st) M _ HB HM) in K4.
  unfold setB0 in Hrun. rewrite (memcpy_exact (_B0 st) M _ HB HM) in Hrun.
  cbn [with_B0 _B0] in Hrun.
  split; [exact K4|]. split; [exact K1|]. rewrite K4. split.
  - destruct (factorizeMatrix_unitUpper (with_B0 st M) M st' HU HL Hrun)
      as (_ & _ & H). exact H.
  - destruct (factorizeMatrix_agrees (with_B0 st M) M st' HU HL HM Hrun) as (_ & H & _).
    exact H.
Qed.

(** When a push takes the eta stack above the threshold with factorization
    enabled and the refactorization returns, the eta stack is empty, B0 is
    the old implicit basis multiplied by the new eta, and the engine holds
    the factorization of that B0 the code computes. *)
Theorem pushEtaMatrix_refactorizes st k v st' :
  wellFormed st = true -> k < _m st ->
  _factorizationEnabled st = true -> T < length (_etas st) + 1 ->
  pushEtaMatrix T st k v = (Returned, st') ->
  _etas st' = []
  /\ _B0 st' = timesEta (_m st) (implicitBasis st) (EtaMatrix_new (_m st) k v)
  /\ unitUpper (_m st) (_U st')
  /\ forall r c, r < c -> c < _m st ->
       entry (_m st) (applyLP (_m st) (_LP st') (_B0 st')) r c = entry (_m st) (_U st') r c.
Proof.
  intros Hwf Hk Hon Hgt Hrun.
  set (appended := with_etas st (_etas st ++ [EtaMatrix_new (_m st) k v])).
  assert (Heq : pushEtaMatrix T st k v
                = factorizeMatrix (condenseEtas appended) (_B0 (condenseEtas appended))).
  { unfold pushEtaMatrix. simpl. fold appended. rewrite length_app, Hon. simpl.
    destruct (Nat.ltb_spec T (length (_etas st) + 1)); [reflexivity|lia]. }
  rewrite Heq in Hrun. clear Heq.
  assert (Happ : wellFormed appended = true).
  { pose proof (pushEtaMatrix_wellFormed (length (_etas st) + 1) st k v Hk Hwf) as W.
    unfold pushEtaMatrix in W. cbn [with_etas _etas] in W.
    rewrite length_app in W. cbn [length] in W.
    rewrite Nat.ltb_irrefl in W. exact W. }
  pose proof (condenseEtas_wellFormed appended Happ) as Hc.
  destruct (wellFormed_sizes _ Hc) as (_ & HB0 & HU & _ & HL).
  pose proof Hrun as Hkeep. apply factorizeMatrix_keeps in Hkeep.
  destruct Hkeep as (_ & KB & KE & _).
  assert (Hetas : _etas st' = []) by (rewrite KE; reflexivity).
  assert (HB' : _B0 st' = timesEta (_m st) (implicitBasis st) (EtaMatrix_new (_m st) k v)).
  { rewrite KB, (condenseEtas_B0 appended Happ). apply implicitBasis_append. }
  split; [exact Hetas|]. split; [exact HB'|]. split.
  - destruct (factorizeMatrix_unitUpper (condenseEtas appended)
                (_B0 (condenseEtas appended)) st' HU HL Hrun) as (_ & _ & H).
    exact H.
  - rewrite KB.
    destruct (factorizeMatrix_agrees (condenseEtas appended)
                (_B0 (condenseEtas appended)) st' HU HL HB0 Hrun) as (_ & H & _).
    exact H.
Qed.
End Refactorization.

(** ** Instances *)

Lemma LMultiplyLeft_entries_witness :
  get (DD := f64)
    (LMultiplyLeft (DD := f64) 2 (EtaMatrix_new (DD := f64) 2 0 [2; 3]%float) [5; 7]%float) 1
  = snap (DD := f64) (7 + 5 * 3)%float.
Proof.
  apply (proj2 (LMultiplyLeft_entries (DD := f64) 2
                  (EtaMatrix_new (DD := f64) 2 0 [2; 3]%float) [5; 7]%float
                  eq_refl (Nat.lt_0_succ 1)) 1 (Nat.lt_succ_diag_r 1)).
Defined.

Lemma forwardU_back_substitution_witness :
  forwardU (DD := f64) 2 [1; 3; 0; 1]%float [5; 7]%float [9; 9]%float
  = forwardU (DD := f64) 2 [1; 3; 0; 1]%float [5; 7]%float [0; 0]%float.
Proof.
  destruct (forwardU_back_substitution (DD := f64) 2 [1; 3; 0; 1]%float [5; 7]%float
              [0; 0]%float (Nat.lt_0_succ 1) eq_refl) as (_ & _ & _ & H).
  apply H. reflexivity.
Defined.

Lemma backwardU_forward_substitution_witness :
  backwardU (DD := f64) 2 [1; 3; 0; 1]%float [5; 7]%float [9; 9]%float
  = backwardU (DD := f64) 2 [1; 3; 0; 1]%float [5; 7]%float [0; 0]%float.
Proof.
  destruct (backwardU_forward_substitution (DD := f64) 2 [1; 3; 0; 1]%float [5; 7]%float
              [0; 0]%float (Nat.lt_0_succ 1) eq_refl) as (_ & _ & _ & H).
  apply H. reflexivity.
Defined.

Lemma forwardEta_entries_witness :
  get (DD := f64)
    (fst (forwardEta (DD := f64) 2 ([0; 0]%float, [5; 7]%float)
            (EtaMatrix_new (DD := f64) 2 0 [2; 3]%float))) 0
  = snap (DD := f64) (5 / 2)%float.
Proof.
  destruct (forwardEta_entries (DD := f64) 2 (EtaMatrix_new (DD := f64) 2 0 [2; 3]%float)
              [0; 0]%float [5; 7]%float eq_refl eq_refl (Nat.lt_0_succ 1))
    as (_ & _ & H & _).
  exact H.
Defined.

Lemma backwardEta_entries_witness :
  get (DD := f64)
    (fst (backwardEta (DD := f64) 2 ([0; 0]%float, [5; 7]%float)
            (EtaMatrix_new (DD := f64) 2 0 [2; 3]%float))) 1
  = 7%float.
Proof.
  destruct (backwardEta_entries (DD := f64) 2 (EtaMatrix_new (DD := f64) 2 0 [2; 3]%float)
              [0; 0]%float [5; 7]%float eq_refl eq_refl (Nat.lt_0_succ 1))
    as (_ & _ & H & _).
  apply (H 1); [exact (Nat.lt_succ_diag_r 1)|discriminate].
Defined.

Lemma backward_deterministic_witness :
  backwardTransformation (DD := f64)
    (fst (backwardTransformation (DD := f64) S3_engine64 S3_rhs64 [0; 0; 0]%float))
    S3_rhs64 [7; 7; 7]%float
  = backwardTransformation (DD := f64) S3_engine64 S3_rhs64 [0; 0; 0]%float.
Proof.
  assert (W : wellFormed S3_engine64 = true) by (vm_compute; reflexivity).
  destruct (backward_deterministic (DD := f64) S3_engine64 S3_rhs64 [0; 0; 0]%float
              W eq_refl) as (_ & _ & _ & _ & _ & H).
  rewrite (H [7; 7; 7]%float eq_refl).
  destruct (backwardTransformation (DD := f64) S3_engine64 S3_rhs64 [0; 0; 0]%float).
  reflexivity.
Defined.

Lemma factorization_LP_shape_witness :
  lpEtaIndices (_LP (snd (factorizeMatrix (DD := f64) (fresh64 3) S3_matrix64)))
  = [2; 1; 0].
Proof.
  assert (H : factorizeMatrix (DD := f64) (fresh64 3) S3_matrix64
              = (Returned, snd (factorizeMatrix (DD := f64) (fresh64 3) S3_matrix64)))
    by (vm_compute; reflexivity).
  exact (proj1 (factorization_LP_shape (DD := f64) (fresh64 3) S3_matrix64 _
                  eq_refl eq_refl H)).
Defined.


Lemma condenseEta_is_product_witness :
  let eta := EtaMatrix_new (DD := f64) 2 1 [1; 3]%float in
  let B := [2; 0; 0; 1]%float in
  entry (DD := f64) 2 (condenseEta (DD := f64) 2 B eta) 0 1
  = snap (DD := f64)
      (entry (DD := f64) 2
         (matrixMultiply (DD := f64) 2 B (denseEta (DD := f64) 2 eta) [0; 0; 0; 0]%float)
         0 1).
Proof.
  apply (condenseEta_is_product (DD := f64) 2 [2; 0; 0; 1]%float
           (EtaMatrix_new (DD := f64) 2 1 [1; 3]%float) [0; 0; 0; 0]%float
           eq_refl eq_refl (Nat.lt_succ_diag_r 1) 0 1 (Nat.lt_0_succ 1) (Nat.lt_succ_diag_r 1)).
Defined.

Lemma invertB0_overwrites_result_witness :
  invertB0 (DD := f64) (snd (setB0 (DD := f64) (fresh64 2) [2; 1; 1; 3]%float))
    [9; 9; 9; 9]%float
  = invertB0 (DD := f64) (snd (setB0 (DD := f64) (fresh64 2) [2; 1; 1; 3]%float))
      [0; 0; 0; 0]%float.
Proof.
  assert (E : _etas (snd (setB0 (DD := f64) (fresh64 2) [2; 1; 1; 3]%float)) = [])
    by (vm_compute; reflexivity).
  assert (L : length [0; 0; 0; 0]%float
              = _m (snd (setB0 (DD := f64) (fresh64 2) [2; 1; 1; 3]%float))
                * _m (snd (setB0 (DD := f64) (fresh64 2) [2; 1; 1; 3]%float)))
    by (vm_compute; reflexivity).
  destruct (invertB0_overwrites_result (DD := f64) _ [0; 0; 0; 0]%float E L) as (_ & _ & H).
  apply H. exact L.
Defined.

Lemma setB0_factorizes_witness :
  _B0 (snd (setB0 (DD := f64) (fresh64 3) S3_matrix64)) = S3_matrix64.
Proof.
  assert (W : wellFormed (fresh64 3) = true) by (vm_compute; reflexivity).
  assert (H : setB0 (DD := f64) (fresh64 3) S3_matrix64
              = (Returned, snd (setB0 (DD := f64) (fresh64 3) S3_matrix64)))
    by (vm_compute; reflexivity).
  exact (proj1 (setB0_factorizes (DD := f64) (fresh64 3) S3_matrix64 _ W eq_refl H)).
Defined.

Lemma pushEtaMatrix_refactorizes_witness :
  _etas (snd (pushEtaMatrix (DD := f64) 0 (fresh64 2) 0 [2; 0]%float)) = [].
Proof.
  assert (W : wellFormed (fresh64 2) = true) by (vm_compute; reflexivity).
  assert (H : pushEtaMatrix (DD := f64) 0 (fresh64 2) 0 [2; 0]%float
              = (Returned, snd (pushEtaMatrix (DD := f64) 0 (fresh64 2) 0 [2; 0]%float)))
    by (vm_compute; reflexivity).
  exact (proj1 (pushEtaMatrix_refactorizes (DD := f64) 0 (fresh64 2) 0 [2; 0]%float _
                  W (Nat.lt_0_succ 1) eq_refl (Nat.lt_0_succ 0) H)).
Defined.
